(** * gomemcache: the memcache client of [memcache/memcache.go]

    A shallow embedding of the client: the key validator, the error
    classification, the buffered reader the protocol engine reads from,
    the response parsers, the per-address pool of idle connections, the
    single-key operations and the fan-out [GetMulti].

    Conventions.
    - A Go [string] is a [string]; a [[]byte] is a [list byte] where a
      byte is an [ascii]; integers are [Z] with the range of their Go
      type checked where the code depends on it.
    - An [error] is [option error]: [None] is Go's [nil].
    - Code that touches the client, the network or the selector is a
      function from [World] to an outcome and a [World]; a Go panic is
      the outcome [Panic]. *)

From Stdlib Require Import ZArith List Ascii String Bool Lia DecimalString DecimalPos Permutation.
From stdpp Require Import base option gmap strings list.
Import ListNotations.

Local Open Scope nat_scope.

(** ** Bytes *)

Abbreviation byte := ascii.

Definition CR : byte := "013"%char.
Definition LF : byte := "010"%char.
Definition SP : byte := " "%char.

Definition bytes (s : string) : list byte := list_ascii_of_string s.
Definition gostring (l : list byte) : string := string_of_list_ascii l.

Definition byte_eqb (a b : byte) : bool := Ascii.eqb a b.

Fixpoint bytes_Equal (a b : list byte) : bool :=
  match a, b with
  | [], [] => true
  | x :: a', y :: b' => byte_eqb x y && bytes_Equal a' b'
  | _, _ => false
  end.

Fixpoint bytes_HasPrefix (s prefix : list byte) : bool :=
  match prefix, s with
  | [], _ => true
  | p :: prefix', x :: s' => byte_eqb p x && bytes_HasPrefix s' prefix'
  | _ :: _, [] => false
  end.

Definition bytes_HasSuffix (s suffix : list byte) : bool :=
  (length suffix <=? length s) &&
  bytes_Equal (drop (length s - length suffix) s) suffix.

(** [bytes.Count(s, sep)] for a one-byte separator. *)
Definition bytes_Count1 (s : list byte) (sep : byte) : nat :=
  length (filter (fun c => byte_eqb c sep = true) s).

(** ** Errors *)

(** A [net.Addr]: an interface value, compared by identity when it is a
    map key ([addr_id]), and by [String()] when it names a pool list. *)
Record Addr := mkAddr {
  addr_id : nat;
  Network : string;
  AddrString : string
}.

Global Instance Addr_eq_dec : EqDecision Addr.
Proof. solve_decision. Defined.

(** The error values of the package, and the errors of the standard
    library that reach its callers.  [Errorf] is an error made on the
    spot by [fmt.Errorf] or [errors.New]: it carries its format and
    arguments, and is equal to none of the package's variables. *)
Inductive error :=
| ErrCacheMiss
| ErrCASConflict
| ErrNotStored
| ErrServerError
| ErrNoStats
| ErrMalformedKey
| ErrNoServers
| ConnectTimeoutError (addr : Addr)
| Errorf (format : string) (args : list (list byte))
| io_EOF
| bufio_ErrBufferFull
| OtherError (msg : string).

Definition maxIdleConnsPerAddr : nat := 2.
Definition buffered : nat := 8.
(** [DefaultTimeout], in nanoseconds. *)
Definition DefaultTimeout : Z := 100 * 1000000.

Definition resumableError (err : error) : bool :=
  match err with
  | ErrCacheMiss | ErrCASConflict | ErrNotStored | ErrMalformedKey => true
  | _ => false
  end.

(** ** Key validator *)

(** The loop of [legalKey] over the bytes of the key. *)
Fixpoint legalKey_loop (key : string) : bool :=
  match key with
  | EmptyString => true
  | String c rest =>
      if (nat_of_ascii c <=? 32) || (126 <? nat_of_ascii c) then false
      else legalKey_loop rest
  end.

Definition legalKey (key : string) : bool :=
  if 250 <? String.length key then false else legalKey_loop key.

Definition crlf : list byte := [CR; LF].
Definition resultStored : list byte := bytes "STORED" ++ crlf.
Definition resultNotStored : list byte := bytes "NOT_STORED" ++ crlf.
Definition resultExists : list byte := bytes "EXISTS" ++ crlf.
Definition resultNotFound : list byte := bytes "NOT_FOUND" ++ crlf.
Definition resultDeleted : list byte := bytes "DELETED" ++ crlf.
Definition resultEnd : list byte := bytes "END" ++ crlf.
Definition resultClientErrorPrefix : list byte := bytes "CLIENT_ERROR ".

(** ** The buffered reader

    What a connection will deliver: the bytes still to come, and the
    error its transport reports once they are used up ([io_EOF] when the
    peer closes, a network error on a deadline).  The theorems quantify
    over every [Reader], so over every behaviour of the server. *)
Record Reader := mkReader {
  rd_data : list byte;
  rd_end : error
}.

(** Size of the buffer of [bufio.NewReader] and [bufio.NewWriter]. *)
Definition defaultBufSize : nat := 4096.

Fixpoint index_byte (c : byte) (l : list byte) : option nat :=
  match l with
  | [] => None
  | x :: l' => if byte_eqb x c then Some 0 else S <$> index_byte c l'
  end.

(** [r.ReadSlice('\n')]: the line with its delimiter; a line that does
    not fit the buffer is [bufio_ErrBufferFull]; when the transport ends
    first, what was read and the transport's error. *)
Definition ReadSlice (r : Reader) : (list byte * option error) * Reader :=
  match index_byte LF (take defaultBufSize (rd_data r)) with
  | Some i =>
      (take (S i) (rd_data r), None, mkReader (drop (S i) (rd_data r)) (rd_end r))
  | None =>
      if defaultBufSize <=? length (rd_data r)
      then (take defaultBufSize (rd_data r), Some bufio_ErrBufferFull,
            mkReader (drop defaultBufSize (rd_data r)) (rd_end r))
      else (rd_data r, Some (rd_end r), mkReader [] (rd_end r))
  end.

(** [ioutil.ReadAll(io.LimitReader(r, n))]: at most [n] bytes; the end
    of the stream is not an error for [ReadAll], any other error of the
    transport is. *)
Definition ReadAll_LimitReader (r : Reader) (n : Z)
  : (list byte * option error) * Reader :=
  let k := Z.to_nat n in
  if k <=? length (rd_data r)
  then (take k (rd_data r), None, mkReader (drop k (rd_data r)) (rd_end r))
  else (rd_data r,
        match rd_end r with io_EOF => None | e => Some e end,
        mkReader [] (rd_end r)).

(** Conversion to [int64] of a mathematical integer (wrap-around). *)
Definition int64 (z : Z) : Z := ((z + 2 ^ 63) mod 2 ^ 64 - 2 ^ 63)%Z.

(** ** fmt.Sscanf

    The scanner of package [fmt] on the formats the client uses:
    literal text, blanks, a newline, and the verbs [%s] and [%d]
    without a width.  The scanner works on runes: the input and the
    format are decoded from UTF-8 as it reads them, and the word a [%s]
    scans is written back rune by rune. *)

Inductive Dest := DString | DUint (bits : Z) | DInt (bits : Z).
Inductive Scanned := VString (s : list byte) | VNum (z : Z).

Abbreviation rune := Z.

Definition code (b : byte) : Z := Z.of_nat (nat_of_ascii b).
Definition byte_of (z : Z) : byte := ascii_of_nat (Z.to_nat z).

Definition RuneError : rune := 0xFFFD.

(** The table [first] of package [utf8] on a leading byte that is not
    ASCII: the width of the encoding and the range of its second byte;
    [None] for a byte that starts no encoding. *)
Definition first (p0 : Z) : option (nat * (Z * Z)) :=
  if (p0 <? 0xC2)%Z then None
  else if (p0 <? 0xE0)%Z then Some (2, (0x80, 0xBF)%Z)
  else if (p0 =? 0xE0)%Z then Some (3, (0xA0, 0xBF)%Z)
  else if (p0 =? 0xED)%Z then Some (3, (0x80, 0x9F)%Z)
  else if (p0 <? 0xF0)%Z then Some (3, (0x80, 0xBF)%Z)
  else if (p0 =? 0xF0)%Z then Some (4, (0x90, 0xBF)%Z)
  else if (p0 <? 0xF4)%Z then Some (4, (0x80, 0xBF)%Z)
  else if (p0 =? 0xF4)%Z then Some (4, (0x80, 0x8F)%Z)
  else None.

(** A continuation byte. *)
Definition cont (b : byte) : bool := ((0x80 <=? code b) && (code b <=? 0xBF))%Z.

(** [utf8.DecodeRune]: the first rune of [p] and its width; an encoding
    that is invalid or cut short is [RuneError] of width 1. *)
Definition DecodeRune (p : list byte) : rune * nat :=
  match p with
  | [] => (RuneError, 0)
  | p0 :: p1 =>
      if (code p0 <? 0x80)%Z then (code p0, 1)
      else
        match first (code p0), p1 with
        | Some (sz, (lo, hi)), b1 :: p2 =>
            if length p <? sz then (RuneError, 1)
            else if ((code b1 <? lo) || (hi <? code b1))%Z then (RuneError, 1)
            else if sz <=? 2 then
              (Z.lor (Z.shiftl (Z.land (code p0) 0x1F) 6) (Z.land (code b1) 0x3F), 2)
            else
              match p2 with
              | b2 :: p3 =>
                  if negb (cont b2) then (RuneError, 1)
                  else if sz <=? 3 then
                    (Z.lor (Z.shiftl (Z.land (code p0) 0x0F) 12)
                       (Z.lor (Z.shiftl (Z.land (code b1) 0x3F) 6)
                              (Z.land (code b2) 0x3F)), 3)
                  else
                    match p3 with
                    | b3 :: _ =>
                        if negb (cont b3) then (RuneError, 1)
                        else
                          (Z.lor (Z.shiftl (Z.land (code p0) 0x07) 18)
                             (Z.lor (Z.shiftl (Z.land (code b1) 0x3F) 12)
                                (Z.lor (Z.shiftl (Z.land (code b2) 0x3F) 6)
                                       (Z.land (code b3) 0x3F))), 4)
                    | [] => (RuneError, 1)
                    end
              | [] => (RuneError, 1)
              end
        | _, _ => (RuneError, 1)
        end
  end.

Fixpoint decode (fuel : nat) (p : list byte) : list rune :=
  match fuel with
  | 0 => []
  | S fuel =>
      match p with
      | [] => []
      | _ :: _ => let '(r, size) := DecodeRune p in r :: decode fuel (drop size p)
      end
  end.

(** The runes [ss.getRune] reads from a string, in order: every rune
    takes at least one byte. *)
Definition runes (s : list byte) : list rune := decode (length s) s.

(** [utf8.AppendRune], by which [ss.buf.writeRune] stores a rune: a
    surrogate or a value out of range is stored as [RuneError]. *)
Definition EncodeRune (r : rune) : list byte :=
  if ((0 <=? r) && (r <=? 0x7F))%Z then [byte_of r]
  else if ((0 <=? r) && (r <=? 0x7FF))%Z then
    [byte_of (Z.lor 0xC0 (Z.shiftr r 6)); byte_of (Z.lor 0x80 (Z.land r 0x3F))]
  else
    let r :=
      if ((r <? 0) || (0x10FFFF <? r) || ((0xD800 <=? r) && (r <=? 0xDFFF)))%Z
      then RuneError else r in
    if (r <=? 0xFFFF)%Z then
      [byte_of (Z.lor 0xE0 (Z.shiftr r 12));
       byte_of (Z.lor 0x80 (Z.land (Z.shiftr r 6) 0x3F));
       byte_of (Z.lor 0x80 (Z.land r 0x3F))]
    else
      [byte_of (Z.lor 0xF0 (Z.shiftr r 18));
       byte_of (Z.lor 0x80 (Z.land (Z.shiftr r 12) 0x3F));
       byte_of (Z.lor 0x80 (Z.land (Z.shiftr r 6) 0x3F));
       byte_of (Z.lor 0x80 (Z.land r 0x3F))].

Definition EncodeRunes (l : list rune) : list byte := concat (map EncodeRune l).

(** The table [space] of package [fmt] and its [isSpace]. *)
Definition space : list (Z * Z) :=
  [(0x0009, 0x000d); (0x0020, 0x0020); (0x0085, 0x0085); (0x00a0, 0x00a0);
   (0x1680, 0x1680); (0x2000, 0x200a); (0x2028, 0x2029); (0x202f, 0x202f);
   (0x205f, 0x205f); (0x3000, 0x3000)]%Z.

Definition isSpace (r : rune) : bool :=
  (r <? 2 ^ 16)%Z && existsb (fun rng => ((fst rng <=? r) && (r <=? snd rng))%Z) space.

(** The newline, the percent sign and the signs, as runes. *)
Definition NL : rune := 10.
Definition PERCENT : rune := 37.
Definition PLUS : rune := 43.
Definition MINUS : rune := 45.

(** A rune of the string [0123456789]. *)
Definition inDigits (r : rune) : bool := ((48 <=? r) && (r <=? 57))%Z.

(** A decimal digit, for package [strconv]. *)
Definition isDigit (b : byte) : bool :=
  let n := nat_of_ascii b in (48 <=? n) && (n <=? 57).

(** [ss.SkipSpace]: a newline in the input is an error for [Sscanf]. *)
Fixpoint SkipSpace (input : list rune) : option (list rune) :=
  match input with
  | [] => Some []
  | c :: rest =>
      if (c =? NL)%Z then None
      else if isSpace c then SkipSpace rest
      else Some input
  end.

(** Blanks other than the newline. *)
Fixpoint skipBlanks (input : list rune) : list rune :=
  match input with
  | c :: rest => if isSpace c && negb (c =? NL)%Z then skipBlanks rest else input
  | [] => []
  end.

Fixpoint span_runes (f : rune -> bool) (l : list rune) : list rune * list rune :=
  match l with
  | c :: rest =>
      if f c then let '(a, b) := span_runes f rest in (c :: a, b) else ([], l)
  | [] => ([], [])
  end.

(** The value of a string of decimal digits. *)
Definition decimal (digits : list byte) : Z :=
  fold_left (fun acc c => (10 * acc + Z.of_nat (nat_of_ascii c - 48))%Z) digits 0%Z.

(** [ss.scanOne] for a [*string] (or a [*[]byte]), a [*uintN] and a
    [*intN]: the word up to the next blank; the digits, converted by
    [strconv] and checked against the width of the destination. *)
Definition scanOne (d : Dest) (input : list rune) : option (Scanned * list rune) :=
  match SkipSpace input with
  | None | Some [] => None
  | Some input =>
      match d with
      | DString =>
          let '(tok, rest) := span_runes (fun c => negb (isSpace c)) input in
          Some (VString (EncodeRunes tok), rest)
      | DUint bits =>
          let '(tok, rest) := span_runes inDigits input in
          let v := decimal (EncodeRunes tok) in
          match tok with
          | [] => None
          | _ => if (v <? 2 ^ bits)%Z then Some (VNum v, rest) else None
          end
      | DInt bits =>
          let '(neg, input) :=
            match input with
            | c :: rest =>
                if (c =? MINUS)%Z then (true, rest)
                else if (c =? PLUS)%Z then (false, rest)
                else (false, input)
            | [] => (false, [])
            end in
          let '(tok, rest) := span_runes inDigits input in
          let v := if neg then (- decimal (EncodeRunes tok))%Z
                   else decimal (EncodeRunes tok) in
          match tok with
          | [] => None
          | _ => if ((- 2 ^ (bits - 1) <=? v) && (v <? 2 ^ (bits - 1)))%Z
                 then Some (VNum v, rest) else None
          end
      end
  end.

(** A run of blanks of the format: [newlines] newlines, and whether
    blanks follow the last of them. *)
Fixpoint matchNewlines (newlines : nat) (input : list rune) : option (list rune) :=
  match newlines with
  | 0 => Some input
  | S n =>
      match skipBlanks input with
      | [] => matchNewlines n []
      | c :: rest => if (c =? NL)%Z then matchNewlines n rest else None
      end
  end.

Definition matchSpaceRun (run input : list rune) : option (list rune) :=
  let newlines := length (filter (fun c => (c =? NL)%Z = true) run) in
  let trailingSpace :=
    match last run with Some c => negb (c =? NL)%Z | None => false end in
  match matchNewlines newlines input with
  | None => None
  | Some input =>
      if trailingSpace then
        if (newlines =? 0) &&
           match input with
           | [] => false
           | c :: _ => negb (isSpace c) || (c =? NL)%Z
           end
        then None
        else Some (skipBlanks input)
      else Some input
  end.

(** [ss.doScanf]: the values stored so far and whether an error was
    raised; the count [n] that [Sscanf] returns is their number.  A
    literal of the format meets the same rune in the input; at the end
    of the input it is an error. *)
Fixpoint doScanf (fuel : nat) (format input : list rune) (a : list Dest)
    (got : list Scanned) : list Scanned * bool :=
  match fuel with
  | 0 => (got, false)
  | S fuel =>
      match format with
      | [] => (got, match a with [] => true | _ => false end)
      | f :: format' =>
          if isSpace f then
            let '(run, rest) := span_runes isSpace format in
            match matchSpaceRun run input with
            | None => (got, false)
            | Some input => doScanf fuel rest input a got
            end
          else if (f =? PERCENT)%Z then
            match format', a with
            | _verb :: format'', d :: a' =>
                match scanOne d input with
                | None => (got, false)
                | Some (v, input) => doScanf fuel format'' input a' (got ++ [v])
                end
            | _, _ => (got, false)
            end
          else
            match input with
            | c :: input' =>
                if (c =? f)%Z then doScanf fuel format' input' a got
                else (got, false)
            | [] => (got, false)
            end
      end
  end.

(** [fmt.Sscanf(str, format, a...)]: the scanned values and [true] when
    [err == nil]. *)
Definition Sscanf (str : string) (format : string) (a : list Dest)
  : list Scanned * bool :=
  let f := runes (bytes format) in
  doScanf (S (length f)) f (runes (bytes str)) a [].

(** ** Items *)

(** [Object] is a slot for the caller's codec; the client never reads or
    writes it and it is left out. *)
Record Item := mkItem {
  Key : string;
  Value : list byte;
  Flags : Z;
  Expiration : Z;
  casid : Z
}.

Definition newItem : Item := mkItem "" [] 0 0 0.

Definition fmt_unexpected_get : string :=
  "memcache: unexpected line in get response: %q".

(** [scanGetResponseLine]: fills [it] and returns the declared size. *)
Definition scanGetResponseLine (line : list byte) (it : Item)
  : (Z * option error) * Item :=
  let '(pattern, dest) :=
    if bytes_Count1 line SP =? 3
    then (String.append "VALUE %s %d %d" (gostring crlf),
          [DString; DUint 32; DInt 64])
    else (String.append "VALUE %s %d %d %d" (gostring crlf),
          [DString; DUint 32; DInt 64; DUint 64]) in
  let '(got, ok) := Sscanf (gostring line) pattern dest in
  if negb ok || negb (length got =? length dest)
  then ((-1)%Z, Some (Errorf fmt_unexpected_get [line]), it)
  else
    match got with
    | [VString k; VNum fl; VNum size] =>
        (size, None, mkItem (gostring k) (Value it) fl (Expiration it) (casid it))
    | [VString k; VNum fl; VNum size; VNum cas] =>
        (size, None, mkItem (gostring k) (Value it) fl (Expiration it) cas)
    | _ => ((-1)%Z, Some (Errorf fmt_unexpected_get [line]), it)
    end.

(** ** Outcomes *)

(** What a Go call does: it returns, or it panics. *)
Inductive Res (A : Type) :=
| Ret (a : A)
| Panic.
Arguments Ret {A} a.
Arguments Panic {A}.

(** ** Connections *)

(** A [conn]: the transport [nc] (its identity [cid], what it will
    deliver, what was handed to it, the error of its writes when it is
    broken) with the [bufio.ReadWriter] over it. *)
Record conn := mkConn {
  cid : nat;
  caddr : Addr;
  rd : Reader;
  wbuf : list byte;
  sent : list byte;
  wfail : option error
}.

Definition set_rd (cn : conn) (r : Reader) : conn :=
  mkConn (cid cn) (caddr cn) r (wbuf cn) (sent cn) (wfail cn).

(** [rw.Write(p)] and [fmt.Fprintf(rw, ...)] once formatted: the bytes
    are buffered; a write that overflows the buffer goes to the
    transport. *)
Definition rw_Write (cn : conn) (p : list byte) : option error * conn :=
  if length (wbuf cn) + length p <=? defaultBufSize
  then (None, mkConn (cid cn) (caddr cn) (rd cn) (wbuf cn ++ p) (sent cn) (wfail cn))
  else
    match wfail cn with
    | Some e => (Some e, cn)
    | None =>
        (None, mkConn (cid cn) (caddr cn) (rd cn) [] (sent cn ++ wbuf cn ++ p) None)
    end.

Definition rw_Flush (cn : conn) : option error * conn :=
  match wfail cn with
  | Some e => (Some e, cn)
  | None => (None, mkConn (cid cn) (caddr cn) (rd cn) [] (sent cn ++ wbuf cn) None)
  end.

Definition rw_ReadSlice (cn : conn) : (list byte * option error) * conn :=
  let '(line, err, r) := ReadSlice (rd cn) in (line, err, set_rd cn r).

(** [%d] of [fmt.Fprintf]. *)
Definition fmt_d (z : Z) : list byte := bytes (NilZero.string_of_int (Z.to_int z)).

(** ** The client and its environment *)

Record Transport := mkTransport {
  t_rd : Reader;
  t_wfail : option error
}.

(** What [net.Dial] does, seen from [dial]: it answers before the
    timer, or after it (with a transport or not). *)
Inductive DialOutcome :=
| Dialed (t : Transport)
| DialFailed (e : error)
| DialTooSlow (late : option Transport).

Inductive Event :=
| EvPickServer (key : string)
| EvDial (addr : Addr)
| EvSetDeadline (id : nat) (timeout : Z)
| EvClose (id : nat).

(** The fields of [Client]; the mutex [lk] is the atomicity of
    [putFreeConn] and [getFreeConn].  [freeconn] is [None] while the Go
    map is [nil]. *)
Record Client := mkClient {
  Timeout : Z;
  selector : string -> Addr + error;
  freeconn : option (gmap string (list conn))
}.

(** The client with what surrounds it: the network ([netDial n a] is
    the outcome of the [n]-th dial when it is to [a]), the number of
    dials so far and the calls made to the selector and the network, in
    order. *)
Record World := mkWorld {
  client : Client;
  netDial : nat -> Addr -> DialOutcome;
  ndial : nat;
  events : list Event
}.

Definition set_freeconn (w : World) (fc : option (gmap string (list conn))) : World :=
  mkWorld (mkClient (Timeout (client w)) (selector (client w)) fc)
          (netDial w) (ndial w) (events w).

Definition log (w : World) (e : Event) : World :=
  mkWorld (client w) (netDial w) (ndial w) (events w ++ [e]).

Definition nc_Close (cn : conn) (w : World) : World := log w (EvClose (cid cn)).

Definition putFreeConn (addr : Addr) (cn : conn) (w : World) : World :=
  let fc := default ∅ (freeconn (client w)) in
  let w := set_freeconn w (Some fc) in
  let freelist := default [] (fc !! AddrString addr) in
  if maxIdleConnsPerAddr <=? length freelist
  then nc_Close cn w
  else set_freeconn w (Some (<[AddrString addr := freelist ++ [cn]]> fc)).

Definition getFreeConn (addr : Addr) (w : World) : option conn * World :=
  match freeconn (client w) with
  | None => (None, w)
  | Some fc =>
      match fc !! AddrString addr with
      | None => (None, w)
      | Some freelist =>
          match last freelist with
          | None => (None, w)
          | Some cn =>
              (Some cn,
               set_freeconn w
                 (Some (<[AddrString addr := take (length freelist - 1) freelist]> fc)))
          end
      end
  end.

Definition netTimeout (c : Client) : Z :=
  if (Timeout c =? 0)%Z then DefaultTimeout else Timeout c.

Definition release (cn : conn) (w : World) : World := putFreeConn (caddr cn) cn w.

Definition extendDeadline (cn : conn) (w : World) : World :=
  log w (EvSetDeadline (cid cn) (netTimeout (client w))).

Definition condRelease (cn : conn) (err : option error) (w : World) : World :=
  match err with
  | None => release cn w
  | Some e => if resumableError e then release cn w else nc_Close cn w
  end.

(** [dial]: the transport and its identity, or the error.  A dial that
    loses against the timer is closed when it comes in. *)
Definition dial (addr : Addr) (w : World) : (nat * Transport + error) * World :=
  let id := ndial w in
  let w' := mkWorld (client w) (netDial w) (S id) (events w ++ [EvDial addr]) in
  match netDial w id addr with
  | Dialed t => (inl (id, t), w')
  | DialFailed e => (inr e, w')
  | DialTooSlow late =>
      (inr (ConnectTimeoutError addr),
       match late with Some _ => log w' (EvClose id) | None => w' end)
  end.

Definition getConn (addr : Addr) (w : World) : (conn + error) * World :=
  match getFreeConn addr w with
  | (Some cn, w) => (inl cn, extendDeadline cn w)
  | (None, w) =>
      match dial addr w with
      | (inr err, w) => (inr err, w)
      | (inl (id, nc), w) =>
          let cn := mkConn id addr (t_rd nc) [] [] (t_wfail nc) in
          (inl cn, extendDeadline cn w)
      end
  end.

(** ** The protocol engine *)

Section Engine.

(** [readAllCap n]: the capacity of the slice [ioutil.ReadAll] returns
    when it has read [n] bytes (never less than [n]; the rest of the
    backing array is zero). *)
Variable readAllCap : nat -> nat.

(** [v[:size]]: within the capacity, or a panic ([None]). *)
Definition sliceTo (v : list byte) (size : Z) : option (list byte) :=
  let cap := Nat.max (length v) (readAllCap (length v)) in
  if ((0 <=? size) && (size <=? Z.of_nat cap))%Z
  then Some (take (Z.to_nat size) (v ++ replicate (cap - length v) zero))
  else None.

Definition set_Value (it : Item) (v : list byte) : Item :=
  mkItem (Key it) v (Flags it) (Expiration it) (casid it).

Definition err_corrupt : error := Errorf "memcache: corrupt get result read" [].

(** The loop of [parseGetResponse]; [got] is what [cb] has received, in
    order.  Every turn that goes on consumes a line, so the turns are
    bounded by the bytes to come; the [panic("unreached")] after the
    loop is where the bound ends. *)
Fixpoint parseGetResponse_loop (turns : nat) (r : Reader) (got : list Item)
  : (list Item * Res (option error)) * Reader :=
  match turns with
  | 0 => (got, Panic, r)
  | S turns =>
      let '(line, err, r) := ReadSlice r in
      match err with
      | Some e => (got, Ret (Some e), r)
      | None =>
          if bytes_Equal line resultEnd then (got, Ret None, r)
          else
            let '(size, err, it) := scanGetResponseLine line newItem in
            match err with
            | Some e => (got, Ret (Some e), r)
            | None =>
                let '(value, err, r) := ReadAll_LimitReader r (int64 (size + 2)) in
                match err with
                | Some e => (got, Ret (Some e), r)
                | None =>
                    if negb (bytes_HasSuffix value crlf)
                    then (got, Ret (Some err_corrupt), r)
                    else
                      match sliceTo value size with
                      | None => (got, Panic, r)
                      | Some v => parseGetResponse_loop turns r (got ++ [set_Value it v])
                      end
                end
            end
      end
  end.

Definition parseGetResponse (r : Reader) : (list Item * Res (option error)) * Reader :=
  parseGetResponse_loop (S (length (rd_data r))) r [].

(** *** Writing a request and reading its answer *)

(** A step on [rw] that may fail: the rest runs when [err == nil]. *)
Definition andThen (r : option error * conn) (k : conn -> option error * conn)
  : option error * conn :=
  match r with
  | (Some e, cn) => (Some e, cn)
  | (None, cn) => k cn
  end.

Notation "'check' cn <- e ; k" := (andThen e (fun cn => k))
  (at level 10, cn name, e at level 100, k at level 200).

Definition fmt_unexpected_from : string :=
  "memcache: unexpected response line from %q: %q".
Definition fmt_unexpected : string := "memcache: unexpected response line: %q".

Definition populateOne (cn : conn) (verb : string) (item : Item)
  : option error * conn :=
  if negb (legalKey (Key item)) then (Some ErrMalformedKey, cn)
  else
    let header :=
      if String.eqb verb "cas"
      then bytes verb ++ [SP] ++ bytes (Key item) ++ [SP] ++ fmt_d (Flags item)
           ++ [SP] ++ fmt_d (Expiration item) ++ [SP]
           ++ fmt_d (Z.of_nat (length (Value item))) ++ [SP] ++ fmt_d (casid item)
           ++ crlf
      else bytes verb ++ [SP] ++ bytes (Key item) ++ [SP] ++ fmt_d (Flags item)
           ++ [SP] ++ fmt_d (Expiration item) ++ [SP]
           ++ fmt_d (Z.of_nat (length (Value item))) ++ crlf in
    check cn <- rw_Write cn header;
    check cn <- rw_Write cn (Value item);
    check cn <- rw_Write cn crlf;
    check cn <- rw_Flush cn;
    let '(line, err, cn) := rw_ReadSlice cn in
    match err with
    | Some e => (Some e, cn)
    | None =>
        if bytes_Equal line resultStored then (None, cn)
        else if bytes_Equal line resultNotStored then (Some ErrNotStored, cn)
        else if bytes_Equal line resultExists then (Some ErrCASConflict, cn)
        else if bytes_Equal line resultNotFound then (Some ErrCacheMiss, cn)
        else (Some (Errorf fmt_unexpected_from [bytes verb; line]), cn)
    end.

Definition set (cn : conn) (item : Item) := populateOne cn "set" item.
Definition add (cn : conn) (item : Item) := populateOne cn "add" item.
Definition cas (cn : conn) (item : Item) := populateOne cn "cas" item.

(** [writeReadLine], the request already formatted. *)
Definition writeReadLine (cn : conn) (request : list byte)
  : (list byte * option error) * conn :=
  match rw_Write cn request with
  | (Some e, cn) => ([], Some e, cn)
  | (None, cn) =>
      match rw_Flush cn with
      | (Some e, cn) => ([], Some e, cn)
      | (None, cn) => rw_ReadSlice cn
      end
  end.

Definition writeExpectf (cn : conn) (expect request : list byte)
  : option error * conn :=
  let '(line, err, cn) := writeReadLine cn request in
  match err with
  | Some e => (Some e, cn)
  | None =>
      if bytes_Equal line expect then (None, cn)
      else if bytes_Equal line resultNotStored then (Some ErrNotStored, cn)
      else if bytes_Equal line resultExists then (Some ErrCASConflict, cn)
      else if bytes_Equal line resultNotFound then (Some ErrCacheMiss, cn)
      else (Some (Errorf fmt_unexpected [line]), cn)
  end.

(** [strings.Join(keys, " ")]. *)
Fixpoint join_keys (keys : list string) : list byte :=
  match keys with
  | [] => []
  | [k] => bytes k
  | k :: rest => bytes k ++ [SP] ++ join_keys rest
  end.

(** The closure of [getFromAddr]: the items handed to [cb], in order,
    and how the closure ends. *)
Definition getFromAddr_body (keys : list string) (cn : conn)
  : (list Item * Res (option error)) * conn :=
  match rw_Write cn (bytes "gets " ++ join_keys keys ++ crlf) with
  | (Some e, cn) => ([], Ret (Some e), cn)
  | (None, cn) =>
      match rw_Flush cn with
      | (Some e, cn) => ([], Ret (Some e), cn)
      | (None, cn) =>
          let '(got, res, r) := parseGetResponse (rd cn) in (got, res, set_rd cn r)
      end
  end.

(** [strconv.ParseUint(s, 10, 64)]: the value, also on an error.  The
    bytes are taken in order: one that is no digit is a syntax error,
    a value that leaves the range is a range error with the largest
    value, whichever comes first. *)
Definition maxUint64 : Z := 2 ^ 64 - 1.
Definition strconv_ErrSyntax : error := OtherError "strconv.ParseUint: invalid syntax".
Definition strconv_ErrRange : error := OtherError "strconv.ParseUint: value out of range".

Fixpoint ParseUint64_loop (s : list byte) (n : Z) : Z * option error :=
  match s with
  | [] => (n, None)
  | c :: s =>
      if negb (isDigit c) then (0%Z, Some strconv_ErrSyntax)
      else if (maxUint64 / 10 + 1 <=? n)%Z then (maxUint64, Some strconv_ErrRange)
      else
        let n1 := (10 * n + Z.of_nat (nat_of_ascii c - 48))%Z in
        if (maxUint64 <? n1)%Z then (maxUint64, Some strconv_ErrRange)
        else ParseUint64_loop s n1
  end.

Definition ParseUint64 (s : list byte) : Z * option error :=
  match s with
  | [] => (0%Z, Some strconv_ErrSyntax)
  | _ => ParseUint64_loop s 0
  end.

(** [line[lo:hi]] on a slice of which only the length matters. *)
Definition subslice (line : list byte) (lo hi : Z) : option (list byte) :=
  if ((0 <=? lo) && (lo <=? hi) && (hi <=? Z.of_nat (length line)))%Z
  then Some (take (Z.to_nat hi - Z.to_nat lo) (drop (Z.to_nat lo) line))
  else None.

(** The closure of [incrDecr]: [val] and how the closure ends. *)
Definition incrDecr_body (verb key : string) (delta : Z) (cn : conn)
  : (Z * Res (option error)) * conn :=
  let '(line, err, cn) :=
    writeReadLine cn (bytes verb ++ [SP] ++ bytes key ++ [SP] ++ fmt_d delta ++ crlf) in
  match err with
  | Some e => (0%Z, Ret (Some e), cn)
  | None =>
      let len := Z.of_nat (length line) in
      if bytes_Equal line resultNotFound then (0%Z, Ret (Some ErrCacheMiss), cn)
      else if bytes_HasPrefix line resultClientErrorPrefix then
        match subslice line (Z.of_nat (length resultClientErrorPrefix)) (len - 2) with
        | None => (0%Z, Panic, cn)
        | Some errMsg =>
            (0%Z, Ret (Some (Errorf "memcache: client error: %s" [errMsg])), cn)
        end
      else
        match subslice line 0 (len - 2) with
        | None => (0%Z, Panic, cn)
        | Some digits =>
            let '(val, err) := ParseUint64 digits in (val, Ret err, cn)
        end
  end.

(** ** The operation layer *)

(** [withAddrRw]: [fn] returns the final value of the variables it
    captures (initially [a0]) with its result.  The deferred
    [condRelease] sees the error returned, and [nil] when [fn] panics. *)
Definition withAddrRw {A} (addr : Addr)
    (fn : conn -> (A * Res (option error)) * conn) (a0 : A) (w : World)
  : (A * Res (option error)) * World :=
  match getConn addr w with
  | (inr err, w) => (a0, Ret (Some err), w)
  | (inl cn, w) =>
      let '(a, res, cn) := fn cn in
      match res with
      | Ret err => (a, Ret err, condRelease cn err w)
      | Panic => (a, Panic, condRelease cn None w)
      end
  end.

Definition PickServer (key : string) (w : World) : (Addr + error) * World :=
  (selector (client w) key, log w (EvPickServer key)).

Definition withKeyAddr {A} (key : string)
    (fn : Addr -> World -> (A * Res (option error)) * World) (a0 : A) (w : World)
  : (A * Res (option error)) * World :=
  if negb (legalKey key) then (a0, Ret (Some ErrMalformedKey), w)
  else
    match PickServer key w with
    | (inr err, w) => (a0, Ret (Some err), w)
    | (inl addr, w) => fn addr w
    end.

Definition withKeyRw {A} (key : string)
    (fn : conn -> (A * Res (option error)) * conn) (a0 : A) (w : World)
  : (A * Res (option error)) * World :=
  withKeyAddr key (fun addr => withAddrRw addr fn a0) a0 w.

Definition getFromAddr (addr : Addr) (keys : list string) (w : World)
  : (list Item * Res (option error)) * World :=
  withAddrRw addr (getFromAddr_body keys) [] w.

(** [onItem]: the selector, the connection, then [fn]. *)
Definition onItem (item : Item) (fn : conn -> Item -> option error * conn)
    (w : World) : option error * World :=
  match PickServer (Key item) w with
  | (inr err, w) => (Some err, w)
  | (inl addr, w) =>
      match getConn addr w with
      | (inr err, w) => (Some err, w)
      | (inl cn, w) =>
          let '(err, cn) := fn cn item in (err, condRelease cn err w)
      end
  end.

(** [Get]: [cb] keeps the last item it receives. *)
Definition Get (key : string) (w : World)
  : (option Item * Res (option error)) * World :=
  let '(got, res, w) :=
    withKeyAddr key (fun addr => getFromAddr addr [key]) [] w in
  let item := last got in
  match res, item with
  | Ret None, None => (item, Ret (Some ErrCacheMiss), w)
  | _, _ => (item, res, w)
  end.

Definition Set_ (item : Item) (w : World) : option error * World := onItem item set w.
Definition Add (item : Item) (w : World) : option error * World := onItem item add w.
Definition CompareAndSwap (item : Item) (w : World) : option error * World :=
  onItem item cas w.

Definition Delete (key : string) (w : World) : Res (option error) * World :=
  let '(_, res, w) :=
    withKeyRw key
      (fun cn =>
         let '(err, cn) :=
           writeExpectf cn resultDeleted (bytes "delete " ++ bytes key ++ crlf) in
         (tt, Ret err, cn)) tt w in
  (res, w).

Definition incrDecr (verb key : string) (delta : Z) (w : World)
  : (Z * Res (option error)) * World :=
  withKeyRw key (incrDecr_body verb key delta) 0%Z w.

Definition Increment (key : string) (delta : Z) (w : World) := incrDecr "incr" key delta w.
Definition Decrement (key : string) (delta : Z) (w : World) := incrDecr "decr" key delta w.

(** *** GetMulti

    [keyMap] keeps the addresses in the order of their first key; the
    order in which Go walks the map is left to the schedule. *)
Fixpoint keyMap_append (keyMap : list (Addr * list string)) (addr : Addr)
    (key : string) : list (Addr * list string) :=
  match keyMap with
  | [] => [(addr, [key])]
  | (a, ks) :: rest =>
      if decide (a = addr) then (a, ks ++ [key]) :: rest
      else (a, ks) :: keyMap_append rest addr key
  end.

(** The first loop of [GetMulti]. *)
Fixpoint partition_keys (keys : list string) (keyMap : list (Addr * list string))
    (w : World) : (list (Addr * list string) + error) * World :=
  match keys with
  | [] => (inl keyMap, w)
  | key :: keys =>
      if negb (legalKey key) then (inr ErrMalformedKey, w)
      else
        match PickServer key w with
        | (inr err, w) => (inr err, w)
        | (inl addr, w) => partition_keys keys (keyMap_append keyMap addr key) w
        end
  end.

(** A goroutine of [GetMulti], between two of its actions on what it
    shares with the others (the pool, the map [m], the channel [ch]):
    not started; holding a connection, with the items it has parsed and
    not yet given to [addItemToMap], and the way its exchange ends;
    about to send its error; finished.  What it reads and writes on its
    own connection is seen by no one else and happens in one go. *)
Inductive Task :=
| TStart (addr : Addr) (keys : list string)
| TDeliver (cn : conn) (pending : list Item) (res : Res (option error))
| TSend (err : option error)
| TDone
| TPanic.

(** The shared state of a call: the world, [m], the goroutines and the
    values sent on [ch], in order. *)
Record Fanout := mkFanout {
  fo_world : World;
  fo_m : gmap string Item;
  fo_tasks : list Task;
  fo_ch : list (option error)
}.

(** One action of goroutine [i]. *)
Definition step (i : nat) (st : Fanout) : Fanout :=
  match fo_tasks st !! i with
  | Some (TStart addr keys) =>
      match getConn addr (fo_world st) with
      | (inr err, w) =>
          mkFanout w (fo_m st) (<[i := TSend (Some err)]> (fo_tasks st))
                   (fo_ch st)
      | (inl cn, w) =>
          let '(got, res, cn) := getFromAddr_body keys cn in
          mkFanout w (fo_m st) (<[i := TDeliver cn got res]> (fo_tasks st))
                   (fo_ch st)
      end
  | Some (TDeliver cn (it :: pending) res) =>
      mkFanout (fo_world st) (<[Key it := it]> (fo_m st))
               (<[i := TDeliver cn pending res]> (fo_tasks st))
               (fo_ch st)
  | Some (TDeliver cn [] (Ret err)) =>
      mkFanout (condRelease cn err (fo_world st)) (fo_m st)
               (<[i := TSend err]> (fo_tasks st)) (fo_ch st)
  | Some (TDeliver cn [] Panic) =>
      mkFanout (condRelease cn None (fo_world st)) (fo_m st)
               (<[i := TPanic]> (fo_tasks st)) (fo_ch st)
  | Some (TSend err) =>
      mkFanout (fo_world st) (fo_m st) (<[i := TDone]> (fo_tasks st))
               (fo_ch st ++ [err])
  | Some TDone | Some TPanic | None => st
  end.

Definition run (sched : list nat) (st : Fanout) : Fanout :=
  fold_left (fun st i => step i st) sched st.

(** Goroutine [i] runs until it has sent its error. *)
Definition finish_task (st : Fanout) (i : nat) : Fanout :=
  let st := step i st in
  Nat.iter
    match fo_tasks st !! i with
    | Some (TDeliver _ pending _) => length pending + 2
    | Some (TSend _) => 1
    | _ => 0
    end
    (step i) st.

Definition finish (st : Fanout) : Fanout :=
  fold_left finish_task (seq 0 (length (fo_tasks st))) st.

(** The second loop of [GetMulti] on the values received. *)
Definition last_error (ch : list (option error)) : option error :=
  fold_left (fun err ge => match ge with Some _ => ge | None => err end) ch None.

Definition is_TPanic (t : Task) : bool :=
  match t with TPanic => true | _ => false end.

(** The goroutines of a call from the buckets of [keyMap], run under a
    schedule: the goroutines take their actions in the order [sched]
    gives, then each one that is not finished runs to its end. *)
Definition fanout (keyMap : list (Addr * list string)) (sched : list nat)
    (w : World) : Fanout :=
  finish (run sched (mkFanout w ∅ (map (fun b => TStart (fst b) (snd b)) keyMap) [])).

(** [GetMulti]: the map ([None] is [nil]) and the error.  The channel
    hands the errors over in the order they were sent, and its buffer
    only delays a sender.  A panic in a goroutine ends the process. *)
Definition GetMulti (keys : list string) (sched : list nat) (w : World)
  : Res (option (gmap string Item) * option error) * World :=
  match partition_keys keys [] w with
  | (inr err, w) => (Ret (None, Some err), w)
  | (inl keyMap, w) =>
      let st := fanout keyMap sched w in
      (if existsb is_TPanic (fo_tasks st) then Panic
       else Ret (Some (fo_m st), last_error (fo_ch st)),
       fo_world st)
  end.

End Engine.

(** ** Statistics

    The parsers of the [stats] responses and the operations that return
    their maps as they are ([StatsItems], [StatsSlabs]).  A [[]byte]
    destination of [%s] scans like a string.  The maps are the ones the
    callers pass in: entries stored before an error stay in them. *)

Definition COLON : byte := ":"%char.

Definition fmt_unexpected_stats : string :=
  "memcache: unexpected line in stats response: %q".
Definition fmt_unexpected_stats_items : string :=
  "memcache: unexpected line in stats items response: %q".
Definition fmt_unexpected_stats_slabs : string :=
  "memcache: unexpected line in stats slabs response: %q".

Fixpoint parseStatsResponse_loop (turns : nat) (r : Reader)
    (keyMap : gmap string (list byte))
  : (gmap string (list byte) * Res (option error)) * Reader :=
  match turns with
  | 0 => (keyMap, Panic, r)
  | S turns =>
      let '(line, err, r) := ReadSlice r in
      match err with
      | Some e => (keyMap, Ret (Some e), r)
      | None =>
          if bytes_Equal line resultEnd then (keyMap, Ret None, r)
          else
            let '(got, ok) :=
              Sscanf (gostring line) (String.append "STAT %s %s" (gostring crlf))
                     [DString; DString] in
            if negb ok || negb (length got =? 2)
            then (keyMap, Ret (Some (Errorf fmt_unexpected_stats [line])), r)
            else
              match got with
              | [VString key; VString value] =>
                  parseStatsResponse_loop turns r (<[gostring key := value]> keyMap)
              | _ => (keyMap, Ret (Some (Errorf fmt_unexpected_stats [line])), r)
              end
      end
  end.

Definition parseStatsResponse (r : Reader) (keyMap : gmap string (list byte))
  : (gmap string (list byte) * Res (option error)) * Reader :=
  parseStatsResponse_loop (S (length (rd_data r))) r keyMap.

(** [slabMap[slabIndex][key] = value], the inner map made on demand. *)
Definition slabMap_store (slabMap : gmap Z (gmap string (list byte)))
    (slabIndex : Z) (key : string) (value : list byte)
  : gmap Z (gmap string (list byte)) :=
  <[slabIndex := <[key := value]> (default ∅ (slabMap !! slabIndex))]> slabMap.

Fixpoint parseStatsItemsResponse_loop (turns : nat) (r : Reader)
    (slabMap : gmap Z (gmap string (list byte)))
  : (gmap Z (gmap string (list byte)) * Res (option error)) * Reader :=
  match turns with
  | 0 => (slabMap, Panic, r)
  | S turns =>
      let '(line, err, r) := ReadSlice r in
      match err with
      | Some e => (slabMap, Ret (Some e), r)
      | None =>
          if bytes_Equal line resultEnd then (slabMap, Ret None, r)
          else
            let '(got, ok) :=
              Sscanf (gostring line)
                     (String.append "STAT items:%d:%s %s" (gostring crlf))
                     [DInt 64; DString; DString] in
            if negb ok || negb (length got =? 3)
            then (slabMap, Ret (Some (Errorf fmt_unexpected_stats_items [line])), r)
            else
              match got with
              | [VNum slabIndex; VString key; VString value] =>
                  parseStatsItemsResponse_loop turns r
                    (slabMap_store slabMap slabIndex (gostring key) value)
              | _ => (slabMap, Ret (Some (Errorf fmt_unexpected_stats_items [line])), r)
              end
      end
  end.

Definition parseStatsItemsResponse (r : Reader)
    (slabMap : gmap Z (gmap string (list byte))) :=
  parseStatsItemsResponse_loop (S (length (rd_data r))) r slabMap.

Fixpoint parseStatsSlabsResponse_loop (turns : nat) (r : Reader)
    (slabMap : gmap Z (gmap string (list byte)))
  : (gmap Z (gmap string (list byte)) * Res (option error)) * Reader :=
  match turns with
  | 0 => (slabMap, Panic, r)
  | S turns =>
      let '(line, err, r) := ReadSlice r in
      match err with
      | Some e => (slabMap, Ret (Some e), r)
      | None =>
          if bytes_Equal line resultEnd then (slabMap, Ret None, r)
          else if bytes_Count1 line COLON =? 0
          then parseStatsSlabsResponse_loop turns r slabMap
          else
            let '(got, ok) :=
              Sscanf (gostring line) (String.append "STAT %d:%s %s" (gostring crlf))
                     [DInt 64; DString; DString] in
            if negb ok || negb (length got =? 3)
            then (slabMap, Ret (Some (Errorf fmt_unexpected_stats_slabs [line])), r)
            else
              match got with
              | [VNum slabIndex; VString key; VString value] =>
                  parseStatsSlabsResponse_loop turns r
                    (slabMap_store slabMap slabIndex (gostring key) value)
              | _ => (slabMap, Ret (Some (Errorf fmt_unexpected_stats_slabs [line])), r)
              end
      end
  end.

Definition parseStatsSlabsResponse (r : Reader)
    (slabMap : gmap Z (gmap string (list byte))) :=
  parseStatsSlabsResponse_loop (S (length (rd_data r))) r slabMap.

(** The closure of [statsFromAddr]: [fn] fills the map it captures,
    [m0] before the call. *)
Definition statsFromAddr_body {M} (argument : string)
    (fn : Reader -> M -> (M * Res (option error)) * Reader) (m0 : M) (cn : conn)
  : (M * Res (option error)) * conn :=
  match rw_Write cn (bytes "stats " ++ bytes argument ++ crlf) with
  | (Some e, cn) => (m0, Ret (Some e), cn)
  | (None, cn) =>
      match rw_Flush cn with
      | (Some e, cn) => (m0, Ret (Some e), cn)
      | (None, cn) =>
          let '(m, res, r) := fn (rd cn) m0 in (m, res, set_rd cn r)
      end
  end.

Definition statsFromAddr {M} (argument : string) (addr : Addr)
    (fn : Reader -> M -> (M * Res (option error)) * Reader) (m0 : M) (w : World)
  : (M * Res (option error)) * World :=
  withAddrRw addr (statsFromAddr_body argument fn m0) m0 w.

(** [StatsItems] and [StatsSlabs]: the map ([None] is [nil]) and the
    error. *)
Definition StatsItems (addr : Addr) (w : World)
  : Res (option (gmap Z (gmap string (list byte))) * option error) * World :=
  let '(slabMap, res, w) := statsFromAddr "items" addr parseStatsItemsResponse ∅ w in
  match res with
  | Ret (Some err) => (Ret (None, Some err), w)
  | Ret None => (Ret (Some slabMap, None), w)
  | Panic => (Panic, w)
  end.

Definition StatsSlabs (addr : Addr) (w : World)
  : Res (option (gmap Z (gmap string (list byte))) * option error) * World :=
  let '(slabMap, res, w) := statsFromAddr "slabs" addr parseStatsSlabsResponse ∅ w in
  match res with
  | Ret (Some err) => (Ret (None, Some err), w)
  | Ret None => (Ret (Some slabMap, None), w)
  | Panic => (Panic, w)
  end.

(** A [STAT] line of the general statistics, and one of a slab. *)
Definition stat_line (name value : list byte) : list byte :=
  bytes "STAT " ++ name ++ [SP] ++ value ++ crlf.

Definition slab_line (slabIndex : Z) (name value : list byte) : list byte :=
  bytes "STAT " ++ fmt_d slabIndex ++ [COLON] ++ name ++ [SP] ++ value ++ crlf.

(** ** What the statements speak of *)

(** The idle connections the pool holds for an address, oldest first. *)
Definition idle (w : World) (a : string) : list conn :=
  default [] (default ∅ (freeconn (client w)) !! a).


(** The transport was closed. *)
Definition closed (w : World) (id : nat) : Prop := EvClose id ∈ events w.


(** The errors that report a broken answer of the server: the package's
    [ErrServerError] and the errors made on the spot from a response. *)
Definition server_error_class (e : error) : bool :=
  match e with
  | ErrServerError | Errorf _ _ => true
  | _ => false
  end.

(** The worlds a client goes through: [NewFromSelector] leaves
    [freeconn] nil, and the pool changes through [putFreeConn] and
    [getFreeConn] alone, each under the client's lock; every other
    action (selector, dial, deadline, close) leaves the pool as it is. *)
Inductive reachable : World -> Prop :=
| reach_new w : freeconn (client w) = None -> reachable w
| reach_put w addr cn : reachable w -> reachable (putFreeConn addr cn w)
| reach_get w addr : reachable w -> reachable (snd (getFreeConn addr w))
| reach_keep w w' :
    reachable w -> freeconn (client w') = freeconn (client w) -> reachable w'.

(** A call of the public interface. *)
Inductive Call :=
| CallGet (key : string)
| CallGetMulti (keys : list string) (sched : list nat)
| CallSet (item : Item)
| CallAdd (item : Item)
| CallCompareAndSwap (item : Item)
| CallDelete (key : string)
| CallIncrement (key : string) (delta : Z)
| CallDecrement (key : string) (delta : Z).

Definition exec (readAllCap : nat -> nat) (c : Call) (w : World) : World :=
  match c with
  | CallGet key => snd (Get readAllCap key w)
  | CallGetMulti keys sched => snd (GetMulti readAllCap keys sched w)
  | CallSet item => snd (Set_ item w)
  | CallAdd item => snd (Add item w)
  | CallCompareAndSwap item => snd (CompareAndSwap item w)
  | CallDelete key => snd (Delete key w)
  | CallIncrement key delta => snd (Increment key delta w)
  | CallDecrement key delta => snd (Decrement key delta w)
  end.




(** *** The fan-out *)


Definition task_done (t : Task) : Prop := t = TDone \/ t = TPanic.




Ltac step_cases cap j st Hj :=
  unfold step;
  destruct (fo_tasks st !! j) as [[addr keys|cn [|it0 pending] [err|]|err| |]|] eqn:Hj;
  [ destruct (getConn addr (fo_world st)) as [[cn|err] w'];
    [ destruct (getFromAddr_body cap keys cn) as [[got res] cn'] | ]
  | .. ].

(** No byte of a line built from words, numbers and fixed text is a
    line feed: by cases on the part the byte is in, with the lemmas for
    a word, for the inequality of bytes and for the digits of a number. *)
Ltac no_LF_by Htoken Hneq Hcodes :=
  let c := fresh "c" in let Hin := fresh "Hin" in
  intros c Hin;
  repeat (apply in_app_or in Hin; destruct Hin as [Hin|Hin]);
  try (eapply Htoken; [|exact Hin]; assumption);
  try (apply Hneq; apply Hcodes in Hin; [|lia];
       change (nat_of_ascii LF) with 10; lia);
  simpl in Hin; intuition (subst; reflexivity).

(** *** The wire format of a retrieved item *)

(** A byte of a word that [%s] scans as it is: ASCII, and no blank. *)
Definition wordByte (c : byte) : bool :=
  (code c <? 0x80)%Z && negb (isSpace (code c)).

(** A word [%s] scans whole: not empty, ASCII and without blanks. *)
Definition token (t : list byte) : Prop :=
  t <> [] /\ forallb wordByte t = true.

(** One more digit of a number in base ten. *)
Definition digit_step (acc : Z) (c : byte) : Z :=
  (10 * acc + Z.of_nat (nat_of_ascii c - 48))%Z.

(** The header line a server sends before the bytes of an item: the
    four fields [scanGetResponseLine] scans. *)
Definition value_header (key : list byte) (flags size cas : Z) : list byte :=
  bytes "VALUE " ++ key ++ [SP] ++ fmt_d flags ++ [SP] ++ fmt_d size
  ++ [SP] ++ fmt_d cas ++ crlf.

(** The record of an item in the response of [gets]. *)
Definition value_record (it : Item) : list byte :=
  value_header (bytes (Key it)) (Flags it)
    (Z.of_nat (length (Value it))) (casid it)
  ++ Value it ++ crlf.

(** What the client makes of a record: the expiration is not on the
    wire. *)
Definition received (it : Item) : Item :=
  mkItem (Key it) (Value it) (Flags it) 0 (casid it).

(** An item a server can send: a legal key that is not empty, flags and
    CAS id in the range of their types, and a value whose framed length
    is an [int64]. *)
Definition wire_item (it : Item) : Prop :=
  legalKey (Key it) = true /\ Key it <> "" /\
  (0 <= Flags it < 2 ^ 32)%Z /\ (0 <= casid it < 2 ^ 64)%Z /\
  (Z.of_nat (length (Value it)) + 2 < 2 ^ 63)%Z.

Definition is_TDone (t : Task) : bool :=
  match t with TDone => true | _ => false end.

(** The goroutines that have sent their error. *)
Definition sent_count (tasks : list Task) : nat :=
  length (List.filter is_TDone tasks).

(** *** Ownership of connections *)

(** The pool is sound: an idle connection is filed under its own
    address, comes from a dial that was made, and is open; no transport
    is in the pool twice; only transports that were dialed are closed. *)
Definition pool_safe (w : World) : Prop :=
  (forall a cn, cn ∈ idle w a ->
     AddrString (caddr cn) = a /\ cid cn < ndial w /\ ~ closed w (cid cn)) /\
  (forall a b i j c1 c2,
     idle w a !! i = Some c1 -> idle w b !! j = Some c2 ->
     cid c1 = cid c2 -> a = b /\ i = j) /\
  (forall id, closed w id -> id < ndial w).

(** The transport [id] is held by an operation: dialed, open, and not
    in the pool. *)
Definition owned (w : World) (id : nat) : Prop :=
  id < ndial w /\ ~ closed w id /\ forall a c, c ∈ idle w a -> cid c <> id.

(** The goroutines of a [GetMulti] hold connections of their own. *)
Definition fan_safe (st : Fanout) : Prop :=
  pool_safe (fo_world st) /\
  (forall i cn p r, fo_tasks st !! i = Some (TDeliver cn p r) ->
     owned (fo_world st) (cid cn)) /\
  (forall i j ci pi ri cj pj rj,
     fo_tasks st !! i = Some (TDeliver ci pi ri) ->
     fo_tasks st !! j = Some (TDeliver cj pj rj) ->
     cid ci = cid cj -> i = j).

(** *** The lines of a statistics response *)

Definition items_line (slabIndex : Z) (name value : list byte) : list byte :=
  bytes "STAT items:" ++ fmt_d slabIndex ++ [COLON] ++ name ++ [SP] ++ value ++ crlf.

(** [keyMap[key] = value] for a scanned pair. *)
Definition store_stat (keyMap : gmap string (list byte))
    (p : list byte * list byte) : gmap string (list byte) :=
  <[gostring (fst p) := snd p]> keyMap.

(** A pair of words whose line fits the reader's buffer. *)
Definition stat_ok (p : list byte * list byte) : Prop :=
  token (fst p) /\ token (snd p) /\
  length (stat_line (fst p) (snd p)) <= defaultBufSize.

(** A line of a [stats slabs] response: one of a slab, or any other
    line without a colon (the totals the server prints, for one). *)
Inductive SlabLine :=
| Global (body : list byte)
| Slab (slabIndex : Z) (name value : list byte).

Definition slab_wire (l : SlabLine) : list byte :=
  match l with
  | Global body => body ++ crlf
  | Slab i n v => slab_line i n v
  end.

Definition slab_store (slabMap : gmap Z (gmap string (list byte))) (l : SlabLine)
  : gmap Z (gmap string (list byte)) :=
  match l with
  | Global _ => slabMap
  | Slab i n v => slabMap_store slabMap i (gostring n) v
  end.

Definition slab_ok (l : SlabLine) : Prop :=
  length (slab_wire l) <= defaultBufSize /\
  match l with
  | Global body =>
      (forall c, In c body -> c <> LF /\ c <> COLON) /\ body ++ crlf <> resultEnd
  | Slab i n v => (0 <= i < 2 ^ 63)%Z /\ token n /\ token v
  end.

(** A line of a [stats items] response, as index, name and value. *)
Definition item_stat_ok (t : Z * list byte * list byte) : Prop :=
  (0 <= fst (fst t) < 2 ^ 63)%Z /\ token (snd (fst t)) /\ token (snd t) /\
  length (items_line (fst (fst t)) (snd (fst t)) (snd t)) <= defaultBufSize.

Definition item_stat_store (slabMap : gmap Z (gmap string (list byte)))
    (t : Z * list byte * list byte) : gmap Z (gmap string (list byte)) :=
  slabMap_store slabMap (fst (fst t)) (gostring (snd (fst t))) (snd t).

(** ** Sample worlds *)

(** The buffer of [ioutil.ReadAll] starts with 512 bytes. *)
Definition cap512 : nat -> nat := fun _ => 512.

Definition addr1 : Addr := mkAddr 0 "tcp" "10.0.0.1:11211".
Definition addr2 : Addr := mkAddr 1 "tcp" "10.0.0.2:11211".

(** A network where every dial succeeds and the server's answer is
    [reply], then the end of the stream. *)
Definition server (reply : list byte) : nat -> Addr -> DialOutcome :=
  fun _ _ => Dialed (mkTransport (mkReader reply io_EOF) None).

(** A new client over one server. *)
Definition world_one (reply : list byte) : World :=
  mkWorld (mkClient 0 (fun _ => inl addr1) None) (server reply) 0 [].

(** A new client whose selector has no server. *)
Definition world_none : World :=
  mkWorld (mkClient 0 (fun _ => inr ErrNoServers) None) (server []) 0 [].

(** A new client over two servers: keys that start with [a] go to the
    first, which answers one item; the others to the second, whose
    answer is not a response. *)
Definition world_two : World :=
  mkWorld
    (mkClient 0
       (fun key => match key with
                   | String "a" _ => inl addr1
                   | _ => inl addr2
                   end) None)
    (fun _ a =>
       Dialed (mkTransport
                 (mkReader
                    (if decide (a = addr1)
                     then bytes "VALUE a 0 1 5" ++ crlf ++ bytes "x" ++ crlf ++ resultEnd
                     else bytes "ERROR" ++ crlf) io_EOF) None))
    0 [].

Definition conn1 (id : nat) : conn := mkConn id addr1 (mkReader [] io_EOF) [] [] None.

Definition item_bad_key : Item := mkItem "a b" (bytes "v") 0 0 0.

Definition item_foo : Item := mkItem "foo" (bytes "bar") 7 0 5.


(** A response cut by the end of the stream after the two bytes that
    follow the header. *)
Definition truncated (size : string) : list byte :=
  bytes "VALUE k 0 " ++ bytes size ++ bytes " 1" ++ crlf ++ crlf.

(** The connection a first dial gives against [server reply], and the
    world right after [getConn] has dialed it, [trace] being the events
    before the dial. *)
Definition dialed (reply : list byte) : conn :=
  mkConn 0 addr1 (mkReader reply io_EOF) [] [] None.

Definition world_dialed (trace : list Event) (reply : list byte) : World :=
  extendDeadline (dialed reply)
    (mkWorld (mkClient 0 (fun _ => inl addr1) None) (server reply) 1
       (trace ++ [EvDial addr1])).

(** A connection whose transport refuses every write. *)
Definition conn_broken : conn :=
  mkConn 0 addr1 (mkReader resultStored io_EOF) [] [] (Some io_EOF).

Definition item_empty : Item := mkItem "k" [] 0 0 0.

(** Answers of a server: two items, a counter, slab and item statistics. *)
Definition reply_items : list byte :=
  concat (map value_record [item_foo; item_empty]) ++ resultEnd ++ bytes "x".

Definition reply_foo : list byte :=
  concat (map value_record [item_foo]) ++ resultEnd ++ [].

Definition reply_counter : list byte := fmt_d 42 ++ crlf ++ [].

Definition slab_lines : list SlabLine :=
  [Slab 1 (bytes "chunk_size") (bytes "96");
   Global (bytes "STAT active_slabs 1");
   Slab 1 (bytes "total_pages") (bytes "1")].

Definition reply_slabs : list byte :=
  concat (map slab_wire slab_lines) ++ resultEnd ++ [].

Definition item_lines : list (Z * list byte * list byte) :=
  [(1%Z, bytes "number", bytes "5"); (2%Z, bytes "age", bytes "17")].

Definition reply_stat_items : list byte :=
  concat (map (fun t => items_line (fst (fst t)) (snd (fst t)) (snd t)) item_lines)
  ++ resultEnd ++ [].

Definition stat_pairs : list (list byte * list byte) :=
  [(bytes "pid", bytes "4242"); (bytes "version", bytes "1.4.5")].




(** A response line longer than the buffer of the reader. *)
Definition overlong_line : list byte := replicate 5000 "x"%char ++ crlf.

(** ** The key validator *)

Lemma legalKey_loop_spec (key : string) :
  legalKey_loop key = true <->
  forall c, In c (bytes key) -> 32 < nat_of_ascii c <= 126.
Proof.
  induction key as [|c key IH]; simpl.
  - split; [intros _ c [] | reflexivity].
  - destruct (Nat.leb_spec (nat_of_ascii c) 32) as [Hle|Hgt]; simpl.
    + split; [discriminate|]. intros H. specialize (H c (or_introl eq_refl)). lia.
    + destruct (Nat.ltb_spec 126 (nat_of_ascii c)) as [Hhi|Hlo].
      * split; [discriminate|]. intros H. specialize (H c (or_introl eq_refl)). lia.
      * rewrite IH. split.
        -- intros H x [<-|Hx]; [lia | auto].
        -- intros H x Hx. apply H. now right.
Qed.

(** C3, as the code has it: [legalKey] accepts exactly the keys of at
    most 250 bytes whose bytes all lie in 0x21..0x7E; it has no lower
    bound on the length. *)
Theorem legalKey_spec (key : string) :
  legalKey key = true <->
  String.length key <= 250 /\
  forall c, In c (bytes key) -> 32 < nat_of_ascii c <= 126.
Proof.
  unfold legalKey.
  destruct (Nat.ltb_spec 250 (String.length key)) as [Hlong|Hshort].
  - split; [discriminate | intros [H _]; lia].
  - rewrite legalKey_loop_spec. split; [intros H; split; [lia | exact H] | intros [_ H]; exact H].
Qed.

(** C3, as the claim has it, fails on the empty key: [legalKey] accepts
    it although its length is below 1. *)
Lemma legalKey_accepts_empty_key :
  ~ (legalKey "" = true <->
     1 <= String.length "" <= 250 /\
     forall c, In c (bytes "") -> 32 < nat_of_ascii c <= 126).
Proof.
  intros [H _]. specialize (H eq_refl). simpl in H. lia.
Qed.

(** ** The pool of idle connections *)

Lemma idle_set_freeconn w fc a :
  idle (set_freeconn w (Some fc)) a = default [] (fc !! a).
Proof. reflexivity. Qed.


Lemma putFreeConn_idle addr cn w a :
  idle (putFreeConn addr cn w) a =
  if decide (a = AddrString addr)
  then if maxIdleConnsPerAddr <=? length (idle w a)
       then idle w a else idle w a ++ [cn]
  else idle w a.
Proof.
  unfold putFreeConn, idle at 2 3 4.
  set (fc := default ∅ (freeconn (client w))).
  destruct (decide (a = AddrString addr)) as [->|Hne].
  - destruct (maxIdleConnsPerAddr <=? length (default [] (fc !! AddrString addr))).
    + reflexivity.
    + rewrite idle_set_freeconn, lookup_insert_eq. reflexivity.
  - destruct (maxIdleConnsPerAddr <=? length (default [] (fc !! AddrString addr))).
    + reflexivity.
    + rewrite idle_set_freeconn, lookup_insert_ne by congruence. reflexivity.
Qed.

Lemma putFreeConn_events addr cn w :
  events (putFreeConn addr cn w) =
  if maxIdleConnsPerAddr <=? length (idle w (AddrString addr))
  then events w ++ [EvClose (cid cn)] else events w.
Proof.
  unfold putFreeConn, idle.
  destruct (maxIdleConnsPerAddr <=? _); reflexivity.
Qed.

Lemma getFreeConn_fst addr w :
  fst (getFreeConn addr w) = last (idle w (AddrString addr)).
Proof.
  unfold getFreeConn, idle.
  destruct (freeconn (client w)) as [fc|]; simpl; [|reflexivity].
  destruct (fc !! AddrString addr) as [l|]; simpl; [|reflexivity].
  destruct (last l); reflexivity.
Qed.

Lemma getFreeConn_idle addr w a :
  idle (snd (getFreeConn addr w)) a =
  if decide (a = AddrString addr)
  then take (length (idle w a) - 1) (idle w a) else idle w a.
Proof.
  unfold getFreeConn, idle at 2 3 4.
  destruct (freeconn (client w)) as [fc|] eqn:Hfc; simpl.
  - destruct (fc !! AddrString addr) as [l|] eqn:Hl; simpl.
    + destruct (last l) as [cn|] eqn:Hlast; simpl.
      * rewrite idle_set_freeconn.
        destruct (decide (a = AddrString addr)) as [->|Hne].
        -- rewrite lookup_insert_eq, Hl. reflexivity.
        -- rewrite lookup_insert_ne by congruence. reflexivity.
      * unfold idle. rewrite Hfc. simpl.
        destruct (decide (a = AddrString addr)) as [->|Hne]; [|reflexivity].
        rewrite Hl. simpl. apply last_None in Hlast. subst l. reflexivity.
    + unfold idle. rewrite Hfc. simpl.
      destruct (decide (a = AddrString addr)) as [->|Hne]; [|reflexivity].
      rewrite Hl. reflexivity.
  - unfold idle. rewrite Hfc. simpl.
    destruct (decide (a = AddrString addr)); rewrite lookup_empty; reflexivity.
Qed.

Lemma getFreeConn_events addr w : events (snd (getFreeConn addr w)) = events w.
Proof.
  unfold getFreeConn.
  destruct (freeconn (client w)) as [fc|]; [|reflexivity].
  destruct (fc !! AddrString addr) as [l|]; [|reflexivity].
  destruct (last l); reflexivity.
Qed.

Lemma idle_keep w w' a :
  freeconn (client w') = freeconn (client w) -> idle w' a = idle w a.
Proof. unfold idle. now intros ->. Qed.

Lemma reachable_bounded w :
  reachable w -> forall a, length (idle w a) <= maxIdleConnsPerAddr.
Proof.
  induction 1 as [w Hnil|w addr cn _ IH|w addr _ IH|w w' _ IH Hkeep]; intros a.
  - unfold idle. rewrite Hnil. simpl. rewrite lookup_empty. simpl.
    unfold maxIdleConnsPerAddr. lia.
  - rewrite putFreeConn_idle. specialize (IH a).
    destruct (decide (a = AddrString addr)); [|exact IH].
    destruct (Nat.leb_spec maxIdleConnsPerAddr (length (idle w a))); [exact IH|].
    rewrite length_app. simpl. lia.
  - rewrite getFreeConn_idle. specialize (IH a).
    destruct (decide (a = AddrString addr)); [|exact IH].
    rewrite length_take. lia.
  - rewrite (idle_keep _ _ _ Hkeep). apply IH.
Qed.

(** C5: the idle list of an address never holds more than two
    connections, in any world a client reaches; [putFreeConn] appends
    the connection to a list of fewer than two, and otherwise closes its
    transport and leaves every list as it was. *)
Theorem pool_bound (w : World) (addr : Addr) (cn : conn) :
  reachable w ->
  (forall a, length (idle w a) <= 2) /\
  (length (idle w (AddrString addr)) < 2 ->
     idle (putFreeConn addr cn w) (AddrString addr)
       = idle w (AddrString addr) ++ [cn] /\
     events (putFreeConn addr cn w) = events w) /\
  (2 <= length (idle w (AddrString addr)) ->
     (forall a, idle (putFreeConn addr cn w) a = idle w a) /\
     closed (putFreeConn addr cn w) (cid cn)) /\
  (forall a, length (idle (putFreeConn addr cn w) a) <= 2).
Proof.
  intros Hreach. split; [|split; [|split]].
  - apply reachable_bounded, Hreach.
  - intros Hroom. rewrite putFreeConn_idle, putFreeConn_events.
    rewrite decide_True by reflexivity.
    destruct (Nat.leb_spec maxIdleConnsPerAddr (length (idle w (AddrString addr))));
      [unfold maxIdleConnsPerAddr in *; lia | split; reflexivity].
  - intros Hfull. split.
    + intros a. rewrite putFreeConn_idle.
      destruct (decide (a = AddrString addr)) as [->|]; [|reflexivity].
      destruct (Nat.leb_spec maxIdleConnsPerAddr (length (idle w (AddrString addr))));
        [reflexivity | unfold maxIdleConnsPerAddr in *; lia].
    + unfold closed. rewrite putFreeConn_events.
      destruct (Nat.leb_spec maxIdleConnsPerAddr (length (idle w (AddrString addr))));
        [|unfold maxIdleConnsPerAddr in *; lia].
      apply elem_of_app. right. apply list_elem_of_singleton. reflexivity.
  - apply (reachable_bounded (putFreeConn addr cn w)). now apply reach_put.
Qed.

Lemma getFreeConn_takes_tail addr w l cn :
  idle w (AddrString addr) = l ++ [cn] ->
  fst (getFreeConn addr w) = Some cn /\
  idle (snd (getFreeConn addr w)) (AddrString addr) = l.
Proof.
  intros Hl. rewrite getFreeConn_fst, getFreeConn_idle, Hl.
  rewrite decide_True by reflexivity. split.
  - apply last_snoc.
  - rewrite length_app. simpl.
    replace (length l + 1 - 1) with (length l) by lia.
    rewrite take_app_length. reflexivity.
Qed.

(** C8: the idle list of an address is a stack.  [putFreeConn] appends
    at the tail and [getFreeConn] takes the tail: when [c1] then [c2]
    are released to an address that has room for both, the next
    acquisition returns [c2], and the one after it [c1]. *)
Theorem pool_lifo (w : World) (addr : Addr) (c1 c2 : conn) :
  length (idle w (AddrString addr)) + 2 <= maxIdleConnsPerAddr ->
  let a := AddrString addr in
  let w2 := putFreeConn addr c2 (putFreeConn addr c1 w) in
  let w3 := snd (getFreeConn addr w2) in
  idle w2 a = idle w a ++ [c1; c2] /\
  fst (getFreeConn addr w2) = Some c2 /\
  idle w3 a = idle w a ++ [c1] /\
  fst (getFreeConn addr w3) = Some c1.
Proof.
  intros Hroom a w2 w3.
  assert (H1 : idle (putFreeConn addr c1 w) a = idle w a ++ [c1]).
  { rewrite putFreeConn_idle, decide_True by reflexivity.
    destruct (Nat.leb_spec maxIdleConnsPerAddr (length (idle w a)));
      [subst a; lia | reflexivity]. }
  assert (H2 : idle w2 a = (idle w a ++ [c1]) ++ [c2]).
  { unfold w2. rewrite putFreeConn_idle, decide_True by reflexivity.
    rewrite H1, length_app. change (length [c1]) with 1.
    destruct (Nat.leb_spec maxIdleConnsPerAddr (length (idle w a) + 1));
      [subst a; lia | reflexivity]. }
  destruct (getFreeConn_takes_tail addr w2 _ _ H2) as [Hget2 Hidle3].
  fold w3 in Hidle3.
  destruct (getFreeConn_takes_tail addr w3 _ _ Hidle3) as [Hget3 _].
  rewrite H2, <- app_assoc. simpl. auto.
Qed.

(** ** Releasing a connection *)




(** ** Store responses *)

Lemma byte_eqb_spec (a b : byte) : byte_eqb a b = true <-> a = b.
Proof. apply Ascii.eqb_eq. Qed.

Lemma bytes_Equal_spec (a b : list byte) : bytes_Equal a b = true <-> a = b.
Proof.
  revert b. induction a as [|x a IH]; intros [|y b]; simpl;
    try (split; [discriminate | congruence]).
  - split; reflexivity.
  - rewrite andb_true_iff, byte_eqb_spec, IH. split.
    + intros [-> ->]. reflexivity.
    + intros H. injection H as -> ->. split; reflexivity.
Qed.

Lemma bytes_Equal_neq (a b : list byte) : a <> b -> bytes_Equal a b = false.
Proof.
  intros H. destruct (bytes_Equal a b) eqn:E; [|reflexivity].
  apply bytes_Equal_spec in E. contradiction.
Qed.

Lemma rw_Write_ok cn p :
  wfail cn = None ->
  exists cn', rw_Write cn p = (None, cn') /\ wfail cn' = None /\ rd cn' = rd cn.
Proof.
  intros Hw. unfold rw_Write.
  destruct (length (wbuf cn) + length p <=? defaultBufSize).
  - eexists. split; [reflexivity|]. simpl. auto.
  - rewrite Hw. eexists. split; [reflexivity|]. simpl. auto.
Qed.

Lemma rw_Flush_ok cn :
  wfail cn = None ->
  exists cn', rw_Flush cn = (None, cn') /\ wfail cn' = None /\ rd cn' = rd cn.
Proof.
  intros Hw. unfold rw_Flush. rewrite Hw.
  eexists. split; [reflexivity|]. simpl. auto.
Qed.

Lemma populateOne_reads cn verb item line r' :
  legalKey (Key item) = true ->
  wfail cn = None ->
  ReadSlice (rd cn) = (line, None, r') ->
  fst (populateOne cn verb item) =
  if bytes_Equal line resultStored then None
  else if bytes_Equal line resultNotStored then Some ErrNotStored
  else if bytes_Equal line resultExists then Some ErrCASConflict
  else if bytes_Equal line resultNotFound then Some ErrCacheMiss
  else Some (Errorf fmt_unexpected_from [bytes verb; line]).
Proof.
  intros Hkey Hw Hread. unfold populateOne. rewrite Hkey. simpl negb. cbv iota.
  match goal with |- context [rw_Write cn ?h] => generalize h end. intros header.
  destruct (rw_Write_ok cn header Hw) as (cn1 & E1 & Hw1 & Hr1).
  destruct (rw_Write_ok cn1 (Value item) Hw1) as (cn2 & E2 & Hw2 & Hr2).
  destruct (rw_Write_ok cn2 crlf Hw2) as (cn3 & E3 & Hw3 & Hr3).
  destruct (rw_Flush_ok cn3 Hw3) as (cn4 & E4 & Hw4 & Hr4).
  unfold andThen. rewrite E1, E2, E3, E4.
  unfold rw_ReadSlice. rewrite Hr4, Hr3, Hr2, Hr1, Hread.
  repeat match goal with |- context [bytes_Equal ?a ?b] =>
    destruct (bytes_Equal a b); try reflexivity end.
Qed.

Lemma populateOne_result cn verb item line r' :
  legalKey (Key item) = true ->
  wfail cn = None ->
  ReadSlice (rd cn) = (line, None, r') ->
  let err := fst (populateOne cn verb item) in
  (line = resultStored -> err = None) /\
  (line = resultNotStored -> err = Some ErrNotStored) /\
  (line = resultExists -> err = Some ErrCASConflict) /\
  (line = resultNotFound -> err = Some ErrCacheMiss) /\
  (line <> resultStored -> line <> resultNotStored ->
   line <> resultExists -> line <> resultNotFound ->
   err = Some (Errorf fmt_unexpected_from [bytes verb; line])).
Proof.
  intros Hkey Hw Hread err. subst err.
  rewrite (populateOne_reads cn verb item line r' Hkey Hw Hread).
  repeat split.
  - intros ->. reflexivity.
  - intros ->. reflexivity.
  - intros ->. reflexivity.
  - intros ->. reflexivity.
  - intros H1 H2 H3 H4.
    rewrite !bytes_Equal_neq by assumption. reflexivity.
Qed.

(** ** Parsing the response of [gets] *)

Lemma index_byte_lt c l i : index_byte c l = Some i -> i < length l.
Proof.
  revert i. induction l as [|x l IH]; intros i; simpl; [discriminate|].
  destruct (byte_eqb x c).
  - intros [= <-]. lia.
  - destruct (index_byte c l) as [j|]; simpl; [|discriminate].
    intros [= <-]. specialize (IH j eq_refl). lia.
Qed.

Lemma ReadSlice_consumes r line r' :
  ReadSlice r = (line, None, r') -> length (rd_data r') < length (rd_data r).
Proof.
  unfold ReadSlice.
  destruct (index_byte LF (take defaultBufSize (rd_data r))) as [i|] eqn:Hi.
  - intros [= _ <-]. simpl. apply index_byte_lt in Hi.
    rewrite length_take in Hi. rewrite length_drop. lia.
  - destruct (defaultBufSize <=? length (rd_data r)); discriminate.
Qed.

Lemma ReadAll_LimitReader_length r n v e r' :
  ReadAll_LimitReader r n = (v, e, r') -> length (rd_data r') <= length (rd_data r).
Proof.
  unfold ReadAll_LimitReader.
  destruct (Z.to_nat n <=? length (rd_data r)); intros [= _ _ <-]; simpl.
  - rewrite length_drop. lia.
  - lia.
Qed.

(** The bound on the turns of [parseGetResponse] is never met: more
    turns than bytes to come change nothing. *)
Lemma parseGetResponse_loop_turns cap turns :
  forall r got k,
    length (rd_data r) < turns ->
    parseGetResponse_loop cap (turns + k) r got
    = parseGetResponse_loop cap turns r got.
Proof.
  induction turns as [|turns IH]; intros r got k Hlen; [lia|].
  simpl.
  destruct (ReadSlice r) as [[line err] r1] eqn:Hread.
  destruct err as [e|]; [reflexivity|].
  destruct (bytes_Equal line resultEnd); [reflexivity|].
  destruct (scanGetResponseLine line newItem) as [[size err] it].
  destruct err as [e|]; [reflexivity|].
  destruct (ReadAll_LimitReader r1 (int64 (size + 2))) as [[value err] r2] eqn:Hall.
  destruct err as [e|]; [reflexivity|].
  destruct (negb (bytes_HasSuffix value crlf)); [reflexivity|].
  destruct (sliceTo cap value size); [|reflexivity].
  apply IH.
  apply ReadSlice_consumes in Hread.
  apply ReadAll_LimitReader_length in Hall. lia.
Qed.

(** A record that is read whole is handed to [cb] and the parse goes on
    with what follows it. *)
Lemma parseGetResponse_loop_next cap r got line r1 size it value r2 v :
  ReadSlice r = (line, None, r1) ->
  bytes_Equal line resultEnd = false ->
  scanGetResponseLine line newItem = (size, None, it) ->
  ReadAll_LimitReader r1 (int64 (size + 2)) = (value, None, r2) ->
  bytes_HasSuffix value crlf = true ->
  sliceTo cap value size = Some v ->
  parseGetResponse_loop cap (S (length (rd_data r))) r got
  = parseGetResponse_loop cap (S (length (rd_data r2))) r2 (got ++ [set_Value it v]).
Proof.
  intros Hread Hend Hscan Hall Hsuf Hslice.
  simpl. rewrite Hread, Hend, Hscan, Hall, Hsuf, Hslice. simpl.
  pose proof (ReadSlice_consumes _ _ _ Hread).
  pose proof (ReadAll_LimitReader_length _ _ _ _ _ Hall).
  replace (length (rd_data r)) with
    (S (length (rd_data r2)) + (length (rd_data r) - S (length (rd_data r2)))) by lia.
  apply parseGetResponse_loop_turns. lia.
Qed.

(** A record whose declared size exceeds the capacity of what was read
    makes the parse panic. *)
Lemma parseGetResponse_loop_overrun cap turns r got line r1 size it value r2 :
  ReadSlice r = (line, None, r1) ->
  bytes_Equal line resultEnd = false ->
  scanGetResponseLine line newItem = (size, None, it) ->
  ReadAll_LimitReader r1 (int64 (size + 2)) = (value, None, r2) ->
  bytes_HasSuffix value crlf = true ->
  (Z.of_nat (Nat.max (length value) (cap (length value))) < size)%Z ->
  parseGetResponse_loop cap (S turns) r got = (got, Panic, r2).
Proof.
  intros Hread Hend Hscan Hall Hsuf Hcap.
  simpl. rewrite Hread, Hend, Hscan, Hall, Hsuf. simpl.
  unfold sliceTo.
  destruct (Z.leb_spec size (Z.of_nat (Nat.max (length value) (cap (length value)))));
    [lia|].
  rewrite andb_false_r. reflexivity.
Qed.


(** ** [GetMulti] on no key *)

Lemma step_no_task cap i st : fo_tasks st = [] -> step cap i st = st.
Proof. intros H. unfold step. rewrite H. reflexivity. Qed.

Lemma run_no_task cap sched st : fo_tasks st = [] -> run cap sched st = st.
Proof.
  revert st. induction sched as [|i sched IH]; intros st H; [reflexivity|].
  unfold run in *. simpl. rewrite step_no_task by exact H. apply IH, H.
Qed.

(** C10: on an empty list of keys [GetMulti] returns an empty map that
    is not nil and a nil error, and does nothing else: no call to the
    selector, no connection taken or dialed, the world is as before. *)
Theorem GetMulti_no_keys (cap : nat -> nat) (sched : list nat) (w : World) :
  GetMulti cap [] sched w = (Ret (Some ∅, None), w).
Proof.
  unfold GetMulti, fanout. simpl partition_keys. cbv iota. simpl map.
  rewrite run_no_task by reflexivity. reflexivity.
Qed.

(** ** Operations on an illegal key *)

Lemma onItem_illegal_key fn verb item w :
  (forall cn it, fn cn it = populateOne cn verb it) ->
  legalKey (Key item) = false ->
  match selector (client w) (Key item) with
  | inr e => onItem item fn w = (Some e, log w (EvPickServer (Key item)))
  | inl addr =>
      match getConn addr (log w (EvPickServer (Key item))) with
      | (inr e, w2) => onItem item fn w = (Some e, w2)
      | (inl cn, w2) => onItem item fn w = (Some ErrMalformedKey, release cn w2)
      end
  end.
Proof.
  intros Hfn Hkey. unfold onItem, PickServer.
  destruct (selector (client w) (Key item)) as [addr|e]; [|reflexivity].
  destruct (getConn addr (log w (EvPickServer (Key item)))) as [[cn|e] w2];
    [|reflexivity].
  rewrite Hfn. unfold populateOne. rewrite Hkey. reflexivity.
Qed.

(** C1, as the code has it: on an illegal key, [Get], [Delete],
    [Increment] and [Decrement] return [ErrMalformedKey] before the
    selector is asked and before any connection is taken or dialed (the
    world is as before).  [Set], [Add] and [CompareAndSwap] check the
    key in [populateOne], after the selector was asked and a connection
    acquired: they return the error of the selector or of [getConn] if
    one fails, and otherwise [ErrMalformedKey], with nothing written to
    the connection, which is released to the pool. *)
Theorem illegal_key_rejected (cap : nat -> nat) (key : string) (w : World) :
  legalKey key = false ->
  Get cap key w = (None, Ret (Some ErrMalformedKey), w) /\
  Delete key w = (Ret (Some ErrMalformedKey), w) /\
  (forall delta,
     Increment key delta w = (0%Z, Ret (Some ErrMalformedKey), w) /\
     Decrement key delta w = (0%Z, Ret (Some ErrMalformedKey), w)) /\
  (forall op item,
     In op [Set_; Add; CompareAndSwap] -> Key item = key ->
     match selector (client w) key with
     | inr e => op item w = (Some e, log w (EvPickServer key))
     | inl addr =>
         match getConn addr (log w (EvPickServer key)) with
         | (inr e, w2) => op item w = (Some e, w2)
         | (inl cn, w2) => op item w = (Some ErrMalformedKey, release cn w2)
         end
     end).
Proof.
  intros Hkey. repeat split.
  - unfold Get, withKeyAddr. rewrite Hkey. reflexivity.
  - unfold Delete, withKeyRw, withKeyAddr. rewrite Hkey. reflexivity.
  - unfold Increment, incrDecr, withKeyRw, withKeyAddr. rewrite Hkey. reflexivity.
  - unfold Decrement, incrDecr, withKeyRw, withKeyAddr. rewrite Hkey. reflexivity.
  - intros op item Hop <-. simpl in Hop.
    destruct Hop as [<-|[<-|[<-|[]]]].
    + apply (onItem_illegal_key set "set"); [reflexivity | exact Hkey].
    + apply (onItem_illegal_key add "add"); [reflexivity | exact Hkey].
    + apply (onItem_illegal_key cas "cas"); [reflexivity | exact Hkey].
Qed.

(** C1, as the claim has it, fails for [Set]: on the illegal key [a b]
    a client without servers returns [ErrNoServers], and a client with
    a server asks the selector and dials before it returns
    [ErrMalformedKey]. *)
Lemma Set_checks_key_after_connecting :
  legalKey (Key item_bad_key) = false /\
  fst (Set_ item_bad_key world_none) = Some ErrNoServers /\
  events (snd (Set_ item_bad_key world_none)) = [EvPickServer "a b"] /\
  fst (Set_ item_bad_key (world_one [])) = Some ErrMalformedKey /\
  events (snd (Set_ item_bad_key (world_one [])))
  = [EvPickServer "a b"; EvDial addr1; EvSetDeadline 0 DefaultTimeout].
Proof. vm_compute. repeat split. Qed.

(** ** The fan-out of [GetMulti] *)

Lemma step_tasks_other cap i j st :
  i <> j -> fo_tasks (step cap j st) !! i = fo_tasks st !! i.
Proof.
  intros Hne. step_cases cap j st Hj; simpl;
    try reflexivity; apply list_lookup_insert_ne; congruence.
Qed.

Lemma step_tasks_length cap j st :
  length (fo_tasks (step cap j st)) = length (fo_tasks st).
Proof.
  step_cases cap j st Hj; simpl; try reflexivity; apply length_insert.
Qed.

Lemma step_done_stable cap i j st t :
  fo_tasks st !! i = Some t -> task_done t ->
  fo_tasks (step cap j st) !! i = Some t.
Proof.
  intros Hi Hdone. destruct (decide (i = j)) as [->|Hne].
  - unfold step. rewrite Hi. destruct Hdone as [-> | ->]; exact Hi.
  - rewrite step_tasks_other by exact Hne. exact Hi.
Qed.

(** What one action makes of the goroutine that takes it. *)
Lemma step_task cap i st t :
  fo_tasks st !! i = Some t ->
  exists t', fo_tasks (step cap i st) !! i = Some t' /\
    match t with
    | TStart _ _ => (exists e, t' = TSend e) \/ (exists cn p r, t' = TDeliver cn p r)
    | TDeliver cn (_ :: p) res => t' = TDeliver cn p res
    | TDeliver cn [] (Ret err) => t' = TSend err
    | TDeliver cn [] Panic => t' = TPanic
    | TSend _ => t' = TDone
    | TDone => t' = TDone
    | TPanic => t' = TPanic
    end.
Proof.
  intros Ht. pose proof (lookup_lt_Some _ _ _ Ht) as Hlt.
  step_cases cap i st Hi; try discriminate Ht; injection Ht as <-; simpl;
    try (eexists; split; [apply list_lookup_insert_eq, Hlt|]);
    try (eexists; split; [exact Hi|]); eauto 6.
Qed.

Lemma iter_step_length cap i n st :
  length (fo_tasks (Nat.iter n (step cap i) st)) = length (fo_tasks st).
Proof.
  induction n as [|n IH]; simpl; [reflexivity|]. now rewrite step_tasks_length.
Qed.

Lemma iter_step_done_stable cap i j n st t :
  fo_tasks st !! i = Some t -> task_done t ->
  fo_tasks (Nat.iter n (step cap j) st) !! i = Some t.
Proof.
  intros Hi Hd. induction n as [|n IH]; simpl; [exact Hi|].
  now apply step_done_stable.
Qed.

Lemma deliver_runs_out cap i pending :
  forall st cn res,
    fo_tasks st !! i = Some (TDeliver cn pending res) ->
    exists t, fo_tasks (Nat.iter (length pending + 2) (step cap i) st) !! i = Some t
              /\ task_done t.
Proof.
  induction pending as [|it pending IH]; intros st cn res Hi.
  - simpl length. simpl Nat.add.
    rewrite Nat.iter_succ_r, Nat.iter_succ_r. simpl Nat.iter.
    destruct (step_task cap i st _ Hi) as (t1 & H1 & Ht1).
    destruct res as [err|]; subst t1.
    + destruct (step_task cap i _ _ H1) as (t2 & H2 & ->).
      exists TDone. split; [exact H2 | now left].
    + destruct (step_task cap i _ _ H1) as (t2 & H2 & ->).
      exists TPanic. split; [exact H2 | now right].
  - simpl length. simpl Nat.add. rewrite Nat.iter_succ_r.
    destruct (step_task cap i st _ Hi) as (t1 & H1 & ->).
    apply (IH _ _ _ H1).
Qed.

Lemma finish_task_done cap st i :
  i < length (fo_tasks st) ->
  exists t, fo_tasks (finish_task cap st i) !! i = Some t /\ task_done t.
Proof.
  intros Hlt. destruct (lookup_lt_is_Some_2 _ _ Hlt) as [t0 Ht0].
  unfold finish_task.
  destruct (step_task cap i st _ Ht0) as (t1 & H1 & Ht1).
  rewrite H1.
  destruct t1 as [addr keys|cn p r|e| |].
  - exfalso. destruct t0 as [? ?|? [|? ?] [?|]|?| |];
      try discriminate; destruct Ht1 as [[? ?]|(? & ? & ? & ?)]; discriminate.
  - apply (deliver_runs_out cap i p _ cn r H1).
  - simpl Nat.iter.
    destruct (step_task cap i _ _ H1) as (t2 & H2 & ->).
    exists TDone. split; [exact H2 | now left].
  - exists TDone. split; [exact H1 | now left].
  - exists TPanic. split; [exact H1 | now right].
Qed.

Lemma finish_task_length cap st i :
  length (fo_tasks (finish_task cap st i)) = length (fo_tasks st).
Proof. unfold finish_task. now rewrite iter_step_length, step_tasks_length. Qed.

Lemma finish_task_done_stable cap st i j t :
  fo_tasks st !! i = Some t -> task_done t ->
  fo_tasks (finish_task cap st j) !! i = Some t.
Proof.
  intros Hi Hd. unfold finish_task.
  apply iter_step_done_stable; [|exact Hd]. now apply step_done_stable.
Qed.

Lemma fold_finish_done cap l :
  forall st i,
    (forall j, j ∈ l -> j < length (fo_tasks st)) ->
    i ∈ l \/ (exists t, fo_tasks st !! i = Some t /\ task_done t) ->
    exists t, fo_tasks (fold_left (finish_task cap) l st) !! i = Some t /\ task_done t.
Proof.
  induction l as [|j l IH]; intros st i Hlen Hi.
  - destruct Hi as [Hi|Hi]; [apply elem_of_nil in Hi; contradiction | exact Hi].
  - simpl. apply IH.
    + intros k Hk. rewrite finish_task_length. apply Hlen. now apply list_elem_of_further.
    + destruct Hi as [Hi|(t & Ht & Hd)].
      * apply elem_of_cons in Hi. destruct Hi as [->|Hi]; [|now left].
        right. apply finish_task_done, Hlen, list_elem_of_here.
      * right. exists t. split; [|exact Hd]. now apply finish_task_done_stable.
Qed.

Lemma fold_finish_length cap l st :
  length (fo_tasks (fold_left (finish_task cap) l st)) = length (fo_tasks st).
Proof.
  revert st. induction l as [|j l IH]; intros st; [reflexivity|].
  simpl. now rewrite IH, finish_task_length.
Qed.

(** After [finish] every goroutine has sent its error, or panicked. *)
Lemma finish_done cap st i t :
  fo_tasks (finish cap st) !! i = Some t -> task_done t.
Proof.
  intros Hi. unfold finish in *.
  assert (Hlt : i < length (fo_tasks st)).
  { apply lookup_lt_Some in Hi. now rewrite fold_finish_length in Hi. }
  destruct (fold_finish_done cap (seq 0 (length (fo_tasks st))) st i) as (t' & Ht' & Hd).
  - intros j Hj. apply list_elem_of_In, in_seq in Hj. lia.
  - left. apply list_elem_of_In, in_seq. lia.
  - rewrite Hi in Ht'. injection Ht' as <-. exact Hd.
Qed.



(** ** A response cut short *)

Lemma getFromAddr_body_parses cap keys cn :
  wfail cn = None ->
  exists cn', rd cn' = rd cn /\
    getFromAddr_body cap keys cn =
    (fst (fst (parseGetResponse cap (rd cn))),
     snd (fst (parseGetResponse cap (rd cn))),
     set_rd cn' (snd (parseGetResponse cap (rd cn)))).
Proof.
  intros Hw. unfold getFromAddr_body.
  destruct (rw_Write_ok cn (bytes "gets " ++ join_keys keys ++ crlf) Hw)
    as (cn1 & -> & Hw1 & Hr1).
  destruct (rw_Flush_ok cn1 Hw1) as (cn2 & -> & Hw2 & Hr2).
  exists cn2. split; [congruence|].
  rewrite Hr2, Hr1. destruct (parseGetResponse cap (rd cn)) as [[got res] r].
  reflexivity.
Qed.

Lemma step_start cap i st addr keys cn w' got res cn' :
  fo_tasks st !! i = Some (TStart addr keys) ->
  getConn addr (fo_world st) = (inl cn, w') ->
  getFromAddr_body cap keys cn = (got, res, cn') ->
  step cap i st
  = mkFanout w' (fo_m st) (<[i := TDeliver cn' got res]> (fo_tasks st))
             (fo_ch st).
Proof. intros H1 H2 H3. unfold step. rewrite H1, H2, H3. reflexivity. Qed.

Lemma parse_truncated cap :
  cap 2 < 1000 ->
  parseGetResponse cap (mkReader (truncated "1000") io_EOF)
  = ([], Panic, mkReader [] io_EOF).
Proof.
  intros Hcap. unfold parseGetResponse.
  eapply parseGetResponse_loop_overrun.
  - vm_compute. reflexivity.
  - vm_compute. reflexivity.
  - vm_compute. reflexivity.
  - vm_compute. reflexivity.
  - vm_compute. reflexivity.
  - simpl length. lia.
Qed.

(** C9 fails on the code.  The response [VALUE k 0 1000 1] CR LF CR LF
    followed by the end of the stream declares 1000 bytes and delivers
    two: [ReadAll] returns the two bytes without an error, they end
    with CR LF, and the truncation to 1000 bytes is out of range as
    soon as the buffer of [ReadAll] holds fewer than 1000 bytes.
    [parseGetResponse] panics, and [Get] and [GetMulti] with it. *)
Theorem truncated_response_panics (cap : nat -> nat) :
  cap 2 < 1000 ->
  let r := mkReader (truncated "1000") io_EOF in
  (exists line r1 it r2,
     ReadSlice r = (line, None, r1) /\
     scanGetResponseLine line newItem = (1000%Z, None, it) /\
     ReadAll_LimitReader r1 (int64 (1000 + 2)) = (crlf, None, r2) /\
     bytes_HasSuffix crlf crlf = true /\
     (Z.of_nat (length crlf) < 1000)%Z) /\
  parseGetResponse cap r = ([], Panic, mkReader [] io_EOF) /\
  snd (fst (Get cap "k" (world_one (truncated "1000")))) = Panic /\
  fst (GetMulti cap ["k"] [] (world_one (truncated "1000"))) = Panic.
Proof.
  intros Hcap r.
  pose proof (parse_truncated cap Hcap) as Hparse. fold r in Hparse.
  set (cn0 := mkConn 0 addr1 r [] [] None).
  destruct (getFromAddr_body_parses cap ["k"] cn0 eq_refl) as (cn' & _ & Hbody).
  simpl rd in Hbody. rewrite Hparse in Hbody. simpl in Hbody.
  split; [|split; [exact Hparse|split]].
  - do 4 eexists. repeat split; vm_compute; reflexivity.
  - unfold Get, withKeyAddr, getFromAddr, withAddrRw.
    change (legalKey "k") with true. simpl negb. cbv iota.
    unfold PickServer, world_one at 1. simpl selector. cbv iota.
    change (getConn addr1 (log (world_one (truncated "1000")) (EvPickServer "k")))
      with (inl (B := error) cn0,
            extendDeadline cn0
              (mkWorld (mkClient 0 (fun _ => inl addr1) None)
                 (server (truncated "1000")) 1 [EvPickServer "k"; EvDial addr1])).
    cbv iota. rewrite Hbody. reflexivity.
  - unfold GetMulti.
    change (partition_keys ["k"] [] (world_one (truncated "1000")))
      with (inl (B := error) [(addr1, ["k"])],
            log (world_one (truncated "1000")) (EvPickServer "k")).
    cbv iota. unfold fanout, run, finish. simpl fold_left.
    unfold finish_task.
    erewrite (step_start cap 0 _ addr1 ["k"] cn0); [|reflexivity|reflexivity|exact Hbody].
    reflexivity.
Qed.

(** ** The public interface stays within the reachable worlds *)

Lemma reachable_log w e : reachable w -> reachable (log w e).
Proof. intros H. eapply reach_keep; [exact H | reflexivity]. Qed.

Lemma reachable_getConn addr w : reachable w -> reachable (snd (getConn addr w)).
Proof.
  intros H. unfold getConn.
  pose proof (reach_get w addr H) as Hget.
  destruct (getFreeConn addr w) as [[cn|] w1]; simpl in Hget.
  - simpl. apply reachable_log, Hget.
  - unfold dial.
    destruct (netDial w1 (ndial w1) addr) as [t|e|[t|]]; simpl;
      eapply reach_keep; try exact Hget; reflexivity.
Qed.

Lemma reachable_condRelease cn err w :
  reachable w -> reachable (condRelease cn err w).
Proof.
  intros H. unfold condRelease, release.
  destruct err as [e|]; [destruct (resumableError e)|];
    try (apply reach_put, H). apply reachable_log, H.
Qed.

Lemma reachable_withAddrRw {A} addr (fn : conn -> A * Res (option error) * conn) a0 w :
  reachable w -> reachable (snd (withAddrRw addr fn a0 w)).
Proof.
  intros H. unfold withAddrRw.
  pose proof (reachable_getConn addr w H) as Hc.
  destruct (getConn addr w) as [[cn|e] w1]; simpl in Hc; [|exact Hc].
  destruct (fn cn) as [[a res] cn']. destruct res as [err|]; cbn [snd];
    apply reachable_condRelease, Hc.
Qed.

Lemma reachable_withKeyAddr {A} key
    (fn : Addr -> World -> A * Res (option error) * World) a0 w :
  (forall addr w', reachable w' -> reachable (snd (fn addr w'))) ->
  reachable w -> reachable (snd (withKeyAddr key fn a0 w)).
Proof.
  intros Hfn H. unfold withKeyAddr, PickServer.
  destruct (negb (legalKey key)); [exact H|].
  destruct (selector (client w) key) as [addr|e]; simpl.
  - apply Hfn, reachable_log, H.
  - apply reachable_log, H.
Qed.

Lemma reachable_onItem item fn w :
  reachable w -> reachable (snd (onItem item fn w)).
Proof.
  intros H. unfold onItem, PickServer.
  destruct (selector (client w) (Key item)) as [addr|e]; simpl;
    [|apply reachable_log, H].
  pose proof (reachable_getConn addr _ (reachable_log w (EvPickServer (Key item)) H)) as Hc.
  destruct (getConn addr (log w (EvPickServer (Key item)))) as [[cn|e] w1];
    simpl in Hc; [|exact Hc].
  destruct (fn cn item) as [err cn']. cbn [snd]. apply reachable_condRelease, Hc.
Qed.

Lemma reachable_step cap i st :
  reachable (fo_world st) -> reachable (fo_world (step cap i st)).
Proof.
  intros H. unfold step.
  destruct (fo_tasks st !! i) as [[addr keys|cn [|it0 pending] [err|]|err| |]|];
    cbn [fo_world]; try exact H; try (apply reachable_condRelease, H).
  pose proof (reachable_getConn addr _ H) as Hc.
  destruct (getConn addr (fo_world st)) as [[cn|e] w1]; cbn [snd] in Hc.
  - destruct (getFromAddr_body cap keys cn) as [[got res] cn']. exact Hc.
  - exact Hc.
Qed.

Lemma reachable_iter_step cap i n st :
  reachable (fo_world st) -> reachable (fo_world (Nat.iter n (step cap i) st)).
Proof.
  intros H. induction n as [|n IH]; simpl; [exact H | apply reachable_step, IH].
Qed.

Lemma reachable_run cap sched st :
  reachable (fo_world st) -> reachable (fo_world (run cap sched st)).
Proof.
  revert st. induction sched as [|i sched IH]; intros st H; [exact H|].
  unfold run in *. simpl. apply IH, reachable_step, H.
Qed.

Lemma reachable_fold_finish cap l st :
  reachable (fo_world st) ->
  reachable (fo_world (fold_left (finish_task cap) l st)).
Proof.
  revert st. induction l as [|i l IH]; intros st H; [exact H|].
  simpl. apply IH. unfold finish_task. apply reachable_iter_step, reachable_step, H.
Qed.

Lemma reachable_partition_keys keys :
  forall keyMap w, reachable w -> reachable (snd (partition_keys keys keyMap w)).
Proof.
  induction keys as [|key keys IH]; intros keyMap w H; simpl; [exact H|].
  destruct (negb (legalKey key)); [exact H|]. unfold PickServer.
  destruct (selector (client w) key) as [addr|e]; cbn [snd].
  - apply IH, reachable_log, H.
  - apply reachable_log, H.
Qed.

Lemma reachable_GetMulti cap keys sched w :
  reachable w -> reachable (snd (GetMulti cap keys sched w)).
Proof.
  intros H. unfold GetMulti.
  pose proof (reachable_partition_keys keys [] w H) as Hp.
  destruct (partition_keys keys [] w) as [[keyMap|e] w1]; cbn [snd] in *; [|exact Hp].
  unfold fanout, finish. apply reachable_fold_finish, reachable_run. exact Hp.
Qed.

(** Every call of the public interface leads from a reachable world to
    a reachable world. *)
Lemma reachable_exec cap c w : reachable w -> reachable (exec cap c w).
Proof.
  intros H. destruct c as [key|keys sched|item|item|item|key|key delta|key delta];
    unfold exec.
  - unfold Get.
    pose proof (reachable_withKeyAddr key (fun addr => getFromAddr cap addr [key]) [] w
                  (fun addr w' Hw' => reachable_withAddrRw addr _ [] w' Hw') H) as Hg.
    destruct (withKeyAddr key _ [] w) as [[got res] w1].
    destruct res as [[e|]|]; destruct (last got); exact Hg.
  - apply reachable_GetMulti, H.
  - apply reachable_onItem, H.
  - apply reachable_onItem, H.
  - apply reachable_onItem, H.
  - unfold Delete, withKeyRw.
    match goal with |- context [withKeyAddr key ?fn tt w] =>
      pose proof (reachable_withKeyAddr key fn tt w
                    (fun addr w' Hw' => reachable_withAddrRw addr _ tt w' Hw') H) as Hg;
      destruct (withKeyAddr key fn tt w) as [[u res] w1] end.
    exact Hg.
  - unfold Increment, incrDecr, withKeyRw.
    apply reachable_withKeyAddr; [|exact H].
    intros addr w' Hw'. apply reachable_withAddrRw, Hw'.
  - unfold Decrement, incrDecr, withKeyRw.
    apply reachable_withKeyAddr; [|exact H].
    intros addr w' Hw'. apply reachable_withAddrRw, Hw'.
Qed.


(** ** The statements at sample inputs *)

Lemma illegal_key_rejected_witness :
  legalKey "a b" = false /\
  Get cap512 "a b" (world_one []) = (None, Ret (Some ErrMalformedKey), world_one []).
Proof.
  split; [reflexivity|].
  exact (proj1 (illegal_key_rejected cap512 "a b" (world_one []) eq_refl)).
Defined.

(** Two servers, one of which answers garbage: the item of the other is
    in the map, with the error. *)
Example GetMulti_partial_failure :
  match fst (GetMulti cap512 ["a"; "b"] [1; 0; 0] world_two) with
  | Ret (Some m, Some (Errorf _ _)) =>
      map_to_list m = [("a", mkItem "a" (bytes "x") 0 0 5)]
  | _ => False
  end.
Proof. vm_compute. reflexivity. Qed.

Lemma pool_bound_witness :
  let w := exec cap512 (CallSet item_foo) (world_one resultStored) in
  reachable w /\ forall a, length (idle w a) <= 2.
Proof.
  intros w.
  assert (Hreach : reachable w).
  { apply reachable_exec, reach_new. reflexivity. }
  split; [exact Hreach|].
  exact (proj1 (pool_bound w addr1 (conn1 7) Hreach)).
Defined.

Lemma pool_lifo_witness :
  let w2 := putFreeConn addr1 (conn1 2) (putFreeConn addr1 (conn1 1) (world_one [])) in
  fst (getFreeConn addr1 w2) = Some (conn1 2) /\
  fst (getFreeConn addr1 (snd (getFreeConn addr1 w2))) = Some (conn1 1).
Proof.
  assert (Hroom : length (idle (world_one []) (AddrString addr1)) + 2
                  <= maxIdleConnsPerAddr).
  { vm_compute. lia. }
  pose proof (pool_lifo (world_one []) addr1 (conn1 1) (conn1 2) Hroom) as H.
  cbv zeta in H. cbv zeta. split; apply H.
Defined.

Lemma truncated_response_panics_witness :
  cap512 2 < 1000 /\
  snd (fst (Get cap512 "k" (world_one (truncated "1000")))) = Panic.
Proof.
  assert (Hcap : cap512 2 < 1000) by (unfold cap512; lia).
  split; [exact Hcap|].
  exact (proj1 (proj2 (proj2 (truncated_response_panics cap512 Hcap)))).
Defined.

(** ** Decimal numbers on the wire *)

Lemma decimal_fold digits : decimal digits = fold_left digit_step digits 0%Z.
Proof. reflexivity. Qed.

Lemma fold_uint_acc d : forall acc,
  fold_left digit_step (bytes (NilEmpty.string_of_uint d)) (Zpos acc)
  = Zpos (Pos.of_uint_acc d acc).
Proof.
  induction d; intros acc; simpl; try reflexivity;
    rewrite <- IHd; f_equal; unfold digit_step; simpl; lia.
Qed.

Lemma fold_uint d :
  fold_left digit_step (bytes (NilEmpty.string_of_uint d)) 0%Z = Z.of_N (Pos.of_uint d).
Proof.
  induction d; simpl; try reflexivity; try exact IHd;
    unfold digit_step at 2; simpl; apply fold_uint_acc.
Qed.

Lemma digits_uint d : forallb isDigit (bytes (NilEmpty.string_of_uint d)) = true.
Proof. induction d; simpl; auto. Qed.

Lemma fmt_d_spec z :
  (0 <= z)%Z ->
  fmt_d z <> [] /\ forallb isDigit (fmt_d z) = true /\ decimal (fmt_d z) = z.
Proof.
  intros Hz. unfold fmt_d. destruct z as [|p|p]; [| |lia].
  - simpl. repeat split. discriminate.
  - simpl Z.to_int. unfold NilZero.string_of_int.
    pose proof (DecimalPos.Unsigned.of_to p) as Hp.
    assert (Hs : NilZero.string_of_uint (Pos.to_uint p) = NilEmpty.string_of_uint (Pos.to_uint p)).
    { destruct (Pos.to_uint p); try reflexivity. discriminate. }
    rewrite Hs.
    assert (Hd : decimal (bytes (NilEmpty.string_of_uint (Pos.to_uint p))) = Zpos p).
    { rewrite decimal_fold, fold_uint, Hp. reflexivity. }
    repeat split.
    + intros E. rewrite E in Hd. discriminate.
    + apply digits_uint.
    + exact Hd.
Qed.

(** The digits of a positive number do not start with a zero, so a
    number below [10 ^ 20] has at most twenty digits. *)
Lemma nzhead_head d :
  match Decimal.nzhead d with Decimal.D0 _ => False | _ => True end.
Proof. induction d; simpl; auto. Qed.

Lemma to_uint_head p :
  match Pos.to_uint p with Decimal.Nil | Decimal.D0 _ => False | _ => True end.
Proof.
  pose proof (DecimalPos.Unsigned.to_of (Pos.to_uint p)) as H.
  rewrite DecimalPos.Unsigned.of_to in H. simpl in H.
  pose proof (DecimalPos.Unsigned.to_uint_nonzero p) as Hnz.
  pose proof (nzhead_head (Pos.to_uint p)) as Hh.
  unfold Decimal.unorm in H.
  destruct (Decimal.nzhead (Pos.to_uint p)) eqn:E; rewrite H in *;
    try exact I; try contradiction.
Qed.

Lemma fold_digits_lower digits :
  forall acc, (1 <= acc)%Z -> forallb isDigit digits = true ->
  (acc * 10 ^ Z.of_nat (length digits) <= fold_left digit_step digits acc)%Z.
Proof.
  induction digits as [|c digits IH]; intros acc Hacc Hd.
  - simpl. lia.
  - simpl in Hd. apply andb_true_iff in Hd. destruct Hd as [Hc Hd].
    cbn [fold_left length]. rewrite Nat2Z.inj_succ, Z.pow_succ_r by lia.
    assert (Hstep : (10 * acc <= digit_step acc c)%Z) by (unfold digit_step; lia).
    specialize (IH (digit_step acc c) ltac:(lia) Hd).
    assert (0 < 10 ^ Z.of_nat (length digits))%Z by (apply Z.pow_pos_nonneg; lia).
    nia.
Qed.

Lemma fmt_d_length z :
  (0 <= z < 10 ^ 20)%Z -> length (fmt_d z) <= 20.
Proof.
  intros Hz. destruct z as [|p|p]; [vm_compute; lia| |lia].
  destruct (fmt_d_spec (Zpos p)) as (_ & Hd & Hv); [lia|].
  unfold fmt_d in *. simpl Z.to_int in *. unfold NilZero.string_of_int in *.
  pose proof (to_uint_head p) as Hh.
  assert (Hs : NilZero.string_of_uint (Pos.to_uint p)
               = NilEmpty.string_of_uint (Pos.to_uint p)).
  { destruct (Pos.to_uint p); try reflexivity. contradiction. }
  rewrite Hs in *.
  assert (Hc : exists c tl,
    bytes (NilEmpty.string_of_uint (Pos.to_uint p)) = c :: tl /\
    (1 <= digit_step 0 c)%Z).
  { destruct (Pos.to_uint p); try contradiction; simpl;
      eexists _, _; (split; [reflexivity | vm_compute; discriminate]). }
  destruct Hc as (c & tl & E & Hc). rewrite E in *.
  simpl in Hd. apply andb_true_iff in Hd. destruct Hd as [_ Hd].
  rewrite decimal_fold in Hv. cbn [fold_left] in Hv.
  pose proof (fold_digits_lower tl (digit_step 0 c) Hc Hd) as Hlow.
  rewrite Hv in Hlow. cbn [length].
  assert (Hpow : (10 ^ Z.of_nat (length tl) < 10 ^ 20)%Z).
  { assert (0 < 10 ^ Z.of_nat (length tl))%Z by (apply Z.pow_pos_nonneg; lia). nia. }
  apply Z.pow_lt_mono_r_iff in Hpow; lia.
Qed.

(** ** Scanning a header line *)

(** ASCII text is its own sequence of runes. *)
Lemma DecodeRune_ascii c p : (code c < 0x80)%Z -> DecodeRune (c :: p) = (code c, 1).
Proof.
  intros H. unfold DecodeRune.
  destruct (Z.ltb_spec (code c) 0x80); [reflexivity | lia].
Qed.

Lemma wordByte_ascii c : wordByte c = true -> (code c < 0x80)%Z.
Proof.
  unfold wordByte. intros H. apply andb_true_iff in H. destruct H as [H _].
  now apply Z.ltb_lt.
Qed.

Lemma wordByte_notSpace c : wordByte c = true -> isSpace (code c) = false.
Proof.
  unfold wordByte. intros H. apply andb_true_iff in H. destruct H as [_ H].
  now apply negb_true_iff.
Qed.

Lemma decode_ascii l : forall fuel,
  length l <= fuel -> (forall c, In c l -> (code c < 0x80)%Z) ->
  decode fuel l = map code l.
Proof.
  induction l as [|c l IH]; intros fuel Hlen Hl.
  - destruct fuel; reflexivity.
  - destruct fuel as [|fuel]; [simpl in Hlen; lia|].
    cbn [decode]. rewrite DecodeRune_ascii by (apply Hl; now left).
    cbn [map]. change (drop 1 (c :: l)) with l.
    f_equal. apply IH; [simpl in Hlen; lia|]. intros x Hx. apply Hl. now right.
Qed.

Lemma runes_ascii l :
  (forall c, In c l -> (code c < 0x80)%Z) -> runes l = map code l.
Proof. intros H. apply decode_ascii; [reflexivity | exact H]. Qed.

Lemma byte_of_code c : byte_of (code c) = c.
Proof. unfold byte_of, code. rewrite Nat2Z.id. apply ascii_nat_embedding. Qed.

Lemma code_nonneg c : (0 <= code c)%Z.
Proof. unfold code. lia. Qed.

Lemma EncodeRune_ascii c : (code c < 0x80)%Z -> EncodeRune (code c) = [c].
Proof.
  intros H. unfold EncodeRune. pose proof (code_nonneg c).
  destruct (Z.leb_spec 0 (code c)); [|lia].
  destruct (Z.leb_spec (code c) 0x7F); [|lia].
  cbn [andb]. now rewrite byte_of_code.
Qed.

Lemma EncodeRunes_ascii l :
  (forall c, In c l -> (code c < 0x80)%Z) -> EncodeRunes (map code l) = l.
Proof.
  unfold EncodeRunes. induction l as [|c l IH]; intros H; [reflexivity|].
  cbn [map concat]. rewrite EncodeRune_ascii by (apply H; now left).
  rewrite IH; [reflexivity|]. intros x Hx. apply H. now right.
Qed.

Lemma isDigit_inDigits c : isDigit c = true -> inDigits (code c) = true.
Proof.
  unfold isDigit, inDigits, code. intros H. apply andb_true_iff in H.
  destruct H as [H1 H2]. apply Nat.leb_le in H1, H2.
  apply andb_true_iff. split; apply Z.leb_le; lia.
Qed.

Lemma isDigit_ascii c : isDigit c = true -> (code c < 0x80)%Z.
Proof.
  unfold isDigit, code. intros H. apply andb_true_iff in H.
  destruct H as [_ H2]. apply Nat.leb_le in H2. lia.
Qed.

Lemma span_runes_stop f a c rest :
  forallb f a = true -> f c = false ->
  span_runes f (a ++ c :: rest) = (a, c :: rest).
Proof.
  intros Ha Hc. induction a as [|x a IH]; simpl in *.
  - now rewrite Hc.
  - apply andb_true_iff in Ha. destruct Ha as [Hx Ha].
    rewrite Hx, (IH Ha). reflexivity.
Qed.

Lemma isSpace_NL r : isSpace r = false -> (r =? NL)%Z = false.
Proof.
  intros H. destruct (Z.eqb_spec r NL) as [->|]; [discriminate | reflexivity].
Qed.

Lemma SkipSpace_token c rest :
  isSpace c = false -> SkipSpace (c :: rest) = Some (c :: rest).
Proof. intros H. simpl. now rewrite (isSpace_NL c H), H. Qed.

Lemma inDigits_notSpace r : inDigits r = true -> isSpace r = false.
Proof.
  unfold inDigits. intros H. apply andb_true_iff in H. destruct H as [H1 H2].
  apply Z.leb_le in H1, H2. unfold isSpace, space. cbn [existsb fst snd].
  repeat match goal with
  | |- context [(?a <=? r)%Z] => destruct (Z.leb_spec a r); try lia
  | |- context [(r <=? ?a)%Z] => destruct (Z.leb_spec r a); try lia
  end; cbn; now rewrite ?andb_false_r.
Qed.

Lemma forallb_map_code (f : rune -> bool) (g : byte -> bool) l :
  (forall c, g c = true -> f (code c) = true) ->
  forallb g l = true -> forallb f (map code l) = true.
Proof.
  intros H. induction l as [|c l IH]; [reflexivity|]. cbn [forallb map].
  intros Hl. apply andb_true_iff in Hl. destruct Hl as [Hc Hl].
  now rewrite (H c Hc), IH.
Qed.

Lemma forallb_ascii (g : byte -> bool) l :
  (forall c, g c = true -> (code c < 0x80)%Z) ->
  forallb g l = true -> forall c, In c l -> (code c < 0x80)%Z.
Proof.
  intros H Hl c Hc. rewrite forallb_forall in Hl. apply H, Hl, Hc.
Qed.

Lemma scanOne_string key c rest :
  key <> [] -> forallb wordByte key = true -> isSpace c = true ->
  scanOne DString (map code key ++ c :: rest) = Some (VString key, c :: rest).
Proof.
  intros Hne Hkey Hc. unfold scanOne.
  destruct key as [|k key]; [contradiction|].
  assert (Hk : isSpace (code k) = false).
  { simpl in Hkey. apply andb_true_iff in Hkey. now apply wordByte_notSpace. }
  cbn [map app]. rewrite SkipSpace_token by exact Hk.
  change (code k :: map code key ++ c :: rest)
    with (map code (k :: key) ++ c :: rest).
  rewrite (span_runes_stop (fun c => negb (isSpace c)) (map code (k :: key)) c rest).
  - rewrite EncodeRunes_ascii; [reflexivity|].
    apply (forallb_ascii wordByte); [apply wordByte_ascii | exact Hkey].
  - apply (forallb_map_code _ wordByte); [|exact Hkey].
    intros x Hx. now rewrite (wordByte_notSpace x Hx).
  - now rewrite Hc.
Qed.

Lemma digits_head digits rest :
  digits <> [] -> forallb isDigit digits = true ->
  exists d tl, map code digits ++ rest = d :: tl /\ inDigits d = true.
Proof.
  intros Hne Hd. destruct digits as [|d digits]; [contradiction|].
  simpl in Hd. apply andb_true_iff in Hd. destruct Hd as [Hd _].
  exists (code d), (map code digits ++ rest). split; [reflexivity|].
  now apply isDigit_inDigits.
Qed.

Lemma scanOne_uint bits z c rest :
  (0 <= z < 2 ^ bits)%Z -> inDigits c = false ->
  scanOne (DUint bits) (map code (fmt_d z) ++ c :: rest) = Some (VNum z, c :: rest).
Proof.
  intros Hz Hc. destruct (fmt_d_spec z) as (Hne & Hd & Hv); [lia|].
  unfold scanOne.
  destruct (digits_head (fmt_d z) (c :: rest) Hne Hd) as (d & tl & E & Hdig).
  rewrite E, (SkipSpace_token d tl (inDigits_notSpace d Hdig)), <- E.
  rewrite (span_runes_stop inDigits _ c rest
             (forallb_map_code _ _ _ isDigit_inDigits Hd) Hc).
  rewrite EncodeRunes_ascii by (apply (forallb_ascii isDigit); [apply isDigit_ascii | exact Hd]).
  destruct (fmt_d z) eqn:F; [contradiction|]. cbn [map]. rewrite Hv.
  destruct (Z.ltb_spec z (2 ^ bits)); [reflexivity | lia].
Qed.

Lemma scanOne_int bits z c rest :
  (0 <= z < 2 ^ (bits - 1))%Z -> inDigits c = false ->
  scanOne (DInt bits) (map code (fmt_d z) ++ c :: rest) = Some (VNum z, c :: rest).
Proof.
  intros Hz Hc. destruct (fmt_d_spec z) as (Hne & Hd & Hv); [lia|].
  unfold scanOne.
  destruct (digits_head (fmt_d z) (c :: rest) Hne Hd) as (d & tl & E & Hdig).
  rewrite E, (SkipSpace_token d tl (inDigits_notSpace d Hdig)).
  assert (Hm : (d =? MINUS)%Z = false).
  { destruct (Z.eqb_spec d MINUS) as [->|]; [discriminate | reflexivity]. }
  assert (Hp : (d =? PLUS)%Z = false).
  { destruct (Z.eqb_spec d PLUS) as [->|]; [discriminate | reflexivity]. }
  rewrite Hm, Hp, <- E.
  rewrite (span_runes_stop inDigits _ c rest
             (forallb_map_code _ _ _ isDigit_inDigits Hd) Hc).
  rewrite EncodeRunes_ascii by (apply (forallb_ascii isDigit); [apply isDigit_ascii | exact Hd]).
  destruct (fmt_d z) eqn:F; [contradiction|]. cbn [map]. rewrite Hv.
  destruct (Z.leb_spec (- 2 ^ (bits - 1)) z); [|lia].
  destruct (Z.ltb_spec z (2 ^ (bits - 1))); [reflexivity | lia].
Qed.

Lemma doScanf_lit n f fmt c input a got :
  isSpace f = false -> (f =? PERCENT)%Z = false -> (c =? f)%Z = true ->
  doScanf (S n) (f :: fmt) (c :: input) a got = doScanf n fmt input a got.
Proof. intros H1 H2 H3. simpl. now rewrite H1, H2, H3. Qed.

Lemma doScanf_verb n v fmt input d a got :
  doScanf (S n) (PERCENT :: v :: fmt) input (d :: a) got =
  match scanOne d input with
  | None => (got, false)
  | Some (x, input) => doScanf n fmt input a (got ++ [x])
  end.
Proof. reflexivity. Qed.

Lemma doScanf_blank n f fmt d tl a got :
  isSpace f = false -> isSpace d = false ->
  doScanf (S n) (32%Z :: f :: fmt) (32%Z :: d :: tl) a got
  = doScanf n (f :: fmt) (d :: tl) a got.
Proof.
  intros Hf Hd. cbn [doScanf]. change (isSpace 32) with true. cbv iota.
  cbn [span_runes]. change (isSpace 32) with true. cbv iota. rewrite Hf.
  unfold matchSpaceRun.
  change (length (filter (fun c => (c =? NL)%Z = true) [32%Z])) with 0.
  change (last [32%Z]) with (Some 32%Z). cbv iota. change (32 =? NL)%Z with false.
  cbn [negb matchNewlines Nat.eqb andb]. change (isSpace 32) with true.
  cbn [negb orb]. cbv iota. cbn [skipBlanks]. change (isSpace 32) with true.
  change (32 =? NL)%Z with false. cbn [negb andb]. cbv iota.
  cbn [skipBlanks]. rewrite Hd. reflexivity.
Qed.

Lemma fmt_d_head z rest :
  (0 <= z)%Z -> exists d tl, map code (fmt_d z) ++ rest = d :: tl /\ isSpace d = false.
Proof.
  intros Hz. destruct (fmt_d_spec z Hz) as (Hne & Hd & _).
  destruct (digits_head (fmt_d z) rest Hne Hd) as (d & tl & E & Hdig).
  exists d, tl. split; [exact E | now apply inDigits_notSpace].
Qed.

Lemma fmt_d_ascii z c : (0 <= z)%Z -> In c (fmt_d z) -> (code c < 0x80)%Z.
Proof.
  intros Hz Hc. destruct (fmt_d_spec z Hz) as (_ & Hd & _).
  apply (forallb_ascii isDigit _ isDigit_ascii Hd c Hc).
Qed.

Lemma Sscanf_value_header key flags size cas :
  key <> [] -> forallb wordByte key = true ->
  (0 <= flags < 2 ^ 32)%Z -> (0 <= size < 2 ^ 63)%Z -> (0 <= cas < 2 ^ 64)%Z ->
  Sscanf (gostring (value_header key flags size cas))
         (String.append "VALUE %s %d %d %d" (gostring crlf))
         [DString; DUint 32; DInt 64; DUint 64]
  = ([VString key; VNum flags; VNum size; VNum cas], true).
Proof.
  intros Hne Hkey Hf Hs Hc.
  unfold Sscanf. cbv zeta.
  set (fmt := runes (bytes _)). vm_compute in fmt. subst fmt.
  set (n := S _). vm_compute in n. subst n.
  unfold bytes, gostring. rewrite list_ascii_of_string_of_list_ascii.
  rewrite runes_ascii.
  2:{ unfold value_header. intros c Hin.
      repeat (apply in_app_or in Hin; destruct Hin as [Hin|Hin]);
        try (apply fmt_d_ascii in Hin; [exact Hin | lia]);
        try (apply (forallb_ascii wordByte _ wordByte_ascii Hkey c Hin));
        simpl in Hin; intuition (subst; reflexivity). }
  unfold value_header. rewrite !map_app.
  change (map code (bytes "VALUE ")) with [86; 65; 76; 85; 69; 32]%Z.
  change (map code [SP]) with [32%Z]. change (map code crlf) with [13; 10]%Z.
  cbn [app].
  do 5 (rewrite doScanf_lit by reflexivity).
  destruct (fmt_d_head flags (32 :: map code (fmt_d size) ++ 32 :: map code (fmt_d cas) ++ [13; 10])%Z)
    as (d1 & t1 & E1 & S1); [lia|].
  destruct (fmt_d_head size (32 :: map code (fmt_d cas) ++ [13; 10])%Z)
    as (d2 & t2 & E2 & S2); [lia|].
  destruct (fmt_d_head cas [13; 10]%Z) as (d3 & t3 & E3 & S3); [lia|].
  destruct key as [|k key]; [contradiction|].
  assert (Hk : isSpace (code k) = false).
  { simpl in Hkey. apply andb_true_iff in Hkey. now apply wordByte_notSpace. }
  cbn [map app]. rewrite (doScanf_blank _ _ _ (code k)) by (reflexivity || exact Hk).
  rewrite doScanf_verb.
  change (code k :: map code key ++ 32%Z :: map code (fmt_d flags) ++ 32%Z ::
            map code (fmt_d size) ++ 32%Z :: map code (fmt_d cas) ++ [13; 10]%Z)
    with (map code (k :: key) ++ 32%Z :: map code (fmt_d flags) ++ 32%Z ::
            map code (fmt_d size) ++ 32%Z :: map code (fmt_d cas) ++ [13; 10]%Z).
  rewrite scanOne_string by (assumption || reflexivity).
  rewrite E1, doScanf_blank by (reflexivity || exact S1).
  rewrite <- E1, doScanf_verb, scanOne_uint by (assumption || reflexivity).
  rewrite E2, doScanf_blank by (reflexivity || exact S2).
  rewrite <- E2, doScanf_verb, scanOne_int by (assumption || reflexivity).
  rewrite E3, doScanf_blank by (reflexivity || exact S3).
  rewrite <- E3, doScanf_verb.
  rewrite scanOne_uint by (assumption || reflexivity).
  reflexivity.
Qed.

(** ** A well-formed response is parsed back *)

Lemma legalKey_bytes key c :
  legalKey key = true -> In c (bytes key) -> 32 < nat_of_ascii c <= 126.
Proof.
  unfold legalKey. destruct (250 <? String.length key); [discriminate|].
  intros H. now apply legalKey_loop_spec.
Qed.

Lemma printable_wordByte c : 32 < nat_of_ascii c <= 126 -> wordByte c = true.
Proof.
  intros H. unfold wordByte, isSpace, space, code. cbn [existsb fst snd].
  apply andb_true_iff. split; [apply Z.ltb_lt; lia|]. apply negb_true_iff.
  repeat match goal with
  | |- context [(?a <=? Z.of_nat ?n)%Z] => destruct (Z.leb_spec a (Z.of_nat n)); try lia
  | |- context [(Z.of_nat ?n <=? ?a)%Z] => destruct (Z.leb_spec (Z.of_nat n) a); try lia
  end; cbn; now rewrite ?andb_false_r.
Qed.

Lemma byte_eqb_neq a b : nat_of_ascii a <> nat_of_ascii b -> byte_eqb a b = false.
Proof.
  intros H. destruct (byte_eqb a b) eqn:E; [|reflexivity].
  apply byte_eqb_spec in E. subst. contradiction.
Qed.

Lemma isDigit_code c : isDigit c = true -> 48 <= nat_of_ascii c <= 57.
Proof.
  unfold isDigit. intros H. apply andb_true_iff in H. destruct H as [H1 H2].
  apply Nat.leb_le in H1, H2. lia.
Qed.

Lemma forallb_In (f : byte -> bool) l :
  (forall c, In c l -> f c = true) -> forallb f l = true.
Proof. intros H. apply forallb_forall, H. Qed.

Lemma legalKey_wordByte key :
  legalKey key = true -> forallb wordByte (bytes key) = true.
Proof.
  intros H. apply forallb_In. intros c Hc. apply printable_wordByte.
  apply (legalKey_bytes key c H Hc).
Qed.

Lemma bytes_Count1_app a b sep :
  bytes_Count1 (a ++ b) sep = bytes_Count1 a sep + bytes_Count1 b sep.
Proof. unfold bytes_Count1. now rewrite filter_app, length_app. Qed.

Lemma bytes_Count1_none l sep :
  (forall c, In c l -> byte_eqb c sep = false) -> bytes_Count1 l sep = 0.
Proof.
  unfold bytes_Count1. induction l as [|x l IH]; intros H; [reflexivity|].
  rewrite filter_cons. destruct (decide (byte_eqb x sep = true)) as [E|E].
  - rewrite (H x (or_introl eq_refl)) in E. discriminate.
  - apply IH. intros c Hc. apply H. now right.
Qed.

Lemma fmt_d_codes z c :
  (0 <= z)%Z -> In c (fmt_d z) -> 48 <= nat_of_ascii c <= 57.
Proof.
  intros Hz Hc. destruct (fmt_d_spec z Hz) as (_ & Hd & _).
  rewrite forallb_forall in Hd. apply isDigit_code, Hd, Hc.
Qed.

(** The bytes of a header before its CR LF are printable or blanks,
    never a line feed; four of them are blanks. *)
Lemma value_header_body key flags size cas c :
  (forall x, In x key -> 32 < nat_of_ascii x <= 126) ->
  (0 <= flags)%Z -> (0 <= size)%Z -> (0 <= cas)%Z ->
  In c (bytes "VALUE " ++ key ++ [SP] ++ fmt_d flags ++ [SP] ++ fmt_d size
        ++ [SP] ++ fmt_d cas) ->
  byte_eqb c LF = false.
Proof.
  intros Hkey Hf Hs Hc Hin.
  apply byte_eqb_neq. change (nat_of_ascii LF) with 10.
  repeat (apply in_app_or in Hin; destruct Hin as [Hin|Hin]);
    try (apply fmt_d_codes in Hin; [lia | assumption]);
    try (apply Hkey in Hin; lia).
  all: simpl in Hin; intuition (subst; vm_compute in *; try discriminate; try lia).
Qed.

Lemma value_header_blanks key flags size cas :
  (forall x, In x key -> 32 < nat_of_ascii x <= 126) ->
  (0 <= flags)%Z -> (0 <= size)%Z -> (0 <= cas)%Z ->
  bytes_Count1 (value_header key flags size cas) SP = 4.
Proof.
  intros Hkey Hf Hs Hc. unfold value_header.
  rewrite !bytes_Count1_app.
  rewrite (bytes_Count1_none key), !(bytes_Count1_none (fmt_d _)).
  - reflexivity.
  - intros c Hin. apply byte_eqb_neq. apply fmt_d_codes in Hin; [|assumption].
    change (nat_of_ascii SP) with 32. lia.
  - intros c Hin. apply byte_eqb_neq. apply fmt_d_codes in Hin; [|assumption].
    change (nat_of_ascii SP) with 32. lia.
  - intros c Hin. apply byte_eqb_neq. apply fmt_d_codes in Hin; [|assumption].
    change (nat_of_ascii SP) with 32. lia.
  - intros c Hin. apply byte_eqb_neq. apply Hkey in Hin.
    change (nat_of_ascii SP) with 32. lia.
Qed.

Lemma index_byte_first c pre rest :
  (forall x, In x pre -> byte_eqb x c = false) ->
  index_byte c (pre ++ c :: rest) = Some (length pre).
Proof.
  induction pre as [|x pre IH]; intros H; simpl.
  - unfold byte_eqb. now rewrite Ascii.eqb_refl.
  - rewrite (H x (or_introl eq_refl)), IH; [reflexivity|].
    intros y Hy. apply H. now right.
Qed.

Lemma index_byte_take c l i n :
  index_byte c l = Some i -> i < n -> index_byte c (take n l) = Some i.
Proof.
  revert i n. induction l as [|x l IH]; intros i n; simpl; [discriminate|].
  destruct n as [|n]; [lia|]. simpl.
  destruct (byte_eqb x c); [intros [= <-] _; reflexivity|].
  destruct (index_byte c l) as [j|] eqn:E; simpl; [|discriminate].
  intros [= <-] Hlt. rewrite (IH j n eq_refl); [reflexivity | lia].
Qed.

(** A line that fits the buffer is read whole. *)
Lemma ReadSlice_line pre rest e :
  (forall x, In x pre -> byte_eqb x LF = false) ->
  S (length pre) <= defaultBufSize ->
  ReadSlice (mkReader (pre ++ LF :: rest) e)
  = (pre ++ [LF], None, mkReader rest e).
Proof.
  intros Hpre Hlen. unfold ReadSlice. cbn [rd_data rd_end].
  rewrite (index_byte_take LF _ (length pre)); [|now apply index_byte_first|lia].
  replace (pre ++ LF :: rest) with ((pre ++ [LF]) ++ rest)
    by (rewrite <- app_assoc; reflexivity).
  replace (S (length pre)) with (length (pre ++ [LF]))
    by (rewrite length_app; simpl; lia).
  rewrite take_app_length, drop_app_length. reflexivity.
Qed.

Lemma int64_small z : (- 2 ^ 63 <= z < 2 ^ 63)%Z -> int64 z = z.
Proof.
  intros H. unfold int64. rewrite Z.mod_small; lia.
Qed.

Lemma ReadAll_LimitReader_exact v rest e :
  (Z.of_nat (length v) < 2 ^ 63)%Z ->
  ReadAll_LimitReader (mkReader (v ++ rest) e) (int64 (Z.of_nat (length v)))
  = (v, None, mkReader rest e).
Proof.
  intros H. rewrite int64_small by lia. unfold ReadAll_LimitReader.
  cbn [rd_data rd_end]. rewrite Nat2Z.id.
  destruct (Nat.leb_spec (length v) (length (v ++ rest))) as [_|Hlt].
  - now rewrite take_app_length, drop_app_length.
  - rewrite length_app in Hlt. lia.
Qed.

Lemma bytes_Equal_refl l : bytes_Equal l l = true.
Proof. now apply bytes_Equal_spec. Qed.

Lemma bytes_HasSuffix_app v suffix : bytes_HasSuffix (v ++ suffix) suffix = true.
Proof.
  unfold bytes_HasSuffix. rewrite length_app.
  destruct (Nat.leb_spec (length suffix) (length v + length suffix)); [|lia].
  replace (length v + length suffix - length suffix) with (length v) by lia.
  rewrite drop_app_length. apply bytes_Equal_refl.
Qed.

Lemma sliceTo_payload cap v :
  sliceTo cap (v ++ crlf) (Z.of_nat (length v)) = Some v.
Proof.
  unfold sliceTo. rewrite length_app. change (length crlf) with 2.
  destruct (Z.leb_spec 0 (Z.of_nat (length v))); [|lia].
  destruct (Z.leb_spec (Z.of_nat (length v))
              (Z.of_nat (Nat.max (length v + 2) (cap (length v + 2))))); [|lia].
  cbn [andb]. rewrite Nat2Z.id, <- app_assoc, take_app_length. reflexivity.
Qed.

Lemma scan_value_header key flags size cas :
  legalKey key = true -> key <> "" ->
  (0 <= flags < 2 ^ 32)%Z -> (0 <= size < 2 ^ 63)%Z -> (0 <= cas < 2 ^ 64)%Z ->
  scanGetResponseLine (value_header (bytes key) flags size cas) newItem
  = (size, None, mkItem key [] flags 0 cas).
Proof.
  intros Hkey Hne Hf Hs Hc. unfold scanGetResponseLine.
  rewrite value_header_blanks; try lia;
    [|intros x Hx; apply (legalKey_bytes key x Hkey Hx)].
  change (4 =? 3) with false. cbv iota.
  rewrite Sscanf_value_header; try assumption.
  - cbn. unfold gostring, bytes. rewrite string_of_list_ascii_of_string. reflexivity.
  - destruct key; [contradiction | discriminate].
  - now apply legalKey_wordByte.
Qed.

Lemma value_header_split key flags size cas :
  value_header key flags size cas
  = ((bytes "VALUE " ++ key ++ [SP] ++ fmt_d flags ++ [SP] ++ fmt_d size
      ++ [SP] ++ fmt_d cas) ++ [CR]) ++ [LF].
Proof. unfold value_header, crlf. now rewrite <- !app_assoc. Qed.

Lemma ReadSlice_value_header key flags size cas rest e :
  (forall x, In x key -> 32 < nat_of_ascii x <= 126) ->
  (0 <= flags)%Z -> (0 <= size)%Z -> (0 <= cas)%Z ->
  length (value_header key flags size cas) <= defaultBufSize ->
  ReadSlice (mkReader (value_header key flags size cas ++ rest) e)
  = (value_header key flags size cas, None, mkReader rest e).
Proof.
  intros Hkey Hf Hs Hc Hlen.
  pose proof (value_header_body key flags size cas) as Hbody.
  rewrite value_header_split in Hlen |- *.
  set (body := bytes "VALUE " ++ key ++ [SP] ++ fmt_d flags ++ [SP] ++ fmt_d size
               ++ [SP] ++ fmt_d cas) in *.
  rewrite <- (app_assoc (body ++ [CR]) [LF] rest).
  change ([LF] ++ rest) with (LF :: rest).
  apply ReadSlice_line.
  - intros x Hx. apply in_app_or in Hx. destruct Hx as [Hx|Hx].
    + apply Hbody; assumption.
    + destruct Hx as [<-|[]]. reflexivity.
  - rewrite length_app in Hlen. change (length [LF]) with 1 in Hlen. lia.
Qed.

Lemma bytes_length key : length (bytes key) = String.length key.
Proof. induction key as [|c key IH]; simpl; [reflexivity | now rewrite IH]. Qed.

Lemma legalKey_length key : legalKey key = true -> String.length key <= 250.
Proof.
  unfold legalKey. destruct (Nat.ltb_spec 250 (String.length key));
    [discriminate | lia].
Qed.

(** The header of an item a server can send fits the reader's buffer. *)
Lemma value_header_fits key flags size cas :
  legalKey key = true ->
  (0 <= flags < 2 ^ 32)%Z -> (0 <= size < 2 ^ 63)%Z -> (0 <= cas < 2 ^ 64)%Z ->
  length (value_header (bytes key) flags size cas) <= defaultBufSize.
Proof.
  intros Hkey Hf Hs Hc. unfold value_header.
  rewrite !length_app, (bytes_length key).
  pose proof (legalKey_length key Hkey).
  pose proof (fmt_d_length flags ltac:(lia)).
  pose proof (fmt_d_length size ltac:(lia)).
  pose proof (fmt_d_length cas ltac:(lia)).
  change (length (bytes "VALUE ")) with 6. change (length [SP]) with 1.
  change (length crlf) with 2. unfold defaultBufSize. lia.
Qed.

Lemma parse_value_record cap it rest e got :
  wire_item it ->
  parseGetResponse_loop cap (S (length (value_record it ++ rest)))
    (mkReader (value_record it ++ rest) e) got
  = parseGetResponse_loop cap (S (length rest)) (mkReader rest e)
      (got ++ [received it]).
Proof.
  intros (Hkey & Hne & Hf & Hc & Hv).
  assert (Hlen := value_header_fits (Key it) (Flags it)
                    (Z.of_nat (length (Value it))) (casid it)
                    Hkey Hf ltac:(lia) Hc).
  set (size := Z.of_nat (length (Value it))) in *.
  set (header := value_header (bytes (Key it)) (Flags it) size (casid it)) in *.
  assert (Hbytes : forall x, In x (bytes (Key it)) -> 32 < nat_of_ascii x <= 126).
  { intros x Hx. apply (legalKey_bytes (Key it) x Hkey Hx). }
  assert (Hsplit : value_record it ++ rest
                   = header ++ (Value it ++ crlf) ++ rest).
  { unfold value_record. fold size. fold header. now rewrite <- !app_assoc. }
  rewrite Hsplit.
  apply (parseGetResponse_loop_next cap
           (mkReader (header ++ (Value it ++ crlf) ++ rest) e) got header
           (mkReader ((Value it ++ crlf) ++ rest) e) size
           (mkItem (Key it) [] (Flags it) 0 (casid it))
           (Value it ++ crlf) (mkReader rest e) (Value it)).
  - apply ReadSlice_value_header; try assumption; unfold size; lia.
  - unfold header, value_header. reflexivity.
  - apply scan_value_header; try assumption. unfold size. lia.
  - replace (size + 2)%Z with (Z.of_nat (length (Value it ++ crlf))).
    + apply ReadAll_LimitReader_exact. rewrite length_app. simpl length. lia.
    + rewrite length_app. simpl length. unfold size. lia.
  - apply bytes_HasSuffix_app.
  - apply sliceTo_payload.
Qed.

Lemma ReadSlice_END rest e :
  ReadSlice (mkReader (resultEnd ++ rest) e) = (resultEnd, None, mkReader rest e).
Proof.
  change (resultEnd ++ rest) with ((bytes "END" ++ [CR]) ++ LF :: rest).
  change resultEnd with ((bytes "END" ++ [CR]) ++ [LF]).
  apply ReadSlice_line.
  - intros x Hx. simpl in Hx.
    destruct Hx as [<-|[<-|[<-|[<-|[]]]]]; reflexivity.
  - change (length (bytes "END" ++ [CR])) with 4. unfold defaultBufSize. lia.
Qed.

Lemma parse_value_records cap items :
  forall rest e got,
    Forall wire_item items ->
    parseGetResponse_loop cap
      (S (length (concat (map value_record items) ++ resultEnd ++ rest)))
      (mkReader (concat (map value_record items) ++ resultEnd ++ rest) e) got
    = (got ++ map received items, Ret None, mkReader rest e).
Proof.
  induction items as [|it items IH]; intros rest e got Hall.
  - change (concat (map value_record [])) with (@nil byte).
    change ([] ++ resultEnd ++ rest) with (resultEnd ++ rest).
    change (map received []) with (@nil Item). rewrite app_nil_r.
    generalize (length (resultEnd ++ rest)). intros n.
    cbn [parseGetResponse_loop]. rewrite ReadSlice_END.
    rewrite bytes_Equal_refl. reflexivity.
  - inversion Hall as [|? ? Hit Hrest]; subst.
    change (concat (map value_record (it :: items)))
      with (value_record it ++ concat (map value_record items)).
    change (map received (it :: items)) with (received it :: map received items).
    rewrite <- (app_assoc (value_record it)).
    rewrite (parse_value_record cap it _ e got Hit).
    rewrite (IH rest e (got ++ [received it]) Hrest).
    now rewrite <- app_assoc.
Qed.

(** X1: A response made of the records of items a server can send,
    followed by [END], is parsed back: [cb] receives exactly these
    items, in order, the result is nil, and the reader is left right
    after [END]. *)
Theorem parseGetResponse_roundtrip
    (cap : nat -> nat) (items : list Item) (rest : list byte) (e : error) :
  Forall wire_item items ->
  parseGetResponse cap
    (mkReader (concat (map value_record items) ++ resultEnd ++ rest) e)
  = (map received items, Ret None, mkReader rest e).
Proof.
  intros Hall. unfold parseGetResponse. cbn [rd_data].
  now rewrite (parse_value_records cap items rest e [] Hall).
Qed.

(** ** The exchanges keep the connection they run on *)

Lemma rw_Write_same cn p :
  cid (snd (rw_Write cn p)) = cid cn /\ caddr (snd (rw_Write cn p)) = caddr cn.
Proof.
  unfold rw_Write. destruct (length (wbuf cn) + length p <=? defaultBufSize);
    [split; reflexivity|]. destruct (wfail cn); split; reflexivity.
Qed.

Lemma rw_Flush_same cn :
  cid (snd (rw_Flush cn)) = cid cn /\ caddr (snd (rw_Flush cn)) = caddr cn.
Proof. unfold rw_Flush. destruct (wfail cn); split; reflexivity. Qed.

Lemma rw_ReadSlice_same cn :
  cid (snd (rw_ReadSlice cn)) = cid cn /\ caddr (snd (rw_ReadSlice cn)) = caddr cn.
Proof.
  unfold rw_ReadSlice. destruct (ReadSlice (rd cn)) as [[line err] r].
  split; reflexivity.
Qed.

Lemma getFromAddr_body_same cap keys cn :
  cid (snd (getFromAddr_body cap keys cn)) = cid cn /\
  caddr (snd (getFromAddr_body cap keys cn)) = caddr cn.
Proof.
  unfold getFromAddr_body.
  pose proof (rw_Write_same cn (bytes "gets " ++ join_keys keys ++ crlf)) as [H1 H1'].
  destruct (rw_Write cn _) as [[e|] cn1]; cbn [snd] in *; [now split|].
  pose proof (rw_Flush_same cn1) as [H2 H2'].
  destruct (rw_Flush cn1) as [[e|] cn2]; cbn [snd] in *; [split; congruence|].
  destruct (parseGetResponse cap (rd cn2)) as [[got res] r]. cbn [snd].
  split; simpl; congruence.
Qed.

(** ** [Get] on a well-formed response *)

Lemma getFromAddr_body_request cap keys cn :
  wfail cn = None ->
  exists cn',
    getFromAddr_body cap keys cn =
    (fst (fst (parseGetResponse cap (rd cn))),
     snd (fst (parseGetResponse cap (rd cn))),
     set_rd cn' (snd (parseGetResponse cap (rd cn)))) /\
    cid cn' = cid cn /\ caddr cn' = caddr cn /\ wbuf cn' = [] /\ wfail cn' = None /\
    sent cn' = sent cn ++ wbuf cn ++ bytes "gets " ++ join_keys keys ++ crlf.
Proof.
  intros Hw. unfold getFromAddr_body, rw_Write.
  set (req := bytes "gets " ++ join_keys keys ++ crlf).
  destruct (length (wbuf cn) + length req <=? defaultBufSize).
  - unfold rw_Flush. cbn [wfail]. rewrite Hw. cbn [rd].
    eexists. split.
    + destruct (parseGetResponse cap (rd cn)) as [[got res] r]. reflexivity.
    + cbn. repeat split; try now rewrite <- app_assoc.
  - rewrite Hw. unfold rw_Flush. cbn [wfail rd].
    eexists. split.
    + destruct (parseGetResponse cap (rd cn)) as [[got res] r]. reflexivity.
    + cbn. repeat split; try now rewrite app_nil_r.
Qed.

(** X3: [Get] over a connection whose server answers with the records of
    items and [END]: the request [gets key] is all that is sent, the
    item returned is the last record (a cache miss when there is none),
    and the connection goes back to the pool with its reader right
    after [END]. *)
Theorem Get_wellformed_response
    (cap : nat -> nat) (key : string) (w w2 : World) (addr : Addr) (cn : conn)
    (items : list Item) (rest : list byte) (e : error) :
  legalKey key = true ->
  selector (client w) key = inl addr ->
  getConn addr (log w (EvPickServer key)) = (inl cn, w2) ->
  wfail cn = None ->
  rd cn = mkReader (concat (map value_record items) ++ resultEnd ++ rest) e ->
  Forall wire_item items ->
  exists cn',
    Get cap key w
    = (last (map received items),
       Ret (match items with [] => Some ErrCacheMiss | _ => None end),
       release cn' w2) /\
    rd cn' = mkReader rest e /\ cid cn' = cid cn /\ caddr cn' = caddr cn /\
    wbuf cn' = [] /\
    sent cn' = sent cn ++ wbuf cn ++ bytes "gets " ++ bytes key ++ crlf.
Proof.
  intros Hkey Hsel Hconn Hw Hrd Hall.
  destruct (getFromAddr_body_request cap [key] cn Hw)
    as (cn1 & Hbody & Hid & Haddr & Hbuf & _ & Hsent).
  assert (Hparse : parseGetResponse cap
            (mkReader (concat (map value_record items) ++ resultEnd ++ rest) e)
          = (map received items, Ret None, mkReader rest e)).
  { unfold parseGetResponse. cbn [rd_data].
    now rewrite (parse_value_records cap items rest e [] Hall). }
  rewrite Hrd, Hparse in Hbody.
  cbn [fst snd] in Hbody.
  exists (set_rd cn1 (mkReader rest e)). split; [|now repeat split].
  unfold Get, withKeyAddr, PickServer. rewrite Hkey. cbn [negb]. rewrite Hsel.
  unfold getFromAddr, withAddrRw. rewrite Hconn, Hbody.
  destruct items as [|it items]; [reflexivity|].
  destruct (last (map received (it :: items))) eqn:Hlast; [reflexivity|].
  apply last_None in Hlast. discriminate.
Qed.

(** ** One-line exchanges: [Delete], [Increment], [Decrement] *)

Lemma writeReadLine_request cn req :
  wfail cn = None ->
  exists cn',
    writeReadLine cn req =
    (fst (fst (ReadSlice (rd cn))), snd (fst (ReadSlice (rd cn))),
     set_rd cn' (snd (ReadSlice (rd cn)))) /\
    cid cn' = cid cn /\ caddr cn' = caddr cn /\ wbuf cn' = [] /\
    sent cn' = sent cn ++ wbuf cn ++ req.
Proof.
  intros Hw. unfold writeReadLine, rw_Write.
  destruct (length (wbuf cn) + length req <=? defaultBufSize).
  - unfold rw_Flush, rw_ReadSlice. cbn [wfail]. rewrite Hw. cbn [rd].
    eexists. split.
    + destruct (ReadSlice (rd cn)) as [[line err] r]. reflexivity.
    + cbn. repeat split; try now rewrite <- app_assoc.
  - rewrite Hw. unfold rw_Flush, rw_ReadSlice. cbn [wfail rd].
    eexists. split.
    + destruct (ReadSlice (rd cn)) as [[line err] r]. reflexivity.
    + cbn. repeat split; try now rewrite app_nil_r.
Qed.

Lemma ReadSlice_shape r line r' :
  ReadSlice r = (line, None, r') ->
  exists pre, line = pre ++ [LF] /\ rd_data r = line ++ rd_data r' /\
              rd_end r' = rd_end r.
Proof.
  unfold ReadSlice.
  destruct (index_byte LF (take defaultBufSize (rd_data r))) as [i|] eqn:Hi.
  - intros [= <- <-]. cbn [rd_data rd_end].
    assert (Hat : forall l j, index_byte LF l = Some j -> take (S j) l = take j l ++ [LF]).
    { induction l as [|x l IH]; intros j; simpl; [discriminate|].
      destruct (byte_eqb x LF) eqn:E.
      - intros [= <-]. apply byte_eqb_spec in E. now subst.
      - destruct (index_byte LF l) as [k|]; simpl; [|discriminate].
        intros [= <-]. simpl. now rewrite (IH k eq_refl). }
    assert (Hfull : index_byte LF (rd_data r) = Some i).
    { revert i Hi. generalize defaultBufSize. generalize (rd_data r). clear.
      induction l as [|x l IH]; intros n i; destruct n as [|n]; simpl;
        try discriminate.
      destruct (byte_eqb x LF); [auto|].
      destruct (index_byte LF (take n l)) as [k|] eqn:E; simpl; [|discriminate].
      intros [= <-]. now rewrite (IH n k E). }
    exists (take i (rd_data r)). repeat split.
    + now apply Hat.
    + now rewrite take_drop.
  - destruct (defaultBufSize <=? length (rd_data r)); discriminate.
Qed.

Lemma bytes_HasPrefix_spec s prefix :
  bytes_HasPrefix s prefix = true <-> exists tl, s = prefix ++ tl.
Proof.
  revert s. induction prefix as [|p prefix IH]; intros s.
  - split; [intros _; now exists s | intros _; destruct s; reflexivity].
  - destruct s as [|x s]; simpl.
    + split; [discriminate | intros [tl H]; discriminate].
    + rewrite andb_true_iff, byte_eqb_spec, IH. split.
      * intros [-> [tl ->]]. now exists tl.
      * intros [tl H]. injection H as -> ->. split; [reflexivity | now exists tl].
Qed.

Lemma subslice_None line lo hi :
  subslice line lo hi = None <->
  ~ (0 <= lo /\ lo <= hi /\ hi <= Z.of_nat (length line))%Z.
Proof.
  unfold subslice.
  destruct (Z.leb_spec 0 lo); destruct (Z.leb_spec lo hi);
    destruct (Z.leb_spec hi (Z.of_nat (length line))); cbn;
    split; try discriminate; try lia; try reflexivity.
Qed.

Lemma incrDecr_body_line verb key delta cn line r' :
  wfail cn = None ->
  ReadSlice (rd cn) = (line, None, r') ->
  snd (fst (incrDecr_body verb key delta cn)) =
  if bytes_Equal line resultNotFound then Ret (Some ErrCacheMiss)
  else if bytes_HasPrefix line resultClientErrorPrefix then
    match subslice line 13 (Z.of_nat (length line) - 2) with
    | None => Panic
    | Some errMsg => Ret (Some (Errorf "memcache: client error: %s" [errMsg]))
    end
  else
    match subslice line 0 (Z.of_nat (length line) - 2) with
    | None => Panic
    | Some digits => Ret (snd (ParseUint64 digits))
    end.
Proof.
  intros Hw Hread. unfold incrDecr_body.
  destruct (writeReadLine_request cn
              (bytes verb ++ [SP] ++ bytes key ++ [SP] ++ fmt_d delta ++ crlf) Hw)
    as (cn1 & -> & _). rewrite Hread. cbn [fst snd].
  destruct (bytes_Equal line resultNotFound); [reflexivity|].
  destruct (bytes_HasPrefix line resultClientErrorPrefix).
  - change (Z.of_nat (length resultClientErrorPrefix)) with 13%Z.
    destruct (subslice line 13 _); reflexivity.
  - destruct (subslice line 0 _); [|reflexivity].
    destruct (ParseUint64 l). reflexivity.
Qed.

(** X7: [Increment] and [Decrement] panic on exactly two response lines: a
    bare line feed, and [CLIENT_ERROR ] followed at once by a line feed;
    on every other line that is read they return. *)
Theorem incrDecr_panics_iff
    (verb key : string) (delta : Z) (cn : conn) (line : list byte) (r' : Reader) :
  wfail cn = None ->
  ReadSlice (rd cn) = (line, None, r') ->
  (snd (fst (incrDecr_body verb key delta cn)) = Panic <->
   line = [LF] \/ line = resultClientErrorPrefix ++ [LF]).
Proof.
  intros Hw Hread. rewrite (incrDecr_body_line verb key delta cn line r' Hw Hread).
  destruct (ReadSlice_shape _ _ _ Hread) as (pre & Hline & _).
  assert (Hlen : length line = S (length pre)).
  { rewrite Hline, length_app. simpl. lia. }
  split.
  - destruct (bytes_Equal line resultNotFound); [discriminate|].
    destruct (bytes_HasPrefix line resultClientErrorPrefix) eqn:Epre.
    + destruct (subslice line 13 _) eqn:Es; [discriminate|]. intros _.
      apply subslice_None in Es.
      apply bytes_HasPrefix_spec in Epre. destruct Epre as [tl Htl].
      right. rewrite Htl. f_equal.
      assert (Htll : length tl <= 1).
      { apply (f_equal (@length byte)) in Htl. rewrite length_app in Htl.
        change (length resultClientErrorPrefix) with 13 in Htl. lia. }
      destruct tl as [|t [|t' tl]]; [| |simpl in Htll; lia].
      * exfalso. rewrite app_nil_r, Hline in Htl.
        apply (f_equal (@List.rev byte)) in Htl. rewrite rev_app_distr in Htl.
        discriminate.
      * rewrite Hline in Htl.
        apply (f_equal (@List.rev byte)) in Htl. rewrite !rev_app_distr in Htl.
        simpl in Htl. injection Htl as <- _. reflexivity.
    + destruct (subslice line 0 _) eqn:Es; [discriminate|]. intros _.
      apply subslice_None in Es. left.
      assert (length pre = 0) by lia.
      destruct pre; [exact Hline | discriminate].
  - intros [-> | ->]; reflexivity.
Qed.

Lemma withKeyRw_conn {A} key (fn : conn -> A * Res (option error) * conn) a0
    w addr cn w2 :
  legalKey key = true ->
  selector (client w) key = inl addr ->
  getConn addr (log w (EvPickServer key)) = (inl cn, w2) ->
  withKeyRw key fn a0 w =
  (fst (fst (fn cn)), snd (fst (fn cn)),
   condRelease (snd (fn cn))
     (match snd (fst (fn cn)) with Ret err => err | Panic => None end) w2).
Proof.
  intros Hkey Hsel Hconn.
  unfold withKeyRw, withKeyAddr, PickServer, withAddrRw.
  rewrite Hkey. cbn [negb]. rewrite Hsel, Hconn.
  destruct (fn cn) as [[a res] cn']. destruct res; reflexivity.
Qed.

Lemma digit_not_Equal d tl c l :
  isDigit d = true -> isDigit c = false -> bytes_Equal (d :: tl) (c :: l) = false.
Proof.
  intros Hd Hc. simpl. destruct (byte_eqb d c) eqn:E; [|reflexivity].
  apply byte_eqb_spec in E. subst. congruence.
Qed.

Lemma digit_not_HasPrefix d tl c l :
  isDigit d = true -> isDigit c = false -> bytes_HasPrefix (d :: tl) (c :: l) = false.
Proof.
  intros Hd Hc. simpl. destruct (byte_eqb c d) eqn:E; [|reflexivity].
  apply byte_eqb_spec in E. subst. congruence.
Qed.

Lemma fold_digits_ge digits :
  forall acc, (0 <= acc)%Z -> (acc <= fold_left digit_step digits acc)%Z.
Proof.
  induction digits as [|c digits IH]; intros acc Hacc; [simpl; lia|].
  cbn [fold_left].
  assert (Hstep : (acc <= digit_step acc c)%Z) by (unfold digit_step; lia).
  specialize (IH (digit_step acc c) ltac:(lia)). lia.
Qed.

(** A string of digits whose value is in range is converted without an
    error, digit by digit. *)
Lemma ParseUint64_loop_digits digits :
  forall acc, (0 <= acc)%Z -> forallb isDigit digits = true ->
  (fold_left digit_step digits acc < 2 ^ 64)%Z ->
  ParseUint64_loop digits acc = (fold_left digit_step digits acc, None).
Proof.
  induction digits as [|c digits IH]; intros acc Hacc Hd Hv; [reflexivity|].
  cbn [forallb] in Hd. apply andb_true_iff in Hd. destruct Hd as [Hc Hd].
  cbn [fold_left] in Hv |- *. cbn [ParseUint64_loop]. rewrite Hc. cbn [negb].
  fold (digit_step acc c).
  assert (Hstep : (10 * acc <= digit_step acc c)%Z) by (unfold digit_step; lia).
  pose proof (fold_digits_ge digits (digit_step acc c) ltac:(lia)) as Hge.
  change (maxUint64 / 10 + 1)%Z with 1844674407370955162%Z.
  change maxUint64 with 18446744073709551615%Z.
  change (2 ^ 64)%Z with 18446744073709551616%Z in Hv.
  destruct (Z.leb_spec 1844674407370955162 acc); [lia|].
  destruct (Z.ltb_spec 18446744073709551615 (digit_step acc c)); [lia|].
  apply IH; [lia | exact Hd | exact Hv].
Qed.

Lemma ParseUint64_fmt_d n :
  (0 <= n < 2 ^ 64)%Z -> ParseUint64 (fmt_d n) = (n, None).
Proof.
  intros Hn. destruct (fmt_d_spec n) as (Hne & Hd & Hv); [lia|].
  unfold ParseUint64. destruct (fmt_d n) eqn:E; [contradiction|].
  rewrite decimal_fold in Hv.
  rewrite ParseUint64_loop_digits; [now rewrite Hv | lia | exact Hd | rewrite Hv; lia].
Qed.

Lemma ReadSlice_number n rest e :
  (0 <= n < 2 ^ 64)%Z ->
  ReadSlice (mkReader (fmt_d n ++ crlf ++ rest) e)
  = (fmt_d n ++ crlf, None, mkReader rest e).
Proof.
  intros Hn.
  replace (fmt_d n ++ crlf ++ rest) with ((fmt_d n ++ [CR]) ++ LF :: rest)
    by (rewrite <- app_assoc; reflexivity).
  replace (fmt_d n ++ crlf) with ((fmt_d n ++ [CR]) ++ [LF])
    by (rewrite <- app_assoc; reflexivity).
  apply ReadSlice_line.
  - intros x Hx. apply in_app_or in Hx. destruct Hx as [Hx|[<-|[]]]; [|reflexivity].
    apply byte_eqb_neq. apply fmt_d_codes in Hx; [|lia].
    change (nat_of_ascii LF) with 10. lia.
  - rewrite length_app. change (length [CR]) with 1.
    pose proof (fmt_d_length n ltac:(lia)). unfold defaultBufSize. lia.
Qed.

(** X6: [Increment] and [Decrement] read back the number the server
    prints: when the response is the decimal form of a 64-bit unsigned
    [n], the operation returns [n] with a nil error, has sent exactly
    its request line, and returns the connection to the pool with the
    reader right after the line. *)
Theorem incrDecr_roundtrip
    (verb key : string) (delta n : Z) (w w2 : World) (addr : Addr) (cn : conn)
    (rest : list byte) (e : error) :
  legalKey key = true ->
  selector (client w) key = inl addr ->
  getConn addr (log w (EvPickServer key)) = (inl cn, w2) ->
  wfail cn = None ->
  rd cn = mkReader (fmt_d n ++ crlf ++ rest) e ->
  (0 <= n < 2 ^ 64)%Z ->
  exists cn',
    incrDecr verb key delta w = (n, Ret None, release cn' w2) /\
    rd cn' = mkReader rest e /\ cid cn' = cid cn /\ caddr cn' = caddr cn /\
    sent cn' = sent cn ++ wbuf cn ++ bytes verb ++ [SP] ++ bytes key ++ [SP]
               ++ fmt_d delta ++ crlf.
Proof.
  intros Hkey Hsel Hconn Hw Hrd Hn.
  set (req := bytes verb ++ [SP] ++ bytes key ++ [SP] ++ fmt_d delta ++ crlf).
  destruct (writeReadLine_request cn req Hw) as (cn1 & Hwr & Hid & Haddr & _ & Hsent).
  rewrite Hrd, (ReadSlice_number n rest e Hn) in Hwr. cbn [fst snd] in Hwr.
  assert (Hbody : incrDecr_body verb key delta cn
                  = (n, Ret None, set_rd cn1 (mkReader rest e))).
  { unfold incrDecr_body. fold req. rewrite Hwr.
    destruct (fmt_d_spec n) as (Hne & Hd & _); [lia|].
    destruct (fmt_d n) as [|d tl] eqn:E; [contradiction|].
    simpl in Hd. apply andb_true_iff in Hd. destruct Hd as [Hd _].
    cbn [app]. unfold resultNotFound, resultClientErrorPrefix.
    cbn [bytes list_ascii_of_string app].
    rewrite digit_not_Equal, digit_not_HasPrefix by (assumption || reflexivity).
    change (d :: tl ++ crlf) with ((d :: tl) ++ crlf). rewrite <- E.
    unfold subslice. rewrite length_app. change (length crlf) with 2.
    destruct (Z.leb_spec 0 (Z.of_nat (length (fmt_d n) + 2) - 2)); [|lia].
    destruct (Z.leb_spec (Z.of_nat (length (fmt_d n) + 2) - 2)
                (Z.of_nat (length (fmt_d n) + 2))); [|lia].
    change ((0 <=? 0)%Z && true && true) with true.
    change (Z.to_nat 0) with 0. cbv iota. rewrite drop_0.
    replace (Z.to_nat (Z.of_nat (length (fmt_d n) + 2) - 2) - 0)
      with (length (fmt_d n)) by lia.
    rewrite take_app_length, (ParseUint64_fmt_d n Hn). reflexivity. }
  exists (set_rd cn1 (mkReader rest e)). split; [|now repeat split].
  unfold incrDecr.
  rewrite (withKeyRw_conn key _ 0%Z w addr cn w2 Hkey Hsel Hconn), Hbody.
  reflexivity.
Qed.

(** X5: [Delete] sends its request line and classifies the line it reads:
    [DELETED] is success, [NOT_FOUND] a cache miss, [NOT_STORED] and
    [EXISTS] their errors; after these the connection goes back to the
    pool.  Any other line is an error made from the line, and the
    transport is closed. *)
Theorem Delete_response
    (key : string) (w w2 : World) (addr : Addr) (cn : conn)
    (line : list byte) (r' : Reader) :
  legalKey key = true ->
  selector (client w) key = inl addr ->
  getConn addr (log w (EvPickServer key)) = (inl cn, w2) ->
  wfail cn = None ->
  ReadSlice (rd cn) = (line, None, r') ->
  exists cn' err,
    Delete key w = (Ret err, condRelease cn' err w2) /\
    rd cn' = r' /\ cid cn' = cid cn /\ caddr cn' = caddr cn /\
    sent cn' = sent cn ++ wbuf cn ++ bytes "delete " ++ bytes key ++ crlf /\
    (line = resultDeleted -> err = None) /\
    (line = resultNotFound -> err = Some ErrCacheMiss) /\
    (line = resultNotStored -> err = Some ErrNotStored) /\
    (line = resultExists -> err = Some ErrCASConflict) /\
    (In line [resultDeleted; resultNotFound; resultNotStored; resultExists] ->
     condRelease cn' err w2 = release cn' w2) /\
    (~ In line [resultDeleted; resultNotFound; resultNotStored; resultExists] ->
     err = Some (Errorf fmt_unexpected [line]) /\
     condRelease cn' err w2 = nc_Close cn' w2).
Proof.
  intros Hkey Hsel Hconn Hw Hread.
  set (req := bytes "delete " ++ bytes key ++ crlf).
  destruct (writeReadLine_request cn req Hw) as (cn1 & Hwr & Hid & Haddr & _ & Hsent).
  rewrite Hread in Hwr. cbn [fst snd] in Hwr.
  set (err :=
    if bytes_Equal line resultDeleted then None
    else if bytes_Equal line resultNotStored then Some ErrNotStored
    else if bytes_Equal line resultExists then Some ErrCASConflict
    else if bytes_Equal line resultNotFound then Some ErrCacheMiss
    else Some (Errorf fmt_unexpected [line])).
  assert (Hexp : writeExpectf cn resultDeleted req = (err, set_rd cn1 r')).
  { unfold writeExpectf. rewrite Hwr. unfold err.
    repeat match goal with |- context [bytes_Equal ?a ?b] =>
      destruct (bytes_Equal a b) end; reflexivity. }
  exists (set_rd cn1 r'), err. split.
  { unfold Delete.
    rewrite (withKeyRw_conn key _ tt w addr cn w2 Hkey Hsel Hconn).
    fold req. rewrite Hexp. reflexivity. }
  do 4 (split; [assumption || reflexivity|]).
  unfold err. repeat split.
  - intros ->. reflexivity.
  - intros ->. reflexivity.
  - intros ->. reflexivity.
  - intros ->. reflexivity.
  - intros Hin. simpl in Hin.
    destruct Hin as [<-|[<-|[<-|[<-|[]]]]]; reflexivity.
  - apply Decidable.not_or in H. destruct H as [H1 H].
    apply Decidable.not_or in H. destruct H as [H2 H].
    apply Decidable.not_or in H. destruct H as [H3 H].
    apply Decidable.not_or in H. destruct H as [H4 _].
    rewrite !bytes_Equal_neq by congruence. reflexivity.
  - apply Decidable.not_or in H. destruct H as [H1 H].
    apply Decidable.not_or in H. destruct H as [H2 H].
    apply Decidable.not_or in H. destruct H as [H3 H].
    apply Decidable.not_or in H. destruct H as [H4 _].
    rewrite !bytes_Equal_neq by congruence. reflexivity.
Qed.

(** ** A transport whose writes fail *)

Lemma rw_Write_broken cn p e :
  wfail cn = Some e ->
  rw_Write cn p = (Some e, cn) \/
  exists cn', rw_Write cn p = (None, cn') /\ wfail cn' = Some e /\
              rd cn' = rd cn /\ sent cn' = sent cn.
Proof.
  intros Hw. unfold rw_Write.
  destruct (length (wbuf cn) + length p <=? defaultBufSize).
  - right. eexists. split; [reflexivity|]. cbn. auto.
  - left. now rewrite Hw.
Qed.

Lemma rw_Flush_broken cn e : wfail cn = Some e -> rw_Flush cn = (Some e, cn).
Proof. intros Hw. unfold rw_Flush. now rewrite Hw. Qed.

Lemma writeReadLine_broken cn req e :
  wfail cn = Some e ->
  exists cn', writeReadLine cn req = ([], Some e, cn') /\
              rd cn' = rd cn /\ sent cn' = sent cn.
Proof.
  intros Hw. unfold writeReadLine.
  destruct (rw_Write_broken cn req e Hw) as [->|(cn1 & -> & Hw1 & Hr1 & Hs1)].
  - eauto.
  - rewrite (rw_Flush_broken cn1 e Hw1). eauto.
Qed.

(** X8: When the writes of the transport fail with [e], every exchange
    returns [e]: nothing reaches the server, nothing is read from it,
    and no answer is ever parsed. *)
Theorem broken_transport_surfaces
    (cap : nat -> nat) (cn : conn) (e : error) (verb key : string) (item : Item)
    (keys : list string) (delta : Z) (expect req : list byte) :
  wfail cn = Some e ->
  (legalKey (Key item) = true ->
   fst (populateOne cn verb item) = Some e /\
   rd (snd (populateOne cn verb item)) = rd cn /\
   sent (snd (populateOne cn verb item)) = sent cn) /\
  (fst (writeExpectf cn expect req) = Some e /\
   rd (snd (writeExpectf cn expect req)) = rd cn /\
   sent (snd (writeExpectf cn expect req)) = sent cn) /\
  (fst (incrDecr_body verb key delta cn) = (0%Z, Ret (Some e)) /\
   rd (snd (incrDecr_body verb key delta cn)) = rd cn /\
   sent (snd (incrDecr_body verb key delta cn)) = sent cn) /\
  (fst (getFromAddr_body cap keys cn) = ([], Ret (Some e)) /\
   rd (snd (getFromAddr_body cap keys cn)) = rd cn /\
   sent (snd (getFromAddr_body cap keys cn)) = sent cn).
Proof.
  intros Hw. split; [|split; [|split]].
  - intros Hkey. unfold populateOne. rewrite Hkey. cbn [negb].
    match goal with |- context [rw_Write cn ?h] => generalize h end. intros header.
    unfold andThen.
    destruct (rw_Write_broken cn header e Hw) as [->|(cn1 & -> & Hw1 & Hr1 & Hs1)];
      [auto|].
    destruct (rw_Write_broken cn1 (Value item) e Hw1)
      as [->|(cn2 & -> & Hw2 & Hr2 & Hs2)]; [cbn; auto|].
    destruct (rw_Write_broken cn2 crlf e Hw2)
      as [->|(cn3 & -> & Hw3 & Hr3 & Hs3)]; [cbn; split; [|split]; congruence|].
    rewrite (rw_Flush_broken cn3 e Hw3). cbn. split; [|split]; congruence.
  - unfold writeExpectf.
    destruct (writeReadLine_broken cn req e Hw) as (cn1 & -> & Hr & Hs). auto.
  - unfold incrDecr_body.
    destruct (writeReadLine_broken cn
                (bytes verb ++ [SP] ++ bytes key ++ [SP] ++ fmt_d delta ++ crlf)
                e Hw) as (cn1 & -> & Hr & Hs). auto.
  - unfold getFromAddr_body.
    destruct (rw_Write_broken cn (bytes "gets " ++ join_keys keys ++ crlf) e Hw)
      as [->|(cn1 & -> & Hw1 & Hr1 & Hs1)]; [auto|].
    rewrite (rw_Flush_broken cn1 e Hw1). auto.
Qed.

(** ** Acquiring a connection *)

Lemma netTimeout_nonzero c : netTimeout c <> 0%Z.
Proof.
  unfold netTimeout. destruct (Z.eqb_spec (Timeout c) 0); [discriminate | assumption].
Qed.

(** X9: [getConn] with an idle connection for the address: it takes the
    most recently released one without dialing, and only refreshes its
    deadline, by a duration that is never zero; the other idle
    connections stay where they are. *)
Theorem getConn_reuses_idle (addr : Addr) (w : World) (l : list conn) (cn : conn) :
  idle w (AddrString addr) = l ++ [cn] ->
  exists w',
    getConn addr w = (inl cn, w') /\
    events w' = events w ++ [EvSetDeadline (cid cn) (netTimeout (client w))] /\
    netTimeout (client w) <> 0%Z /\
    ndial w' = ndial w /\
    idle w' (AddrString addr) = l /\
    forall a, a <> AddrString addr -> idle w' a = idle w a.
Proof.
  intros Hidle. unfold getConn.
  pose proof (getFreeConn_takes_tail addr w l cn Hidle) as [Hfst Hl].
  pose proof (getFreeConn_events addr w) as Hev.
  pose proof (fun a => getFreeConn_idle addr w a) as Hother.
  assert (Hnd : ndial (snd (getFreeConn addr w)) = ndial w
                /\ client (snd (getFreeConn addr w)) = client (snd (getFreeConn addr w))).
  { split; [|reflexivity]. unfold getFreeConn.
    destruct (freeconn (client w)) as [fc|]; [|reflexivity].
    destruct (fc !! AddrString addr) as [fl|]; [|reflexivity].
    destruct (last fl); reflexivity. }
  assert (Hto : netTimeout (client (snd (getFreeConn addr w))) = netTimeout (client w)).
  { unfold getFreeConn.
    destruct (freeconn (client w)) as [fc|]; [|reflexivity].
    destruct (fc !! AddrString addr) as [fl|]; [|reflexivity].
    destruct (last fl); reflexivity. }
  destruct (getFreeConn addr w) as [got w1]. cbn [fst snd] in *. subst got.
  exists (extendDeadline cn w1). split; [reflexivity|].
  unfold extendDeadline, log. cbn [events ndial]. rewrite Hev, Hto.
  repeat split.
  - apply netTimeout_nonzero.
  - apply Hnd.
  - exact Hl.
  - intros a Hne. specialize (Hother a). rewrite decide_False in Hother by exact Hne.
    exact Hother.
Qed.

Lemma getFreeConn_none addr w :
  idle w (AddrString addr) = [] ->
  fst (getFreeConn addr w) = None /\
  events (snd (getFreeConn addr w)) = events w /\
  ndial (snd (getFreeConn addr w)) = ndial w /\
  netDial (snd (getFreeConn addr w)) = netDial w /\
  netTimeout (client (snd (getFreeConn addr w))) = netTimeout (client w) /\
  forall a, idle (snd (getFreeConn addr w)) a = idle w a.
Proof.
  intros Hidle. rewrite getFreeConn_fst, Hidle.
  split; [reflexivity|]. split; [apply getFreeConn_events|].
  assert (H3 : ndial (snd (getFreeConn addr w)) = ndial w /\
               netDial (snd (getFreeConn addr w)) = netDial w /\
               netTimeout (client (snd (getFreeConn addr w))) = netTimeout (client w)).
  { unfold getFreeConn.
    destruct (freeconn (client w)) as [fc|]; [|auto].
    destruct (fc !! AddrString addr) as [fl|]; [|auto].
    destruct (last fl); auto. }
  destruct H3 as (? & ? & ?). repeat split; try assumption.
  intros a. rewrite getFreeConn_idle.
  destruct (decide (a = AddrString addr)) as [->|]; [|reflexivity].
  now rewrite Hidle.
Qed.

(** X10: [getConn] without an idle connection for the address dials once.
    A dial that answers in time gives a fresh connection with an empty
    write buffer and a deadline; a failed dial gives its error; a dial
    slower than the timeout gives [ConnectTimeoutError] for the address,
    and the transport that arrives late is closed.  The pool is not
    touched. *)
Theorem getConn_dials_once (addr : Addr) (w : World) :
  idle w (AddrString addr) = [] ->
  let id := ndial w in
  let w' := snd (getConn addr w) in
  ndial w' = S id /\
  (forall a, idle w' a = idle w a) /\
  match netDial w id addr with
  | Dialed t =>
      fst (getConn addr w) = inl (mkConn id addr (t_rd t) [] [] (t_wfail t)) /\
      events w' = events w ++ [EvDial addr; EvSetDeadline id (netTimeout (client w))]
  | DialFailed e =>
      fst (getConn addr w) = inr e /\ events w' = events w ++ [EvDial addr]
  | DialTooSlow late =>
      fst (getConn addr w) = inr (ConnectTimeoutError addr) /\
      events w' = events w ++ [EvDial addr]
                  ++ match late with Some _ => [EvClose id] | None => [] end
  end.
Proof.
  intros Hidle id w'. subst id w'.
  destruct (getFreeConn_none addr w Hidle) as (Hf & Hev & Hnd & Hnet & Hto & Hid).
  unfold getConn.
  destruct (getFreeConn addr w) as [got w1]. cbn [fst snd] in *. subst got.
  unfold dial. rewrite Hnd, Hnet, Hev.
  destruct (netDial w (ndial w) addr) as [t|e|[t|]]; cbn;
    unfold idle in *; cbn; rewrite ?Hto, <- ?app_assoc; repeat split;
    try (intros a; apply (Hid a)); try now rewrite app_nil_r.
Qed.

(** ** The buckets of [GetMulti] *)

Lemma keyMap_append_perm keyMap addr key :
  Permutation (concat (map snd (keyMap_append keyMap addr key)))
              (concat (map snd keyMap) ++ [key]).
Proof.
  induction keyMap as [|[a ks] keyMap IH]; simpl.
  - reflexivity.
  - destruct (decide (a = addr)); simpl.
    + rewrite <- !app_assoc. apply Permutation_app_head, Permutation_app_comm.
    + rewrite IH, app_assoc. reflexivity.
Qed.

Lemma keyMap_append_fst keyMap addr key a :
  In a (map fst (keyMap_append keyMap addr key)) <->
  a = addr \/ In a (map fst keyMap).
Proof.
  induction keyMap as [|[b ks] keyMap IH]; simpl.
  - intuition.
  - destruct (decide (b = addr)) as [->|Hne]; simpl; [intuition|].
    rewrite IH. intuition.
Qed.

Lemma keyMap_append_NoDup keyMap addr key :
  List.NoDup (map fst keyMap) ->
  List.NoDup (map fst (keyMap_append keyMap addr key)).
Proof.
  induction keyMap as [|[b ks] keyMap IH]; simpl; intros Hnd.
  - constructor; [intros [] | constructor].
  - inversion Hnd as [|? ? Hnotin Hnd']; subst.
    destruct (decide (b = addr)) as [->|Hne]; simpl.
    + constructor; assumption.
    + constructor; [|now apply IH].
      rewrite keyMap_append_fst. intros [->|H]; [congruence | contradiction].
Qed.

Lemma keyMap_append_bucket keyMap addr key a ks :
  In (a, ks) (keyMap_append keyMap addr key) ->
  (In (a, ks) keyMap) \/
  (a = addr /\ exists ks0, ks = ks0 ++ [key] /\ (ks0 = [] \/ In (a, ks0) keyMap)).
Proof.
  induction keyMap as [|[b bs] keyMap IH]; simpl.
  - intros [[= <- <-]|[]]. right. split; [reflexivity|]. exists []. auto.
  - destruct (decide (b = addr)) as [->|Hne]; simpl.
    + intros [[= <- <-]|H]; [|auto].
      right. split; [reflexivity|]. exists bs. auto.
    + intros [H|H]; [auto|].
      destruct (IH H) as [H'|(-> & ks0 & -> & [->|H'])]; [auto| |].
      * right. split; [reflexivity|]. exists []. auto.
      * right. split; [reflexivity|]. exists ks0. auto.
Qed.

Lemma partition_keys_inv keys :
  forall keyMap w keyMap' w1,
    partition_keys keys keyMap w = (inl keyMap', w1) ->
    List.NoDup (map fst keyMap) ->
    (forall a ks, In (a, ks) keyMap -> ks <> [] /\
       forall k, In k ks -> selector (client w) k = inl a /\ legalKey k = true) ->
    Permutation (concat (map snd keyMap')) (concat (map snd keyMap) ++ keys) /\
    List.NoDup (map fst keyMap') /\
    (forall a ks, In (a, ks) keyMap' -> ks <> [] /\
       forall k, In k ks -> selector (client w) k = inl a /\ legalKey k = true) /\
    events w1 = events w ++ map EvPickServer keys /\
    freeconn (client w1) = freeconn (client w) /\ ndial w1 = ndial w.
Proof.
  induction keys as [|key keys IH]; intros keyMap w keyMap' w1; simpl.
  - intros [= <- <-] Hnd Hb. rewrite !app_nil_r.
    split; [reflexivity|]. split; [exact Hnd|]. split; [exact Hb|]. auto.
  - destruct (legalKey key) eqn:Hkey; cbn [negb]; [|discriminate].
    unfold PickServer. destruct (selector (client w) key) as [addr|e] eqn:Hsel;
      [|discriminate].
    intros Hpart Hnd Hb.
    apply IH in Hpart.
    + destruct Hpart as (Hperm & Hnd' & Hb' & Hev & Hfc & Hn).
      split; [|split; [exact Hnd'|split; [exact Hb'|]]].
      * rewrite Hperm, keyMap_append_perm, <- app_assoc. reflexivity.
      * cbn in Hev. rewrite Hev, <- app_assoc. auto.
    + now apply keyMap_append_NoDup.
    + intros a ks Hin. cbn [client log].
      destruct (keyMap_append_bucket _ _ _ _ _ Hin)
        as [H|(-> & ks0 & -> & [->|H])].
      * apply Hb, H.
      * split; [discriminate|]. intros k [<-|[]]. auto.
      * destruct (Hb _ _ H) as [_ Hks]. split.
        -- intros E. apply (f_equal (@length string)) in E.
           rewrite length_app in E. simpl in E. lia.
        -- intros k Hk. apply in_app_or in Hk. destruct Hk as [Hk|[<-|[]]]; auto.
Qed.

(** X11: The first loop of [GetMulti], when it succeeds: the buckets hold
    exactly the keys given (as a multiset), no two buckets have the same
    address, no bucket is empty, every key sits in the bucket of the
    address the selector gives it, the selector was asked once per key,
    in order, and neither the pool nor the network was touched. *)
Theorem partition_keys_buckets
    (keys : list string) (w w1 : World) (keyMap : list (Addr * list string)) :
  partition_keys keys [] w = (inl keyMap, w1) ->
  Permutation (concat (map snd keyMap)) keys /\
  List.NoDup (map fst keyMap) /\
  (forall a ks, In (a, ks) keyMap -> ks <> [] /\
     forall k, In k ks -> selector (client w) k = inl a /\ legalKey k = true) /\
  events w1 = events w ++ map EvPickServer keys /\
  freeconn (client w1) = freeconn (client w) /\ ndial w1 = ndial w.
Proof.
  intros Hpart.
  apply (partition_keys_inv keys [] w keyMap w1 Hpart).
  - constructor.
  - intros a ks [].
Qed.

(** ** The errors [GetMulti] receives *)

Lemma sent_count_insert l : forall i t t',
  l !! i = Some t ->
  sent_count (<[i := t']> l) + (if is_TDone t then 1 else 0)
  = sent_count l + (if is_TDone t' then 1 else 0).
Proof.
  unfold sent_count.
  induction l as [|x l IH]; intros i t t' Hi; [discriminate|].
  destruct i as [|i]; simpl in *.
  - injection Hi as ->. destruct (is_TDone t), (is_TDone t'); simpl; lia.
  - specialize (IH i t t' Hi). destruct (is_TDone x); simpl; lia.
Qed.

Lemma step_sent cap j st :
  length (fo_ch st) = sent_count (fo_tasks st) ->
  length (fo_ch (step cap j st)) = sent_count (fo_tasks (step cap j st)).
Proof.
  intros H. step_cases cap j st Hj; cbn [fo_ch fo_tasks]; try exact H;
    try (pose proof (sent_count_insert (fo_tasks st) j _ (TDeliver cn' got res) Hj) as E;
         simpl in E; lia);
    try (pose proof (sent_count_insert (fo_tasks st) j _ (TSend (Some err)) Hj) as E;
         simpl in E; lia);
    try (pose proof (sent_count_insert (fo_tasks st) j _ (TSend err) Hj) as E;
         simpl in E; lia);
    try (pose proof (sent_count_insert (fo_tasks st) j _ TPanic Hj) as E;
         simpl in E; lia);
    try (pose proof (sent_count_insert (fo_tasks st) j _ (TDeliver cn pending (Ret err)) Hj) as E;
         simpl in E; lia);
    try (pose proof (sent_count_insert (fo_tasks st) j _ (TDeliver cn pending Panic) Hj) as E;
         simpl in E; lia).
  pose proof (sent_count_insert (fo_tasks st) j _ TDone Hj) as E.
  simpl in E. rewrite length_app. simpl. lia.
Qed.

Lemma fanout_sent cap keyMap sched w :
  length (fo_ch (fanout cap keyMap sched w))
  = sent_count (fo_tasks (fanout cap keyMap sched w)).
Proof.
  unfold fanout, finish.
  set (st0 := mkFanout w ∅ (map (fun b => TStart (fst b) (snd b)) keyMap) []).
  assert (H0 : length (fo_ch st0) = sent_count (fo_tasks st0)).
  { unfold st0, sent_count. cbn [fo_ch fo_tasks].
    induction keyMap as [|b km IH]; [reflexivity | exact IH]. }
  assert (Hrun : forall sched st, length (fo_ch st) = sent_count (fo_tasks st) ->
            length (fo_ch (run cap sched st)) = sent_count (fo_tasks (run cap sched st))).
  { induction sched0 as [|i sched0 IH]; intros st H; [exact H|].
    unfold run in *. simpl. apply IH, step_sent, H. }
  assert (Hiter : forall i n st, length (fo_ch st) = sent_count (fo_tasks st) ->
            length (fo_ch (Nat.iter n (step cap i) st))
            = sent_count (fo_tasks (Nat.iter n (step cap i) st))).
  { intros i n st H. induction n as [|n IH]; simpl; [exact H | apply step_sent, IH]. }
  generalize (seq 0 (length (fo_tasks (run cap sched st0)))).
  specialize (Hrun sched st0 H0). revert Hrun.
  generalize (run cap sched st0). intros st Hst l. revert st Hst.
  induction l as [|i l IH]; intros st Hst; [exact Hst|].
  simpl. apply IH. unfold finish_task. apply Hiter, step_sent, Hst.
Qed.

Lemma fanout_length cap keyMap sched w :
  length (fo_tasks (fanout cap keyMap sched w)) = length keyMap.
Proof.
  unfold fanout, finish. rewrite fold_finish_length.
  assert (Hrun : forall sched st, length (fo_tasks (run cap sched st)) = length (fo_tasks st)).
  { induction sched0 as [|i sched0 IH]; intros st; [reflexivity|].
    unfold run in *. simpl. now rewrite IH, step_tasks_length. }
  rewrite Hrun. cbn [fo_tasks]. apply length_map.
Qed.

Lemma sent_count_all l :
  (forall i t, l !! i = Some t -> t = TDone) -> sent_count l = length l.
Proof.
  unfold sent_count. induction l as [|x l IH]; intros H; [reflexivity|].
  rewrite (H 0 x eq_refl). simpl. f_equal. apply IH.
  intros i t Hi. apply (H (S i) t Hi).
Qed.

Lemma last_error_snoc ch ge :
  last_error (ch ++ [ge]) = match ge with Some _ => ge | None => last_error ch end.
Proof. unfold last_error. rewrite fold_left_app. reflexivity. Qed.

Lemma last_error_spec ch :
  (last_error ch = None <-> forall ge, In ge ch -> ge = None) /\
  (forall e, last_error ch = Some e ->
     exists pre post, ch = pre ++ Some e :: post /\ forall ge, In ge post -> ge = None).
Proof.
  induction ch as [|ge ch [IH1 IH2]] using rev_ind.
  - split; [split; [intros _ ge [] | reflexivity] | discriminate].
  - rewrite last_error_snoc. destruct ge as [e'|].
    + split.
      * split; [discriminate|]. intros H.
        apply (H (Some e')), in_or_app. right. now left.
      * intros e [= <-]. exists ch, []. split; [reflexivity | intros ge []].
    + split.
      * rewrite IH1. split.
        -- intros H ge Hin. apply in_app_or in Hin.
           destruct Hin as [Hin|[<-|[]]]; [now apply H | reflexivity].
        -- intros H ge Hin. apply H, in_or_app. now left.
      * intros e He. destruct (IH2 e He) as (pre & post & -> & Hpost).
        exists pre, (post ++ [None]). split; [now rewrite <- app_assoc|].
        intros ge Hin. apply in_app_or in Hin.
        destruct Hin as [Hin|[<-|[]]]; [now apply Hpost | reflexivity].
Qed.

(** X12: The error of [GetMulti], when no goroutine panics: exactly one
    value per bucket was sent on the channel; the error returned is nil
    iff all of them are nil, and otherwise it is the last one sent that
    is not nil. *)
Theorem GetMulti_error_policy
    (cap : nat -> nat) (keys : list string) (sched : list nat) (w w1 : World)
    (keyMap : list (Addr * list string)) :
  partition_keys keys [] w = (inl keyMap, w1) ->
  let st := fanout cap keyMap sched w1 in
  existsb is_TPanic (fo_tasks st) = false ->
  exists err,
    GetMulti cap keys sched w = (Ret (Some (fo_m st), err), fo_world st) /\
    length (fo_ch st) = length keyMap /\
    (err = None <-> forall ge, In ge (fo_ch st) -> ge = None) /\
    (forall e, err = Some e ->
       exists pre post, fo_ch st = pre ++ Some e :: post /\
                        forall ge, In ge post -> ge = None).
Proof.
  intros Hpart st Hnopanic. exists (last_error (fo_ch st)).
  split; [unfold GetMulti; rewrite Hpart; fold st; now rewrite Hnopanic|].
  split; [|apply last_error_spec].
  unfold st. rewrite fanout_sent, <- (fanout_length cap keyMap sched w1).
  apply sent_count_all. intros i t Hi.
  pose proof (finish_done cap _ i t Hi) as [->| ->]; [reflexivity|].
  exfalso. fold st in Hi.
  assert (Hex : existsb is_TPanic (fo_tasks st) = true).
  { apply existsb_exists. exists TPanic. split; [|reflexivity].
    apply list_elem_of_In. eapply list_elem_of_lookup_2, Hi. }
  congruence.
Qed.

(** ** Who holds a connection *)

Lemma closed_log w e id : closed (log w e) id <-> closed w id \/ e = EvClose id.
Proof.
  unfold closed, log. cbn [events]. rewrite elem_of_app, list_elem_of_singleton.
  split; intros [H|H]; auto.
Qed.

Lemma getFreeConn_ndial addr w : ndial (snd (getFreeConn addr w)) = ndial w.
Proof.
  unfold getFreeConn.
  destruct (freeconn (client w)) as [fc|]; [|reflexivity].
  destruct (fc !! AddrString addr) as [fl|]; [|reflexivity].
  destruct (last fl); reflexivity.
Qed.

Lemma putFreeConn_ndial addr cn w : ndial (putFreeConn addr cn w) = ndial w.
Proof.
  unfold putFreeConn. destruct (maxIdleConnsPerAddr <=? _); reflexivity.
Qed.

Lemma getFreeConn_safe addr w cn w' :
  pool_safe w -> getFreeConn addr w = (Some cn, w') ->
  pool_safe w' /\ owned w' (cid cn) /\
  forall id, owned w id -> owned w' id /\ id <> cid cn.
Proof.
  intros (Hmem & Huniq & Hcl) Hget.
  pose proof (getFreeConn_fst addr w) as Hfst.
  pose proof (getFreeConn_idle addr w) as Hidle.
  pose proof (getFreeConn_events addr w) as Hev.
  pose proof (getFreeConn_ndial addr w) as Hnd.
  rewrite Hget in *. cbn [fst snd] in *. symmetry in Hfst.
  set (l := idle w (AddrString addr)) in *.
  assert (Hlast : l !! (length l - 1) = Some cn).
  { rewrite <- Hfst. destruct l as [|x l'] using rev_ind; [discriminate|].
    rewrite last_snoc, length_app. simpl.
    replace (length l' + 1 - 1) with (length l') by lia.
    now rewrite lookup_app_r, Nat.sub_diag by lia. }
  assert (Hlen : 0 < length l).
  { apply lookup_lt_Some in Hlast. lia. }
  assert (Hsub : forall a i c, idle w' a !! i = Some c ->
            idle w a !! i = Some c /\ (a = AddrString addr -> i < length l - 1)).
  { intros a i c Hi. rewrite Hidle in Hi.
    destruct (decide (a = AddrString addr)) as [->|Hne].
    - fold l in Hi. apply lookup_take_Some in Hi. destruct Hi as [Hi Hlt]. auto.
    - split; [exact Hi | contradiction]. }
  assert (Hcl' : forall id, closed w' id <-> closed w id).
  { intros id. unfold closed. now rewrite Hev. }
  assert (Hin : forall a c, c ∈ idle w' a -> c ∈ idle w a).
  { intros a c Hc. apply list_elem_of_lookup in Hc. destruct Hc as [i Hi].
    apply Hsub in Hi. eapply list_elem_of_lookup_2, Hi. }
  assert (Hcn : cn ∈ idle w (AddrString addr)).
  { eapply list_elem_of_lookup_2, Hlast. }
  split; [|split].
  - split; [|split].
    + intros a c Hc. rewrite Hnd, Hcl'. apply Hmem, Hin, Hc.
    + intros a b i j c1 c2 H1 H2 E.
      apply Hsub in H1. apply Hsub in H2. eapply Huniq; [apply H1 | apply H2 | exact E].
    + intros id. rewrite Hnd, Hcl'. apply Hcl.
  - destruct (Hmem _ _ Hcn) as (_ & Hlt & Hopen).
    split; [now rewrite Hnd|]. split; [now rewrite Hcl'|].
    intros a c Hc E. apply list_elem_of_lookup in Hc. destruct Hc as [i Hi].
    apply Hsub in Hi. destruct Hi as [Hi Hbound].
    destruct (Huniq _ _ _ _ _ _ Hi Hlast E) as [-> ->].
    specialize (Hbound eq_refl). lia.
  - intros id (Hlt & Hopen & Hnot). split.
    + split; [now rewrite Hnd|]. split; [now rewrite Hcl'|].
      intros a c Hc. apply Hnot with a, Hin, Hc.
    + intros ->. apply (Hnot _ _ Hcn). reflexivity.
Qed.

Lemma getFreeConn_miss addr w w' : getFreeConn addr w = (None, w') -> w' = w.
Proof.
  unfold getFreeConn.
  destruct (freeconn (client w)) as [fc|]; [|now intros [= <-]].
  destruct (fc !! AddrString addr) as [fl|]; [|now intros [= <-]].
  destruct (last fl); [discriminate | now intros [= <-]].
Qed.

Lemma log_safe w e :
  (forall id, e = EvClose id -> False) ->
  pool_safe w -> pool_safe (log w e) /\ forall id, owned w id -> owned (log w e) id.
Proof.
  intros He (Hmem & Huniq & Hcl).
  assert (Hc : forall id, closed (log w e) id <-> closed w id).
  { intros id. rewrite closed_log. split; [intros [H|H]; [exact H | destruct (He id H)] | auto]. }
  split.
  - split; [|split].
    + intros a cn Hin. rewrite Hc. apply (Hmem a cn Hin).
    + exact Huniq.
    + intros id. rewrite Hc. apply Hcl.
  - intros id (Hlt & Hopen & Hnot). split; [exact Hlt|]. split; [now rewrite Hc | exact Hnot].
Qed.

Lemma dial_safe addr w r w' :
  pool_safe w -> dial addr w = (r, w') ->
  pool_safe w' /\ (forall id, owned w id -> owned w' id /\ id <> ndial w) /\
  (forall id t, r = inl (id, t) -> id = ndial w /\ owned w' id).
Proof.
  intros (Hmem & Huniq & Hcl) Hdial. unfold dial in Hdial.
  set (w0 := mkWorld (client w) (netDial w) (S (ndial w)) (events w ++ [EvDial addr])) in *.
  assert (Hc0 : forall id, closed w0 id <-> closed w id).
  { intros id. unfold closed, w0. cbn [events].
    rewrite elem_of_app, list_elem_of_singleton. split; [intros [H|H]; [exact H | discriminate] | auto]. }
  assert (Hbase : pool_safe w0 /\ forall id, owned w id -> owned w0 id /\ id <> ndial w).
  { split.
    - split; [|split].
      + intros a cn Hin. rewrite Hc0. destruct (Hmem a cn Hin) as (? & ? & ?).
        cbn. auto with lia.
      + exact Huniq.
      + intros id. rewrite Hc0. intros H. apply Hcl in H. cbn. lia.
    - intros id (Hlt & Hopen & Hnot). split; [|lia].
      split; [cbn; lia|]. split; [now rewrite Hc0 | exact Hnot]. }
  destruct Hbase as [Hsafe0 Hown0].
  pose proof Hsafe0 as (Hmem0 & Huniq0 & Hcl0).
  assert (Hfresh : owned w0 (ndial w)).
  { split; [cbn; lia|]. split.
    - rewrite Hc0. intros H. apply Hcl in H. lia.
    - intros a c Hin E. destruct (Hmem a c Hin) as (_ & Hlt & _). lia. }
  destruct (netDial w (ndial w) addr) as [t|e|[t|]];
    injection Hdial as <- <-.
  - split; [exact Hsafe0|]. split; [exact Hown0|].
    intros id t' [= <- <-]. auto.
  - split; [exact Hsafe0|]. split; [exact Hown0|]. discriminate.
  - split; [|split; [|discriminate]].
    + split; [|split].
      * intros a cn Hin. destruct (Hmem0 a cn Hin) as (Ha & Hlt & Hopen).
        split; [exact Ha|]. split; [exact Hlt|].
        rewrite closed_log. intros [H|[= H]]; [contradiction|].
        destruct (Hmem a cn Hin) as (_ & Hlt' & _). lia.
      * exact Huniq0.
      * intros id. rewrite closed_log. intros [H|[= <-]]; [now apply Hcl0 | cbn; lia].
    + intros id Hid. destruct (Hown0 id Hid) as [(Hlt & Hopen & Hnot) Hne].
      split; [|exact Hne]. split; [exact Hlt|]. split; [|exact Hnot].
      rewrite closed_log. intros [H|[= H]]; [contradiction | congruence].
  - split; [exact Hsafe0|]. split; [exact Hown0|]. discriminate.
Qed.

Lemma getConn_safe addr w :
  pool_safe w ->
  pool_safe (snd (getConn addr w)) /\
  (forall id, owned w id ->
     owned (snd (getConn addr w)) id /\
     forall cn, fst (getConn addr w) = inl cn -> id <> cid cn) /\
  (forall cn, fst (getConn addr w) = inl cn -> owned (snd (getConn addr w)) (cid cn)).
Proof.
  intros Hsafe. unfold getConn.
  destruct (getFreeConn addr w) as [[cn|] w1] eqn:Hget.
  - destruct (getFreeConn_safe addr w cn w1 Hsafe Hget) as (Hs1 & Ho1 & Hk1).
    destruct (log_safe w1 (EvSetDeadline (cid cn) (netTimeout (client w1)))
                ltac:(discriminate) Hs1) as [Hs2 Hk2].
    cbn [fst snd]. unfold extendDeadline. split; [exact Hs2|]. split.
    + intros id Hid. destruct (Hk1 id Hid) as [Ho Hne]. split; [now apply Hk2|].
      intros c [= <-]. exact Hne.
    + intros c [= <-]. now apply Hk2.
  - apply getFreeConn_miss in Hget. subst w1.
    destruct (dial addr w) as [r w2] eqn:Hdial.
    destruct (dial_safe addr w r w2 Hsafe Hdial) as (Hs2 & Hk2 & Hnew).
    destruct r as [[id t]|e]; cbn [fst snd].
    + destruct (Hnew id t eq_refl) as [-> Hown].
      set (cn := mkConn (ndial w) addr (t_rd t) [] [] (t_wfail t)).
      destruct (log_safe w2 (EvSetDeadline (cid cn) (netTimeout (client w2)))
                  ltac:(discriminate) Hs2) as [Hs3 Hk3].
      unfold extendDeadline. split; [exact Hs3|]. split.
      * intros id Hid. destruct (Hk2 id Hid) as [Ho Hne]. split; [now apply Hk3|].
        intros c [= <-]. exact Hne.
      * intros c [= <-]. now apply Hk3.
    + split; [exact Hs2|]. split; [|discriminate].
      intros id Hid. split; [apply Hk2, Hid | discriminate].
Qed.

Lemma nc_Close_safe cn w :
  pool_safe w -> owned w (cid cn) ->
  pool_safe (nc_Close cn w) /\
  forall id, owned w id -> id <> cid cn -> owned (nc_Close cn w) id.
Proof.
  intros (Hmem & Huniq & Hcl) (Hlt & Hopen & Hnot). unfold nc_Close. split.
  - split; [|split].
    + intros a c Hin. destruct (Hmem a c Hin) as (Ha & Hl & Ho).
      split; [exact Ha|]. split; [exact Hl|].
      rewrite closed_log. intros [H|[= H]]; [contradiction|].
      apply (Hnot a c Hin). congruence.
    + exact Huniq.
    + intros id. rewrite closed_log. intros [H|[= <-]]; [now apply Hcl | exact Hlt].
  - intros id (Hl & Ho & Hn) Hne. split; [exact Hl|]. split; [|exact Hn].
    rewrite closed_log. intros [H|[= H]]; [contradiction | congruence].
Qed.

Lemma release_safe cn w :
  pool_safe w -> owned w (cid cn) ->
  pool_safe (release cn w) /\
  forall id, owned w id -> id <> cid cn -> owned (release cn w) id.
Proof.
  intros Hsafe Hown. unfold release.
  pose proof (putFreeConn_idle (caddr cn) cn w) as Hidle.
  pose proof (putFreeConn_events (caddr cn) cn w) as Hev.
  pose proof (putFreeConn_ndial (caddr cn) cn w) as Hnd.
  set (a0 := AddrString (caddr cn)) in *.
  destruct (Nat.leb_spec maxIdleConnsPerAddr (length (idle w a0))) as [Hfull|Hroom].
  - (* the list is full: the transport is closed *)
    assert (Hsame : forall a, idle (putFreeConn (caddr cn) cn w) a = idle w a).
    { intros a. rewrite Hidle. destruct (decide (a = a0)) as [->|]; [|reflexivity].
      destruct (Nat.leb_spec maxIdleConnsPerAddr (length (idle w a0))); [reflexivity | lia]. }
    assert (Hc : forall id, closed (putFreeConn (caddr cn) cn w) id
                            <-> closed (nc_Close cn w) id).
    { intros id. unfold closed. rewrite Hev. reflexivity. }
    destruct (nc_Close_safe cn w Hsafe Hown) as [(Hm & Hu & Hcl) Hk].
    split.
    + split; [|split].
      * intros a c Hin. rewrite Hsame in Hin. rewrite Hnd, Hc. apply (Hm a c Hin).
      * intros a b i j c1 c2. rewrite !Hsame. apply Hu.
      * intros id. rewrite Hnd, Hc. apply Hcl.
    + intros id Hid Hne. destruct (Hk id Hid Hne) as (Hl & Ho & Hn).
      split; [now rewrite Hnd|]. split; [now rewrite Hc|].
      intros a c. rewrite Hsame. apply Hn.
  - (* the connection joins the list of its address *)
    destruct Hsafe as (Hmem & Huniq & Hcl). destruct Hown as (Hlt & Hopen & Hnot).
    assert (Hnew : forall a, idle (putFreeConn (caddr cn) cn w) a
                   = if decide (a = a0) then idle w a ++ [cn] else idle w a).
    { intros a. rewrite Hidle. destruct (decide (a = a0)) as [->|]; [|reflexivity].
      destruct (Nat.leb_spec maxIdleConnsPerAddr (length (idle w a0))); [lia | reflexivity]. }
    assert (Hc : forall id, closed (putFreeConn (caddr cn) cn w) id <-> closed w id).
    { intros id. unfold closed. rewrite Hev. reflexivity. }
    assert (Hlook : forall a i c, idle (putFreeConn (caddr cn) cn w) a !! i = Some c ->
              idle w a !! i = Some c \/ (a = a0 /\ i = length (idle w a0) /\ c = cn)).
    { intros a i c. rewrite Hnew. destruct (decide (a = a0)) as [->|]; [|auto].
      intros Hi. apply lookup_app_Some in Hi. destruct Hi as [Hi|[Hge Hi]]; [auto|].
      right. apply list_lookup_singleton_Some in Hi. destruct Hi as [Hi ->].
      repeat split; lia. }
    split.
    + split; [|split].
      * intros a c Hin. rewrite Hnd, Hc.
        apply list_elem_of_lookup in Hin. destruct Hin as [i Hi].
        destruct (Hlook a i c Hi) as [Hi'|(-> & _ & ->)].
        -- apply (Hmem a c). eapply list_elem_of_lookup_2, Hi'.
        -- auto.
      * intros a b i j c1 c2 H1 H2 E.
        destruct (Hlook a i c1 H1) as [H1'|(-> & -> & ->)];
          destruct (Hlook b j c2 H2) as [H2'|(-> & -> & ->)].
        -- eapply Huniq; eassumption.
        -- exfalso. apply (Hnot a c1); [eapply list_elem_of_lookup_2, H1' | exact E].
        -- exfalso. apply (Hnot b c2); [eapply list_elem_of_lookup_2, H2' | now symmetry].
        -- auto.
      * intros id. rewrite Hnd, Hc. apply Hcl.
    + intros id (Hl & Ho & Hn) Hne.
      split; [now rewrite Hnd|]. split; [now rewrite Hc|].
      intros a c Hin. apply list_elem_of_lookup in Hin. destruct Hin as [i Hi].
      destruct (Hlook a i c Hi) as [Hi'|(-> & _ & ->)].
      * apply (Hn a c). eapply list_elem_of_lookup_2, Hi'.
      * congruence.
Qed.

Lemma condRelease_safe cn err w :
  pool_safe w -> owned w (cid cn) ->
  pool_safe (condRelease cn err w) /\
  forall id, owned w id -> id <> cid cn -> owned (condRelease cn err w) id.
Proof.
  intros Hsafe Hown. unfold condRelease.
  destruct err as [e|]; [destruct (resumableError e)|];
    try (now apply release_safe); now apply nc_Close_safe.
Qed.

Lemma andThen_cid r k c :
  cid (snd r) = c -> (forall cn, cid cn = c -> cid (snd (k cn)) = c) ->
  cid (snd (andThen r k)) = c.
Proof.
  intros Hr Hk. unfold andThen. destruct r as [[e|] cn]; cbn [snd] in *; auto.
Qed.

Lemma rw_Write_cid cn p : cid (snd (rw_Write cn p)) = cid cn.
Proof. apply rw_Write_same. Qed.

Lemma rw_Flush_cid cn : cid (snd (rw_Flush cn)) = cid cn.
Proof. apply rw_Flush_same. Qed.

Lemma rw_ReadSlice_cid cn : cid (snd (rw_ReadSlice cn)) = cid cn.
Proof. apply rw_ReadSlice_same. Qed.

Lemma populateOne_cid cn verb item : cid (snd (populateOne cn verb item)) = cid cn.
Proof.
  unfold populateOne. destruct (negb (legalKey (Key item))); [reflexivity|].
  match goal with |- context [rw_Write cn ?h] => generalize h end. intros header.
  apply andThen_cid; [apply rw_Write_cid|]. intros cn1 H1.
  apply andThen_cid; [now rewrite rw_Write_cid|]. intros cn2 H2.
  apply andThen_cid; [now rewrite rw_Write_cid|]. intros cn3 H3.
  apply andThen_cid; [now rewrite rw_Flush_cid|]. intros cn4 H4.
  pose proof (rw_ReadSlice_cid cn4) as H5.
  destruct (rw_ReadSlice cn4) as [[line err] cn5]. cbn [snd] in H5.
  destruct err; [cbn; congruence|].
  repeat match goal with |- context [bytes_Equal ?a ?b] =>
    destruct (bytes_Equal a b) end; cbn; congruence.
Qed.

Lemma writeReadLine_cid cn req : cid (snd (writeReadLine cn req)) = cid cn.
Proof.
  unfold writeReadLine.
  pose proof (rw_Write_cid cn req) as H1.
  destruct (rw_Write cn req) as [[e|] cn1]; cbn [snd] in *; [exact H1|].
  pose proof (rw_Flush_cid cn1) as H2.
  destruct (rw_Flush cn1) as [[e|] cn2]; cbn [snd] in *; [congruence|].
  rewrite rw_ReadSlice_cid. congruence.
Qed.

Lemma writeExpectf_cid cn expect req : cid (snd (writeExpectf cn expect req)) = cid cn.
Proof.
  unfold writeExpectf. pose proof (writeReadLine_cid cn req) as H.
  destruct (writeReadLine cn req) as [[line err] cn1]. cbn [snd] in H.
  destruct err; [exact H|].
  repeat match goal with |- context [bytes_Equal ?a ?b] =>
    destruct (bytes_Equal a b) end; exact H.
Qed.

Lemma incrDecr_body_cid verb key delta cn :
  cid (snd (incrDecr_body verb key delta cn)) = cid cn.
Proof.
  unfold incrDecr_body.
  match goal with |- context [writeReadLine cn ?r] =>
    pose proof (writeReadLine_cid cn r) as H; destruct (writeReadLine cn r) as [[line err] cn1]
  end. cbn [snd] in H.
  destruct err; [exact H|].
  destruct (bytes_Equal line resultNotFound); [exact H|].
  destruct (bytes_HasPrefix line resultClientErrorPrefix).
  - destruct (subslice line _ _); exact H.
  - destruct (subslice line 0 _); [|exact H]. destruct (ParseUint64 l). exact H.
Qed.

Lemma withAddrRw_safe {A} addr (fn : conn -> A * Res (option error) * conn) a0 w :
  (forall cn, cid (snd (fn cn)) = cid cn) ->
  pool_safe w -> pool_safe (snd (withAddrRw addr fn a0 w)).
Proof.
  intros Hfn Hsafe. unfold withAddrRw.
  destruct (getConn_safe addr w Hsafe) as (Hs & _ & Hown).
  destruct (getConn addr w) as [[cn|e] w1]; cbn [fst snd] in *; [|exact Hs].
  specialize (Hown cn eq_refl). specialize (Hfn cn).
  destruct (fn cn) as [[a res] cn']. cbn [snd] in Hfn. rewrite <- Hfn in Hown.
  destruct res as [err|]; cbn [snd]; now apply condRelease_safe.
Qed.

Lemma withKeyAddr_safe {A} key
    (fn : Addr -> World -> A * Res (option error) * World) a0 w :
  (forall addr w', pool_safe w' -> pool_safe (snd (fn addr w'))) ->
  pool_safe w -> pool_safe (snd (withKeyAddr key fn a0 w)).
Proof.
  intros Hfn Hsafe. unfold withKeyAddr, PickServer.
  destruct (negb (legalKey key)); [exact Hsafe|].
  destruct (log_safe w (EvPickServer key) ltac:(discriminate) Hsafe) as [Hs _].
  destruct (selector (client w) key) as [addr|e]; cbn [snd]; [now apply Hfn | exact Hs].
Qed.

Lemma onItem_safe item fn w :
  (forall cn it, cid (snd (fn cn it)) = cid cn) ->
  pool_safe w -> pool_safe (snd (onItem item fn w)).
Proof.
  intros Hfn Hsafe. unfold onItem, PickServer.
  destruct (log_safe w (EvPickServer (Key item)) ltac:(discriminate) Hsafe) as [Hs _].
  destruct (selector (client w) (Key item)) as [addr|e]; cbn [snd]; [|exact Hs].
  destruct (getConn_safe addr _ Hs) as (Hs1 & _ & Hown).
  destruct (getConn addr (log w (EvPickServer (Key item)))) as [[cn|e] w1];
    cbn [fst snd] in *; [|exact Hs1].
  specialize (Hown cn eq_refl). specialize (Hfn cn item).
  destruct (fn cn item) as [err cn']. cbn [snd] in *. rewrite <- Hfn in Hown.
  now apply condRelease_safe.
Qed.

Lemma step_safe cap j st : fan_safe st -> fan_safe (step cap j st).
Proof.
  intros (Hsafe & Hown & Hdist). unfold step.
  destruct (fo_tasks st !! j) as [[addr keys|cn [|it0 pending] res|err| |]|] eqn:Hj;
    try (split; [|split]; assumption).
  - (* the goroutine takes a connection *)
    destruct (getConn_safe addr (fo_world st) Hsafe) as (Hs & Hkeep & Hnew).
    destruct (getConn addr (fo_world st)) as [[cn|e] w1]; cbn [fst snd] in *.
    + pose proof (getFromAddr_body_same cap keys cn) as [Hid _].
      destruct (getFromAddr_body cap keys cn) as [[got res] cn']. cbn [snd] in Hid.
      specialize (Hnew cn eq_refl). rewrite <- Hid in Hnew.
      split; [exact Hs|]. cbn [fo_world fo_tasks]. split.
      * intros i c p r Hi. destruct (decide (i = j)) as [->|Hne].
        -- rewrite list_lookup_insert_eq in Hi by (eapply lookup_lt_Some, Hj).
           injection Hi as <- <- <-. exact Hnew.
        -- rewrite list_lookup_insert_ne in Hi by congruence.
           apply Hkeep, (Hown i c p r Hi).
      * intros i k ci pi ri ck pk rk Hi Hk E.
        destruct (decide (i = j)) as [->|Hni]; destruct (decide (k = j)) as [->|Hnk];
          try reflexivity.
        -- rewrite list_lookup_insert_eq in Hi by (eapply lookup_lt_Some, Hj).
           rewrite list_lookup_insert_ne in Hk by congruence.
           injection Hi as <- <- <-. exfalso.
           destruct (Hkeep _ (Hown k ck pk rk Hk)) as [_ Hne].
           apply (Hne cn eq_refl). congruence.
        -- rewrite list_lookup_insert_ne in Hi by congruence.
           rewrite list_lookup_insert_eq in Hk by (eapply lookup_lt_Some, Hj).
           injection Hk as <- <- <-. exfalso.
           destruct (Hkeep _ (Hown i ci pi ri Hi)) as [_ Hne].
           apply (Hne cn eq_refl). congruence.
        -- rewrite list_lookup_insert_ne in Hi by congruence.
           rewrite list_lookup_insert_ne in Hk by congruence.
           eapply Hdist; eassumption.
    + split; [exact Hs|]. cbn [fo_world fo_tasks]. split.
      * intros i c p r Hi. destruct (decide (i = j)) as [->|Hne].
        -- rewrite list_lookup_insert_eq in Hi by (eapply lookup_lt_Some, Hj).
           discriminate.
        -- rewrite list_lookup_insert_ne in Hi by congruence.
           apply Hkeep, (Hown i c p r Hi).
      * intros i k ci pi ri ck pk rk Hi Hk E.
        destruct (decide (i = j)) as [->|Hni];
          [rewrite list_lookup_insert_eq in Hi by (eapply lookup_lt_Some, Hj);
           discriminate|].
        destruct (decide (k = j)) as [->|Hnk];
          [rewrite list_lookup_insert_eq in Hk by (eapply lookup_lt_Some, Hj);
           discriminate|].
        rewrite list_lookup_insert_ne in Hi by congruence.
        rewrite list_lookup_insert_ne in Hk by congruence.
        eapply Hdist; eassumption.
  - (* the goroutine gives its connection back *)
    assert (Hrel : forall err,
      fan_safe (mkFanout (condRelease cn err (fo_world st)) (fo_m st)
                  (<[j := match res with Ret e => TSend e | Panic => TPanic end]>
                     (fo_tasks st)) (fo_ch st))).
    { intros err.
      destruct (condRelease_safe cn err (fo_world st) Hsafe (Hown j cn [] res Hj))
        as [Hs Hkeep].
      split; [exact Hs|]. cbn [fo_world fo_tasks]. split.
      - intros i c p r Hi. destruct (decide (i = j)) as [->|Hne].
        + rewrite list_lookup_insert_eq in Hi by (eapply lookup_lt_Some, Hj).
          destruct res; discriminate.
        + rewrite list_lookup_insert_ne in Hi by congruence.
          apply Hkeep; [apply (Hown i c p r Hi)|].
          intros E. apply Hne. eapply Hdist; eassumption.
      - intros i k ci pi ri ck pk rk Hi Hk E.
        destruct (decide (i = j)) as [->|Hni];
          [rewrite list_lookup_insert_eq in Hi by (eapply lookup_lt_Some, Hj);
           destruct res; discriminate|].
        destruct (decide (k = j)) as [->|Hnk];
          [rewrite list_lookup_insert_eq in Hk by (eapply lookup_lt_Some, Hj);
           destruct res; discriminate|].
        rewrite list_lookup_insert_ne in Hi by congruence.
        rewrite list_lookup_insert_ne in Hk by congruence.
        eapply Hdist; eassumption. }
    destruct res as [err|]; [apply (Hrel err) | apply (Hrel None)].
  - (* an item goes into the map *)
    split; [exact Hsafe|]. cbn [fo_world fo_tasks]. split.
    + intros i c p r Hi. destruct (decide (i = j)) as [->|Hne].
      * rewrite list_lookup_insert_eq in Hi by (eapply lookup_lt_Some, Hj).
        injection Hi as <- <- <-. apply (Hown j cn _ res Hj).
      * rewrite list_lookup_insert_ne in Hi by congruence. apply (Hown i c p r Hi).
    + intros i k ci pi ri ck pk rk Hi Hk E.
      destruct (decide (i = j)) as [->|Hni]; destruct (decide (k = j)) as [->|Hnk];
        try reflexivity.
      * rewrite list_lookup_insert_eq in Hi by (eapply lookup_lt_Some, Hj).
        rewrite list_lookup_insert_ne in Hk by congruence.
        injection Hi as <- <- <-. symmetry. eapply Hdist; [exact Hk | exact Hj | congruence].
      * rewrite list_lookup_insert_ne in Hi by congruence.
        rewrite list_lookup_insert_eq in Hk by (eapply lookup_lt_Some, Hj).
        injection Hk as <- <- <-. eapply Hdist; [exact Hi | exact Hj | congruence].
      * rewrite list_lookup_insert_ne in Hi by congruence.
        rewrite list_lookup_insert_ne in Hk by congruence.
        eapply Hdist; eassumption.
  - (* the error is sent *)
    split; [exact Hsafe|]. cbn [fo_world fo_tasks]. split.
    + intros i c p r Hi. destruct (decide (i = j)) as [->|Hne].
      * rewrite list_lookup_insert_eq in Hi by (eapply lookup_lt_Some, Hj). discriminate.
      * rewrite list_lookup_insert_ne in Hi by congruence. apply (Hown i c p r Hi).
    + intros i k ci pi ri ck pk rk Hi Hk E.
      destruct (decide (i = j)) as [->|Hni];
        [rewrite list_lookup_insert_eq in Hi by (eapply lookup_lt_Some, Hj);
         discriminate|].
      destruct (decide (k = j)) as [->|Hnk];
        [rewrite list_lookup_insert_eq in Hk by (eapply lookup_lt_Some, Hj);
         discriminate|].
      rewrite list_lookup_insert_ne in Hi by congruence.
      rewrite list_lookup_insert_ne in Hk by congruence.
      eapply Hdist; eassumption.
Qed.

Lemma fanout_safe cap keyMap sched w :
  pool_safe w -> pool_safe (fo_world (fanout cap keyMap sched w)).
Proof.
  intros Hsafe.
  assert (Hiter : forall i n st, fan_safe st -> fan_safe (Nat.iter n (step cap i) st)).
  { intros i n st H. induction n as [|n IH]; simpl; [exact H | apply step_safe, IH]. }
  assert (Hrun : forall sched st, fan_safe st -> fan_safe (run cap sched st)).
  { intros s. induction s as [|i s IH]; intros st H; [exact H|].
    unfold run in *. simpl. apply IH, step_safe, H. }
  assert (Hfold : forall l st, fan_safe st -> fan_safe (fold_left (finish_task cap) l st)).
  { intros l. induction l as [|i l IH]; intros st H; [exact H|].
    simpl. apply IH. unfold finish_task. apply Hiter, step_safe, H. }
  unfold fanout, finish. apply Hfold, Hrun.
  split; [exact Hsafe|]. cbn [fo_world fo_tasks]. split.
  - intros i cn p r Hi. apply list_lookup_fmap_Some in Hi.
    destruct Hi as (b & Hb & _). discriminate.
  - intros i j ci pi ri cj pj rj Hi. apply list_lookup_fmap_Some in Hi.
    destruct Hi as (b & Hb & _). discriminate.
Qed.

Lemma partition_keys_safe keys :
  forall keyMap w, pool_safe w -> pool_safe (snd (partition_keys keys keyMap w)).
Proof.
  induction keys as [|key keys IH]; intros keyMap w H; simpl; [exact H|].
  destruct (negb (legalKey key)); [exact H|]. unfold PickServer.
  destruct (log_safe w (EvPickServer key) ltac:(discriminate) H) as [Hs _].
  destruct (selector (client w) key) as [addr|e]; cbn [snd]; [now apply IH | exact Hs].
Qed.

Lemma exec_safe cap c w : pool_safe w -> pool_safe (exec cap c w).
Proof.
  intros H. destruct c as [key|keys sched|item|item|item|key|key delta|key delta];
    unfold exec.
  - unfold Get.
    pose proof (withKeyAddr_safe key (fun addr => getFromAddr cap addr [key]) [] w
                  (fun addr w' Hw' =>
                     withAddrRw_safe addr (getFromAddr_body cap [key]) [] w'
                       (fun cn => proj1 (getFromAddr_body_same cap [key] cn)) Hw') H) as Hg.
    destruct (withKeyAddr key _ [] w) as [[got res] w1].
    destruct res as [[e|]|]; destruct (last got); exact Hg.
  - unfold GetMulti.
    pose proof (partition_keys_safe keys [] w H) as Hp.
    destruct (partition_keys keys [] w) as [[keyMap|e] w1]; cbn [snd] in *; [|exact Hp].
    now apply fanout_safe.
  - apply onItem_safe; [|exact H]. intros cn it. apply populateOne_cid.
  - apply onItem_safe; [|exact H]. intros cn it. apply populateOne_cid.
  - apply onItem_safe; [|exact H]. intros cn it. apply populateOne_cid.
  - unfold Delete, withKeyRw.
    match goal with |- context [withKeyAddr key ?fn tt w] =>
      assert (Hg : pool_safe (snd (withKeyAddr key fn tt w)));
      [|destruct (withKeyAddr key fn tt w) as [[u res] w1]; exact Hg] end.
    apply withKeyAddr_safe; [|exact H]. intros addr w' Hw'.
    apply withAddrRw_safe; [|exact Hw']. intros cn.
    pose proof (writeExpectf_cid cn resultDeleted (bytes "delete " ++ bytes key ++ crlf)) as E.
    destruct (writeExpectf cn _ _) as [err cn']. exact E.
  - unfold Increment, incrDecr, withKeyRw.
    apply withKeyAddr_safe; [|exact H]. intros addr w' Hw'.
    apply withAddrRw_safe; [|exact Hw']. intros cn. apply incrDecr_body_cid.
  - unfold Decrement, incrDecr, withKeyRw.
    apply withKeyAddr_safe; [|exact H]. intros addr w' Hw'.
    apply withAddrRw_safe; [|exact Hw']. intros cn. apply incrDecr_body_cid.
Qed.

(** X13: Whatever calls a new client serves, one after the other (with the
    goroutines of each [GetMulti] interleaved in any way), its pool
    stays sound: every idle connection is filed under the address it was
    dialed for, it comes from a dial that was made, its transport is open,
    and no transport is in the pool twice; and only transports that
    were dialed are ever closed. *)
Theorem pool_stays_safe (cap : nat -> nat) (calls : list Call) (w0 : World) :
  freeconn (client w0) = None ->
  events w0 = [] ->
  pool_safe (fold_left (fun w c => exec cap c w) calls w0).
Proof.
  intros Hnil Hev.
  assert (H0 : pool_safe w0).
  { assert (Hidle : forall a, idle w0 a = []).
    { intros a. unfold idle. rewrite Hnil. cbn. now rewrite lookup_empty. }
    split; [|split].
    - intros a cn Hin. rewrite Hidle in Hin. apply elem_of_nil in Hin. contradiction.
    - intros a b i j c1 c2 Hi. rewrite Hidle in Hi. discriminate.
    - intros id Hc. unfold closed in Hc. rewrite Hev in Hc.
      apply elem_of_nil in Hc. contradiction. }
  clear Hnil Hev. revert w0 H0.
  induction calls as [|c calls IH]; intros w H; [exact H|].
  simpl. apply IH, exec_safe, H.
Qed.

(** ** What the end of a parse says about the stream *)

Lemma ReadAll_LimitReader_shape r n v err r2 :
  ReadAll_LimitReader r n = (v, err, r2) ->
  rd_data r = v ++ rd_data r2 /\ rd_end r2 = rd_end r /\
  (forall e, err = Some e -> e = rd_end r).
Proof.
  unfold ReadAll_LimitReader.
  destruct (Z.to_nat n <=? length (rd_data r)).
  - intros [= <- <- <-]. cbn. rewrite take_drop. repeat split. discriminate.
  - intros [= <- <- <-]. cbn. rewrite app_nil_r. repeat split.
    intros e. destruct (rd_end r); try discriminate; now intros [= <-].
Qed.

Lemma ReadSlice_error r line e r' :
  ReadSlice r = (line, Some e, r') -> e = bufio_ErrBufferFull \/ e = rd_end r.
Proof.
  unfold ReadSlice.
  destruct (index_byte LF (take defaultBufSize (rd_data r))); [discriminate|].
  destruct (defaultBufSize <=? length (rd_data r)); intros [= _ <- _]; auto.
Qed.

Lemma scanGetResponseLine_error line it size e it' :
  scanGetResponseLine line it = (size, Some e, it') ->
  e = Errorf fmt_unexpected_get [line].
Proof.
  unfold scanGetResponseLine.
  destruct (bytes_Count1 line SP =? 3);
    destruct (Sscanf _ _ _) as [got ok];
    destruct (negb ok || negb (length got =? _)); try (now intros [= _ <- _]);
    destruct got as [|[k|z] [|[k2|fl] [|[k3|sz] [|[k4|c4] [|? ?]]]]];
    try (now intros [= _ <- _]); discriminate.
Qed.

Lemma parse_loop_outcome cap turns :
  forall r got0 got res r',
    parseGetResponse_loop cap turns r got0 = (got, res, r') ->
    (res = Ret None ->
     exists prefix, rd_data r = prefix ++ resultEnd ++ rd_data r' /\
                    rd_end r' = rd_end r) /\
    (forall e, res = Ret (Some e) ->
     e = rd_end r \/ e = bufio_ErrBufferFull \/ e = err_corrupt \/
     exists line, e = Errorf fmt_unexpected_get [line]).
Proof.
  induction turns as [|turns IH]; intros r got0 got res r'; simpl.
  - intros [= _ <- _]. split; [discriminate | intros e; discriminate].
  - destruct (ReadSlice r) as [[line err] r1] eqn:Hread.
    destruct err as [e0|].
    { intros [= _ <- _]. split; [discriminate|]. intros e [= <-].
      destruct (ReadSlice_error _ _ _ _ Hread); auto. }
    destruct (ReadSlice_shape _ _ _ Hread) as (pre & _ & Hdata & Hend).
    destruct (bytes_Equal line resultEnd) eqn:Eend.
    { intros [= _ <- <-]. apply bytes_Equal_spec in Eend. subst line.
      split; [|intros e; discriminate]. intros _. exists []. auto. }
    destruct (scanGetResponseLine line newItem) as [[size err] it] eqn:Hscan.
    destruct err as [e0|].
    { intros [= _ <- _]. split; [discriminate|]. intros e [= <-].
      apply scanGetResponseLine_error in Hscan. eauto. }
    destruct (ReadAll_LimitReader r1 (int64 (size + 2))) as [[value err] r2] eqn:Hall.
    destruct (ReadAll_LimitReader_shape _ _ _ _ _ Hall) as (Hdata2 & Hend2 & Herr2).
    destruct err as [e0|].
    { intros [= _ <- _]. split; [discriminate|]. intros e [= <-].
      left. rewrite (Herr2 e0 eq_refl). exact Hend. }
    destruct (negb (bytes_HasSuffix value crlf)).
    { intros [= _ <- _]. split; [discriminate|]. intros e [= <-]. auto. }
    destruct (sliceTo cap value size).
    + intros Hrec. destruct (IH _ _ _ _ _ Hrec) as [Hnil Herr]. split.
      * intros Hres. destruct (Hnil Hres) as (prefix & Hp & He).
        exists (line ++ value ++ prefix).
        rewrite Hdata, Hdata2, Hp, <- !app_assoc. split; [reflexivity | congruence].
      * intros e He. destruct (Herr e He) as [->|H]; [left; congruence | auto].
    + intros [= _ <- _]. split; [discriminate | intros e; discriminate].
Qed.

(** X2: How [parseGetResponse] can end.  With a nil error, it has consumed
    the stream up to and including an [END] line, and the reader is
    left on the byte after it.  With an error, the error is the
    transport's, a full buffer, or one made from the corrupt response:
    never one of the resumable errors (unless the transport itself
    reports one), so the connection is closed, not pooled. *)
Theorem parseGetResponse_outcome
    (cap : nat -> nat) (r r' : Reader) (got : list Item) (res : Res (option error)) :
  parseGetResponse cap r = (got, res, r') ->
  (res = Ret None ->
   exists prefix, rd_data r = prefix ++ resultEnd ++ rd_data r' /\
                  rd_end r' = rd_end r) /\
  (forall e, res = Ret (Some e) ->
     resumableError (rd_end r) = false -> resumableError e = false).
Proof.
  intros Hparse. unfold parseGetResponse in Hparse.
  destruct (parse_loop_outcome cap _ _ _ _ _ _ Hparse) as [Hnil Herr].
  split; [exact Hnil|].
  intros e He Hend.
  destruct (Herr e He) as [->|[->|[->|[line ->]]]]; try reflexivity. exact Hend.
Qed.

(** ** Statistics responses *)

Lemma token_head t rest :
  token t -> exists d tl, map code t ++ rest = d :: tl /\ isSpace d = false.
Proof.
  intros [Hne Ht]. destruct t as [|d t]; [contradiction|].
  exists (code d), (map code t ++ rest). split; [reflexivity|].
  simpl in Ht. apply andb_true_iff in Ht. destruct Ht as [Hd _].
  now apply wordByte_notSpace.
Qed.

Lemma token_ascii t c : token t -> In c t -> (code c < 0x80)%Z.
Proof.
  intros [_ Ht] Hc. apply (forallb_ascii wordByte _ wordByte_ascii Ht c Hc).
Qed.

Lemma token_no_LF t c : token t -> In c t -> byte_eqb c LF = false.
Proof.
  intros [_ Ht] Hc. rewrite forallb_forall in Ht. specialize (Ht c Hc).
  apply wordByte_notSpace in Ht.
  destruct (byte_eqb c LF) eqn:E; [|reflexivity].
  apply byte_eqb_spec in E. subst c. discriminate.
Qed.

Lemma scan_stat_line n v :
  token n -> token v ->
  Sscanf (gostring (stat_line n v)) (String.append "STAT %s %s" (gostring crlf))
         [DString; DString]
  = ([VString n; VString v], true).
Proof.
  intros Hn Hv.
  unfold Sscanf. cbv zeta.
  set (fmt := runes (bytes _)). vm_compute in fmt. subst fmt.
  set (k := S _). vm_compute in k. subst k.
  unfold bytes, gostring. rewrite list_ascii_of_string_of_list_ascii.
  rewrite runes_ascii.
  2:{ unfold stat_line. intros c Hin.
      repeat (apply in_app_or in Hin; destruct Hin as [Hin|Hin]);
        try (eapply token_ascii; [|exact Hin]; assumption);
        simpl in Hin; intuition (subst; reflexivity). }
  unfold stat_line. rewrite !map_app.
  change (map code (bytes "STAT ")) with [83; 84; 65; 84; 32]%Z.
  change (map code [SP]) with [32%Z]. change (map code crlf) with [13; 10]%Z.
  cbn [app].
  do 4 (rewrite doScanf_lit by reflexivity).
  destruct (token_head n (32 :: map code v ++ [13; 10])%Z Hn) as (d1 & t1 & E1 & S1).
  destruct (token_head v [13; 10]%Z Hv) as (d2 & t2 & E2 & S2).
  rewrite E1, doScanf_blank by (reflexivity || exact S1).
  rewrite <- E1, doScanf_verb, scanOne_string by (apply Hn || reflexivity).
  rewrite E2, doScanf_blank by (reflexivity || exact S2).
  rewrite <- E2, doScanf_verb.
  rewrite scanOne_string by (apply Hv || reflexivity).
  reflexivity.
Qed.

Lemma scan_slab_line i n v :
  (0 <= i < 2 ^ 63)%Z -> token n -> token v ->
  Sscanf (gostring (slab_line i n v)) (String.append "STAT %d:%s %s" (gostring crlf))
         [DInt 64; DString; DString]
  = ([VNum i; VString n; VString v], true).
Proof.
  intros Hi Hn Hv.
  unfold Sscanf. cbv zeta.
  set (fmt := runes (bytes _)). vm_compute in fmt. subst fmt.
  set (k := S _). vm_compute in k. subst k.
  unfold bytes, gostring. rewrite list_ascii_of_string_of_list_ascii.
  rewrite runes_ascii.
  2:{ unfold slab_line. intros c Hin.
      repeat (apply in_app_or in Hin; destruct Hin as [Hin|Hin]);
        try (eapply token_ascii; [|exact Hin]; assumption);
        try (apply fmt_d_ascii in Hin; [exact Hin | lia]);
        simpl in Hin; intuition (subst; reflexivity). }
  unfold slab_line. rewrite !map_app.
  change (map code (bytes "STAT ")) with [83; 84; 65; 84; 32]%Z.
  change (map code [SP]) with [32%Z]. change (map code crlf) with [13; 10]%Z.
  change (map code [COLON]) with [58%Z].
  cbn [app].
  do 4 (rewrite doScanf_lit by reflexivity).
  destruct (fmt_d_head i (58 :: map code n ++ 32 :: map code v ++ [13; 10])%Z)
    as (d0 & t0 & E0 & S0); [lia|].
  destruct (token_head v [13; 10]%Z Hv) as (d2 & t2 & E2 & S2).
  rewrite E0, doScanf_blank by (reflexivity || exact S0).
  rewrite <- E0, doScanf_verb, scanOne_int by (assumption || reflexivity).
  rewrite doScanf_lit by reflexivity.
  rewrite doScanf_verb, scanOne_string by (apply Hn || reflexivity).
  rewrite E2, doScanf_blank by (reflexivity || exact S2).
  rewrite <- E2, doScanf_verb.
  rewrite scanOne_string by (apply Hv || reflexivity).
  reflexivity.
Qed.

Lemma scan_items_line i n v :
  (0 <= i < 2 ^ 63)%Z -> token n -> token v ->
  Sscanf (gostring (items_line i n v))
         (String.append "STAT items:%d:%s %s" (gostring crlf))
         [DInt 64; DString; DString]
  = ([VNum i; VString n; VString v], true).
Proof.
  intros Hi Hn Hv.
  unfold Sscanf. cbv zeta.
  set (fmt := runes (bytes _)). vm_compute in fmt. subst fmt.
  set (k := S _). vm_compute in k. subst k.
  unfold bytes, gostring. rewrite list_ascii_of_string_of_list_ascii.
  rewrite runes_ascii.
  2:{ unfold items_line. intros c Hin.
      repeat (apply in_app_or in Hin; destruct Hin as [Hin|Hin]);
        try (eapply token_ascii; [|exact Hin]; assumption);
        try (apply fmt_d_ascii in Hin; [exact Hin | lia]);
        simpl in Hin; intuition (subst; reflexivity). }
  unfold items_line. rewrite !map_app.
  change (map code (bytes "STAT items:"))
    with [83; 84; 65; 84; 32; 105; 116; 101; 109; 115; 58]%Z.
  change (map code [SP]) with [32%Z]. change (map code crlf) with [13; 10]%Z.
  change (map code [COLON]) with [58%Z].
  cbn [app].
  do 4 (rewrite doScanf_lit by reflexivity).
  rewrite doScanf_blank by reflexivity.
  do 6 (rewrite doScanf_lit by reflexivity).
  destruct (token_head v [13; 10]%Z Hv) as (d2 & t2 & E2 & S2).
  rewrite doScanf_verb, scanOne_int by (assumption || reflexivity).
  rewrite doScanf_lit by reflexivity.
  rewrite doScanf_verb, scanOne_string by (apply Hn || reflexivity).
  rewrite E2, doScanf_blank by (reflexivity || exact S2).
  rewrite <- E2, doScanf_verb.
  rewrite scanOne_string by (apply Hv || reflexivity).
  reflexivity.
Qed.

Lemma ReadSlice_crlf_line body rest e :
  (forall c, In c body -> byte_eqb c LF = false) ->
  length (body ++ crlf) <= defaultBufSize ->
  ReadSlice (mkReader ((body ++ crlf) ++ rest) e)
  = (body ++ crlf, None, mkReader rest e).
Proof.
  intros Hbody Hlen.
  replace ((body ++ crlf) ++ rest) with ((body ++ [CR]) ++ LF :: rest)
    by (unfold crlf; rewrite <- !app_assoc; reflexivity).
  replace (body ++ crlf) with ((body ++ [CR]) ++ [LF]) in *
    by (unfold crlf; rewrite <- !app_assoc; reflexivity).
  apply ReadSlice_line.
  - intros x Hx. apply in_app_or in Hx. destruct Hx as [Hx|[<-|[]]]; [auto | reflexivity].
  - rewrite length_app in Hlen. change (length [LF]) with 1 in Hlen. lia.
Qed.

Lemma parseStatsResponse_loop_turns turns :
  forall r keyMap k,
    length (rd_data r) < turns ->
    parseStatsResponse_loop (turns + k) r keyMap
    = parseStatsResponse_loop turns r keyMap.
Proof.
  induction turns as [|turns IH]; intros r keyMap k Hlen; [lia|].
  simpl.
  destruct (ReadSlice r) as [[line err] r1] eqn:Hread.
  destruct err as [e|]; [reflexivity|].
  destruct (bytes_Equal line resultEnd); [reflexivity|].
  destruct (Sscanf _ _ _) as [got ok].
  destruct (negb ok || negb (length got =? 2)); [reflexivity|].
  destruct got as [|[key|z] [|[value|z'] [|? ?]]]; try reflexivity.
  apply IH. apply ReadSlice_consumes in Hread. lia.
Qed.

Lemma parse_stat_line n v rest e keyMap :
  stat_ok (n, v) ->
  parseStatsResponse_loop (S (length (stat_line n v ++ rest)))
    (mkReader (stat_line n v ++ rest) e) keyMap
  = parseStatsResponse_loop (S (length rest)) (mkReader rest e)
      (store_stat keyMap (n, v)).
Proof.
  intros (Hn & Hv & Hlen). cbn [fst snd] in *.
  assert (Hread : ReadSlice (mkReader (stat_line n v ++ rest) e)
                  = (stat_line n v, None, mkReader rest e)).
  { unfold stat_line in *.
    replace (bytes "STAT " ++ n ++ [SP] ++ v ++ crlf)
      with ((bytes "STAT " ++ n ++ [SP] ++ v) ++ crlf) in *
      by (rewrite <- !app_assoc; reflexivity).
    apply ReadSlice_crlf_line; [no_LF_by token_no_LF byte_eqb_neq fmt_d_codes | exact Hlen]. }
  cbn [parseStatsResponse_loop]. rewrite Hread.
  replace (bytes_Equal (stat_line n v) resultEnd) with false by reflexivity.
  rewrite (scan_stat_line n v Hn Hv). cbn [negb orb length Nat.eqb].
  rewrite length_app.
  replace (length (stat_line n v) + length rest)
    with (S (length rest) + (length (stat_line n v) - 1)).
  - apply parseStatsResponse_loop_turns. cbn [rd_data]. lia.
  - unfold stat_line. rewrite length_app.
    change (length (bytes "STAT ")) with 5. lia.
Qed.

(** X14: [parseStatsResponse] reads back a response made of [STAT] lines of
    two ASCII words and [END]: every pair is stored in the map, a later line
    replacing an earlier one of the same name, the result is nil and the
    reader is left right after [END].  With no line before [END] the
    map is returned as it was. *)
Theorem parseStatsResponse_roundtrip
    (pairs : list (list byte * list byte)) (rest : list byte) (e : error)
    (keyMap : gmap string (list byte)) :
  Forall stat_ok pairs ->
  parseStatsResponse
    (mkReader (concat (map (fun p => stat_line (fst p) (snd p)) pairs)
               ++ resultEnd ++ rest) e) keyMap
  = (fold_left store_stat pairs keyMap, Ret None, mkReader rest e).
Proof.
  intros Hall. unfold parseStatsResponse. cbn [rd_data].
  revert keyMap. induction Hall as [|[n v] pairs Hp Hall IH]; intros keyMap.
  - change (concat (map _ [])) with (@nil byte).
    change ([] ++ resultEnd ++ rest) with (resultEnd ++ rest).
    cbn [parseStatsResponse_loop]. rewrite ReadSlice_END, bytes_Equal_refl.
    reflexivity.
  - cbn [map concat fst snd fold_left]. rewrite <- app_assoc.
    rewrite (parse_stat_line n v _ e keyMap Hp). apply IH.
Qed.

Lemma bytes_Count1_pos l c : In c l -> bytes_Count1 l c <> 0.
Proof.
  intros Hin. apply in_split in Hin. destruct Hin as (a & b & ->).
  rewrite bytes_Count1_app.
  change (c :: b) with ([c] ++ b). rewrite bytes_Count1_app.
  assert (bytes_Count1 [c] c = 1).
  { unfold bytes_Count1. rewrite filter_cons.
    destruct (decide (byte_eqb c c = true)) as [|N]; [reflexivity|].
    exfalso. apply N. now apply byte_eqb_spec. }
  lia.
Qed.

Lemma parseStatsSlabsResponse_loop_turns turns :
  forall r slabMap k,
    length (rd_data r) < turns ->
    parseStatsSlabsResponse_loop (turns + k) r slabMap
    = parseStatsSlabsResponse_loop turns r slabMap.
Proof.
  induction turns as [|turns IH]; intros r slabMap k Hlen; [lia|].
  simpl.
  destruct (ReadSlice r) as [[line err] r1] eqn:Hread.
  destruct err as [e|]; [reflexivity|].
  apply ReadSlice_consumes in Hread.
  destruct (bytes_Equal line resultEnd); [reflexivity|].
  destruct (bytes_Count1 line COLON =? 0); [apply IH; lia|].
  destruct (Sscanf _ _ _) as [got ok].
  destruct (negb ok || negb (length got =? 3)); [reflexivity|].
  destruct got as [|[key|i] [|[n|z] [|[v|z'] [|? ?]]]]; try reflexivity.
  apply IH. lia.
Qed.

Lemma parseStatsItemsResponse_loop_turns turns :
  forall r slabMap k,
    length (rd_data r) < turns ->
    parseStatsItemsResponse_loop (turns + k) r slabMap
    = parseStatsItemsResponse_loop turns r slabMap.
Proof.
  induction turns as [|turns IH]; intros r slabMap k Hlen; [lia|].
  simpl.
  destruct (ReadSlice r) as [[line err] r1] eqn:Hread.
  destruct err as [e|]; [reflexivity|].
  apply ReadSlice_consumes in Hread.
  destruct (bytes_Equal line resultEnd); [reflexivity|].
  destruct (Sscanf _ _ _) as [got ok].
  destruct (negb ok || negb (length got =? 3)); [reflexivity|].
  destruct got as [|[key|i] [|[n|z] [|[v|z'] [|? ?]]]]; try reflexivity.
  apply IH. lia.
Qed.

Lemma parse_slab_wire l rest e slabMap :
  slab_ok l ->
  parseStatsSlabsResponse_loop (S (length (slab_wire l ++ rest)))
    (mkReader (slab_wire l ++ rest) e) slabMap
  = parseStatsSlabsResponse_loop (S (length rest)) (mkReader rest e)
      (slab_store slabMap l).
Proof.
  intros [Hlen Hok].
  assert (Hturns : forall m,
    parseStatsSlabsResponse_loop (length (slab_wire l ++ rest)) (mkReader rest e) m
    = parseStatsSlabsResponse_loop (S (length rest)) (mkReader rest e) m).
  { intros m. rewrite length_app.
    assert (2 <= length (slab_wire l)).
    { destruct l; unfold slab_wire, slab_line; rewrite ?length_app;
        change (length crlf) with 2; change (length (bytes "STAT ")) with 5; lia. }
    replace (length (slab_wire l) + length rest)
      with (S (length rest) + (length (slab_wire l) - 1)) by lia.
    apply parseStatsSlabsResponse_loop_turns. cbn [rd_data]. lia. }
  destruct l as [body|i n v]; cbn [slab_wire slab_store] in *.
  - destruct Hok as [Hbody Hne].
    cbn [parseStatsSlabsResponse_loop].
    rewrite ReadSlice_crlf_line; [|intros c Hc; apply byte_eqb_neq;
      destruct (Hbody c Hc) as [H _]; intros E; apply H;
      apply (f_equal ascii_of_nat) in E; now rewrite !ascii_nat_embedding in E|exact Hlen].
    rewrite (bytes_Equal_neq _ _ Hne).
    rewrite bytes_Count1_app, (bytes_Count1_none body).
    + change (bytes_Count1 crlf COLON) with 0. cbn [Nat.add Nat.eqb]. apply Hturns.
    + intros c Hc. apply byte_eqb_neq. destruct (Hbody c Hc) as [_ H]. intros E. apply H.
      apply (f_equal ascii_of_nat) in E. now rewrite !ascii_nat_embedding in E.
  - destruct Hok as (Hi & Hn & Hv).
    assert (Hread : ReadSlice (mkReader (slab_line i n v ++ rest) e)
                    = (slab_line i n v, None, mkReader rest e)).
    { unfold slab_line in *.
      replace (bytes "STAT " ++ fmt_d i ++ [COLON] ++ n ++ [SP] ++ v ++ crlf)
        with ((bytes "STAT " ++ fmt_d i ++ [COLON] ++ n ++ [SP] ++ v) ++ crlf) in *
        by (rewrite <- !app_assoc; reflexivity).
      apply ReadSlice_crlf_line; [no_LF_by token_no_LF byte_eqb_neq fmt_d_codes | exact Hlen]. }
    cbn [parseStatsSlabsResponse_loop]. rewrite Hread.
    replace (bytes_Equal (slab_line i n v) resultEnd) with false by reflexivity.
    destruct (Nat.eqb_spec (bytes_Count1 (slab_line i n v) COLON) 0) as [E|_].
    { exfalso. revert E. apply bytes_Count1_pos. unfold slab_line.
      apply in_or_app. right. apply in_or_app. right. now left. }
    rewrite (scan_slab_line i n v Hi Hn Hv). cbn [negb orb length Nat.eqb].
    apply Hturns.
Qed.

Lemma parse_items_line t rest e slabMap :
  item_stat_ok t ->
  parseStatsItemsResponse_loop
    (S (length (items_line (fst (fst t)) (snd (fst t)) (snd t) ++ rest)))
    (mkReader (items_line (fst (fst t)) (snd (fst t)) (snd t) ++ rest) e) slabMap
  = parseStatsItemsResponse_loop (S (length rest)) (mkReader rest e)
      (item_stat_store slabMap t).
Proof.
  destruct t as [[i n] v]. intros (Hi & Hn & Hv & Hlen). cbn [fst snd] in *.
  assert (Hread : ReadSlice (mkReader (items_line i n v ++ rest) e)
                  = (items_line i n v, None, mkReader rest e)).
  { unfold items_line in *.
    replace (bytes "STAT items:" ++ fmt_d i ++ [COLON] ++ n ++ [SP] ++ v ++ crlf)
      with ((bytes "STAT items:" ++ fmt_d i ++ [COLON] ++ n ++ [SP] ++ v) ++ crlf) in *
      by (rewrite <- !app_assoc; reflexivity).
    apply ReadSlice_crlf_line; [no_LF_by token_no_LF byte_eqb_neq fmt_d_codes | exact Hlen]. }
  cbn [parseStatsItemsResponse_loop]. rewrite Hread.
  replace (bytes_Equal (items_line i n v) resultEnd) with false by reflexivity.
  rewrite (scan_items_line i n v Hi Hn Hv). cbn [negb orb length Nat.eqb].
  rewrite length_app.
  assert (11 <= length (items_line i n v)).
  { unfold items_line. rewrite length_app.
    change (length (bytes "STAT items:")) with 11. lia. }
  replace (length (items_line i n v) + length rest)
    with (S (length rest) + (length (items_line i n v) - 1)) by lia.
  apply parseStatsItemsResponse_loop_turns. cbn [rd_data]. lia.
Qed.

Lemma parseStatsSlabsResponse_lines lines rest e slabMap :
  Forall slab_ok lines ->
  parseStatsSlabsResponse
    (mkReader (concat (map slab_wire lines) ++ resultEnd ++ rest) e) slabMap
  = (fold_left slab_store lines slabMap, Ret None, mkReader rest e).
Proof.
  intros Hall. unfold parseStatsSlabsResponse. cbn [rd_data].
  revert slabMap. induction Hall as [|l lines Hl Hall IH]; intros slabMap.
  - change (concat (map _ [])) with (@nil byte).
    change ([] ++ resultEnd ++ rest) with (resultEnd ++ rest).
    cbn [parseStatsSlabsResponse_loop]. rewrite ReadSlice_END, bytes_Equal_refl.
    reflexivity.
  - cbn [map concat fold_left]. rewrite <- app_assoc.
    rewrite (parse_slab_wire l _ e slabMap Hl). apply IH.
Qed.

Lemma parseStatsItemsResponse_lines lines rest e slabMap :
  Forall item_stat_ok lines ->
  parseStatsItemsResponse
    (mkReader
       (concat (map (fun t => items_line (fst (fst t)) (snd (fst t)) (snd t)) lines)
        ++ resultEnd ++ rest) e) slabMap
  = (fold_left item_stat_store lines slabMap, Ret None, mkReader rest e).
Proof.
  intros Hall. unfold parseStatsItemsResponse. cbn [rd_data].
  revert slabMap. induction Hall as [|l lines Hl Hall IH]; intros slabMap.
  - change (concat (map _ [])) with (@nil byte).
    change ([] ++ resultEnd ++ rest) with (resultEnd ++ rest).
    cbn [parseStatsItemsResponse_loop]. rewrite ReadSlice_END, bytes_Equal_refl.
    reflexivity.
  - cbn [map concat fold_left]. rewrite <- app_assoc.
    rewrite (parse_items_line l _ e slabMap Hl). apply IH.
Qed.

Lemma statsFromAddr_body_request {M} argument
    (fn : Reader -> M -> (M * Res (option error)) * Reader) (m0 : M) cn :
  wfail cn = None ->
  exists cn',
    statsFromAddr_body argument fn m0 cn =
    (fst (fst (fn (rd cn) m0)), snd (fst (fn (rd cn) m0)),
     set_rd cn' (snd (fn (rd cn) m0))) /\
    cid cn' = cid cn /\ caddr cn' = caddr cn /\ wbuf cn' = [] /\ wfail cn' = None /\
    sent cn' = sent cn ++ wbuf cn ++ bytes "stats " ++ bytes argument ++ crlf.
Proof.
  intros Hw. unfold statsFromAddr_body, rw_Write.
  set (req := bytes "stats " ++ bytes argument ++ crlf).
  destruct (length (wbuf cn) + length req <=? defaultBufSize).
  - unfold rw_Flush. cbn [wfail]. rewrite Hw. cbn [rd].
    eexists. split.
    + destruct (fn (rd cn) m0) as [[got res] r]. reflexivity.
    + cbn. repeat split; try now rewrite <- app_assoc.
  - rewrite Hw. unfold rw_Flush. cbn [wfail rd].
    eexists. split.
    + destruct (fn (rd cn) m0) as [[got res] r]. reflexivity.
    + cbn. repeat split; try now rewrite app_nil_r.
Qed.

(** X15: [StatsSlabs] against a server that answers with slab lines
    [STAT <index>:<name> <value>] (name and value ASCII words), lines
    without a colon (the totals, which the parser skips) and [END]: the
    request [stats slabs] is all that is sent, the map returned holds under each index the
    name/value pairs of its lines (a later line replacing an earlier
    one of the same index and name), and the connection goes back to
    the pool with its reader right after [END]. *)
Theorem StatsSlabs_roundtrip
    (addr : Addr) (w w2 : World) (cn : conn)
    (lines : list SlabLine) (rest : list byte) (e : error) :
  getConn addr w = (inl cn, w2) ->
  wfail cn = None ->
  rd cn = mkReader (concat (map slab_wire lines) ++ resultEnd ++ rest) e ->
  Forall slab_ok lines ->
  exists cn',
    StatsSlabs addr w
    = (Ret (Some (fold_left slab_store lines ∅), None), release cn' w2) /\
    rd cn' = mkReader rest e /\ cid cn' = cid cn /\ caddr cn' = caddr cn /\
    wbuf cn' = [] /\
    sent cn' = sent cn ++ wbuf cn ++ bytes "stats slabs" ++ crlf.
Proof.
  intros Hconn Hw Hrd Hall.
  destruct (statsFromAddr_body_request "slabs" parseStatsSlabsResponse ∅ cn Hw)
    as (cn1 & Hbody & Hid & Haddr & Hbuf & _ & Hsent).
  rewrite Hrd, (parseStatsSlabsResponse_lines lines rest e ∅ Hall) in Hbody.
  cbn [fst snd] in Hbody.
  exists (set_rd cn1 (mkReader rest e)). split; [|now repeat split].
  unfold StatsSlabs, statsFromAddr, withAddrRw. rewrite Hconn, Hbody. reflexivity.
Qed.

(** X16: [StatsItems] against a server that answers with lines
    [STAT items:<index>:<name> <value>] (name and value ASCII words)
    and [END]: the request
    [stats items] is all that is sent, the map returned holds under
    each index the name/value pairs of its lines, and the connection
    goes back to the pool with its reader right after [END]. *)
Theorem StatsItems_roundtrip
    (addr : Addr) (w w2 : World) (cn : conn)
    (lines : list (Z * list byte * list byte)) (rest : list byte) (e : error) :
  getConn addr w = (inl cn, w2) ->
  wfail cn = None ->
  rd cn = mkReader
            (concat (map (fun t => items_line (fst (fst t)) (snd (fst t)) (snd t)) lines)
             ++ resultEnd ++ rest) e ->
  Forall item_stat_ok lines ->
  exists cn',
    StatsItems addr w
    = (Ret (Some (fold_left item_stat_store lines ∅), None), release cn' w2) /\
    rd cn' = mkReader rest e /\ cid cn' = cid cn /\ caddr cn' = caddr cn /\
    wbuf cn' = [] /\
    sent cn' = sent cn ++ wbuf cn ++ bytes "stats items" ++ crlf.
Proof.
  intros Hconn Hw Hrd Hall.
  destruct (statsFromAddr_body_request "items" parseStatsItemsResponse ∅ cn Hw)
    as (cn1 & Hbody & Hid & Haddr & Hbuf & _ & Hsent).
  rewrite Hrd, (parseStatsItemsResponse_lines lines rest e ∅ Hall) in Hbody.
  cbn [fst snd] in Hbody.
  exists (set_rd cn1 (mkReader rest e)). split; [|now repeat split].
  unfold StatsItems, statsFromAddr, withAddrRw. rewrite Hconn, Hbody. reflexivity.
Qed.

(** ** The request of a store operation *)

Lemma rw_Write_stream cn p :
  wfail cn = None ->
  exists cn', rw_Write cn p = (None, cn') /\ wfail cn' = None /\ rd cn' = rd cn /\
              cid cn' = cid cn /\ caddr cn' = caddr cn /\
              sent cn' ++ wbuf cn' = sent cn ++ wbuf cn ++ p.
Proof.
  intros Hw. unfold rw_Write.
  destruct (length (wbuf cn) + length p <=? defaultBufSize).
  - eexists. split; [reflexivity|]. cbn. repeat split; try assumption.
  - rewrite Hw. eexists. split; [reflexivity|]. cbn.
    repeat split. now rewrite app_nil_r.
Qed.

(** X4: A store operation over a working transport puts on the wire, after
    what was sent or buffered before, exactly one request: the header
    [verb key flags exptime bytes], with the compare-and-swap id for
    [cas] alone, the line end, the value as it is, and the line end;
    the length in the header is the length of the value, and nothing
    stays in the write buffer, whatever the size of the value. *)
Theorem store_request_on_wire (cn : conn) (verb : string) (item : Item) :
  legalKey (Key item) = true ->
  wfail cn = None ->
  let cn' := snd (populateOne cn verb item) in
  sent cn' =
    sent cn ++ wbuf cn
    ++ bytes verb ++ [SP] ++ bytes (Key item) ++ [SP] ++ fmt_d (Flags item)
    ++ [SP] ++ fmt_d (Expiration item) ++ [SP]
    ++ fmt_d (Z.of_nat (length (Value item)))
    ++ (if String.eqb verb "cas" then [SP] ++ fmt_d (casid item) else [])
    ++ crlf ++ Value item ++ crlf /\
  wbuf cn' = [] /\ cid cn' = cid cn /\ caddr cn' = caddr cn.
Proof.
  intros Hkey Hw cn'. subst cn'. unfold populateOne. rewrite Hkey. cbn [negb].
  match goal with |- context [rw_Write cn ?h] => set (header := h) end.
  destruct (rw_Write_stream cn header Hw) as (cn1 & E1 & Hw1 & Hr1 & Hi1 & Ha1 & Hs1).
  destruct (rw_Write_stream cn1 (Value item) Hw1)
    as (cn2 & E2 & Hw2 & Hr2 & Hi2 & Ha2 & Hs2).
  destruct (rw_Write_stream cn2 crlf Hw2) as (cn3 & E3 & Hw3 & Hr3 & Hi3 & Ha3 & Hs3).
  unfold andThen. rewrite E1, E2, E3. unfold rw_Flush. rewrite Hw3.
  unfold rw_ReadSlice. cbn [rd].
  assert (Hall : sent cn3 ++ wbuf cn3
                 = sent cn ++ wbuf cn ++ header ++ Value item ++ crlf).
  { rewrite Hs3, (app_assoc (sent cn2)), Hs2, (app_assoc (sent cn1)), Hs1.
    rewrite <- !app_assoc. reflexivity. }
  assert (Hhead : header =
    bytes verb ++ [SP] ++ bytes (Key item) ++ [SP] ++ fmt_d (Flags item)
    ++ [SP] ++ fmt_d (Expiration item) ++ [SP]
    ++ fmt_d (Z.of_nat (length (Value item)))
    ++ (if String.eqb verb "cas" then [SP] ++ fmt_d (casid item) else [])
    ++ crlf).
  { subst header. destruct (String.eqb verb "cas"); reflexivity. }
  destruct (ReadSlice (rd cn3)) as [[line err] r].
  assert (Hgoal : forall res : option error,
    let c := snd (res, set_rd (mkConn (cid cn3) (caddr cn3) (rd cn3) []
                                 (sent cn3 ++ wbuf cn3) None) r) in
    sent c = sent cn ++ wbuf cn ++ header ++ Value item ++ crlf /\
    wbuf c = [] /\ cid c = cid cn /\ caddr c = caddr cn).
  { intros res. cbn. repeat split; try congruence. }
  rewrite Hhead in Hgoal. rewrite <- !app_assoc in Hgoal.
  destruct err as [e|]; [apply Hgoal|].
  repeat match goal with |- context [bytes_Equal ?a ?b] =>
    destruct (bytes_Equal a b) end; apply Hgoal.
Qed.

(** ** The properties at sample inputs *)

Lemma parseGetResponse_roundtrip_witness :
  parseGetResponse cap512 (mkReader reply_items io_EOF)
  = (map received [item_foo; item_empty], Ret None, mkReader (bytes "x") io_EOF).
Proof.
  apply (parseGetResponse_roundtrip cap512 [item_foo; item_empty] (bytes "x") io_EOF).
  repeat constructor; try reflexivity; try discriminate; cbn; lia.
Defined.

Lemma Get_wellformed_response_witness :
  exists cn',
    Get cap512 "foo" (world_one reply_foo)
    = (Some (received item_foo), Ret None,
       release cn' (world_dialed [EvPickServer "foo"] reply_foo)) /\
    rd cn' = mkReader [] io_EOF /\ cid cn' = 0 /\ caddr cn' = addr1 /\
    wbuf cn' = [] /\
    sent cn' = [] ++ [] ++ bytes "gets " ++ bytes "foo" ++ crlf.
Proof.
  apply (Get_wellformed_response cap512 "foo" (world_one reply_foo)
           (world_dialed [EvPickServer "foo"] reply_foo) addr1 (dialed reply_foo)
           [item_foo] [] io_EOF eq_refl eq_refl eq_refl eq_refl eq_refl).
  repeat constructor; try reflexivity; try discriminate; cbn; lia.
Defined.

Lemma incrDecr_panics_iff_witness :
  snd (fst (incrDecr_body "incr" "k" 1 (dialed [LF]))) = Panic.
Proof.
  apply (proj2 (incrDecr_panics_iff "incr" "k" 1 (dialed [LF]) [LF]
                  (mkReader [] io_EOF) eq_refl eq_refl)).
  left. reflexivity.
Defined.

Lemma incrDecr_roundtrip_witness :
  exists cn',
    incrDecr "incr" "k" 1 (world_one reply_counter)
    = (42%Z, Ret None, release cn' (world_dialed [EvPickServer "k"] reply_counter)) /\
    rd cn' = mkReader [] io_EOF /\ cid cn' = 0 /\ caddr cn' = addr1 /\
    sent cn' = [] ++ [] ++ bytes "incr" ++ [SP] ++ bytes "k" ++ [SP]
               ++ fmt_d 1 ++ crlf.
Proof.
  apply (incrDecr_roundtrip "incr" "k" 1 42 (world_one reply_counter)
           (world_dialed [EvPickServer "k"] reply_counter) addr1 (dialed reply_counter)
           [] io_EOF eq_refl eq_refl eq_refl eq_refl eq_refl).
  lia.
Defined.

Lemma Delete_response_witness :
  exists cn' err,
    Delete "k" (world_one resultNotFound)
    = (Ret err, condRelease cn' err (world_dialed [EvPickServer "k"] resultNotFound)) /\
    err = Some ErrCacheMiss.
Proof.
  destruct (Delete_response "k" (world_one resultNotFound)
              (world_dialed [EvPickServer "k"] resultNotFound) addr1
              (dialed resultNotFound) resultNotFound (mkReader [] io_EOF)
              eq_refl eq_refl eq_refl eq_refl eq_refl)
    as (cn' & err & Hdel & _ & _ & _ & _ & _ & Hmiss & _).
  exists cn', err. split; [exact Hdel | exact (Hmiss eq_refl)].
Defined.

Lemma broken_transport_surfaces_witness :
  fst (populateOne conn_broken "set" item_foo) = Some io_EOF /\
  fst (getFromAddr_body cap512 ["foo"] conn_broken) = ([], Ret (Some io_EOF)).
Proof.
  destruct (broken_transport_surfaces cap512 conn_broken io_EOF "set" "foo" item_foo
              ["foo"] 1 resultDeleted (bytes "delete foo") eq_refl)
    as (Hstore & _ & _ & Hget & _).
  split; [exact (proj1 (Hstore eq_refl)) | exact Hget].
Defined.

Lemma getConn_reuses_idle_witness :
  exists w',
    getConn addr1 (release (conn1 0) (world_one [])) = (inl (conn1 0), w') /\
    idle w' (AddrString addr1) = [].
Proof.
  destruct (getConn_reuses_idle addr1 (release (conn1 0) (world_one [])) [] (conn1 0)
              eq_refl)
    as (w' & Hget & _ & _ & _ & Hidle & _).
  exists w'. split; [exact Hget | exact Hidle].
Defined.

Lemma getConn_dials_once_witness :
  ndial (snd (getConn addr1 (world_one []))) = 1 /\
  fst (getConn addr1 (world_one [])) = inl (dialed []).
Proof.
  destruct (getConn_dials_once addr1 (world_one []) eq_refl) as (Hn & _ & Hconn & _).
  split; [exact Hn | exact Hconn].
Defined.

Lemma partition_keys_buckets_witness :
  Permutation (concat (map snd [(addr1, ["a"; "ab"]); (addr2, ["b"])]))
              ["a"; "b"; "ab"] /\
  List.NoDup (map fst [(addr1, ["a"; "ab"]); (addr2, ["b"])]).
Proof.
  destruct (partition_keys_buckets ["a"; "b"; "ab"] world_two
              (snd (partition_keys ["a"; "b"; "ab"] [] world_two))
              [(addr1, ["a"; "ab"]); (addr2, ["b"])] eq_refl)
    as (Hperm & Hnodup & _).
  split; [exact Hperm | exact Hnodup].
Defined.

Lemma GetMulti_error_policy_witness :
  let st := fanout cap512 [(addr1, ["a"]); (addr2, ["b"])] []
              (snd (partition_keys ["a"; "b"] [] world_two)) in
  exists err,
    GetMulti cap512 ["a"; "b"] [] world_two
    = (Ret (Some (fo_m st), err), fo_world st) /\
    length (fo_ch st) = 2.
Proof.
  intros st.
  destruct (GetMulti_error_policy cap512 ["a"; "b"] [] world_two
              (snd (partition_keys ["a"; "b"] [] world_two))
              [(addr1, ["a"]); (addr2, ["b"])] eq_refl eq_refl)
    as (err & Hget & Hlen & _).
  exists err. split; [exact Hget | exact Hlen].
Defined.

Lemma pool_stays_safe_witness :
  pool_safe (fold_left (fun w c => exec cap512 c w)
               [CallSet item_foo; CallGet "foo"; CallDelete "foo"]
               (world_one resultStored)).
Proof.
  exact (pool_stays_safe cap512 [CallSet item_foo; CallGet "foo"; CallDelete "foo"]
           (world_one resultStored) eq_refl eq_refl).
Defined.

Lemma parseGetResponse_outcome_witness :
  exists prefix,
    rd_data (mkReader reply_foo io_EOF) = prefix ++ resultEnd ++ [] /\
    rd_end (mkReader [] io_EOF) = io_EOF.
Proof.
  exact (proj1 (parseGetResponse_outcome cap512 (mkReader reply_foo io_EOF)
                  (mkReader [] io_EOF) [received item_foo] (Ret None) eq_refl)
           eq_refl).
Defined.

Lemma parseStatsResponse_roundtrip_witness :
  parseStatsResponse
    (mkReader (concat (map (fun p => stat_line (fst p) (snd p)) stat_pairs)
               ++ resultEnd ++ bytes "x") io_EOF) ∅
  = (fold_left store_stat stat_pairs ∅, Ret None, mkReader (bytes "x") io_EOF).
Proof.
  apply (parseStatsResponse_roundtrip stat_pairs (bytes "x") io_EOF ∅).
  repeat (constructor;
          [repeat split; try discriminate; try lia; apply Nat.leb_le; reflexivity|]).
  constructor.
Defined.

Lemma StatsSlabs_roundtrip_witness :
  exists cn',
    StatsSlabs addr1 (world_one reply_slabs)
    = (Ret (Some (fold_left slab_store slab_lines ∅), None),
       release cn' (world_dialed [] reply_slabs)) /\
    rd cn' = mkReader [] io_EOF /\ cid cn' = 0 /\ caddr cn' = addr1 /\
    wbuf cn' = [] /\
    sent cn' = [] ++ [] ++ bytes "stats slabs" ++ crlf.
Proof.
  apply (StatsSlabs_roundtrip addr1 (world_one reply_slabs) (world_dialed [] reply_slabs)
           (dialed reply_slabs) slab_lines [] io_EOF eq_refl eq_refl eq_refl).
  repeat (constructor;
          [repeat split; try discriminate; try lia;
           try (apply Nat.leb_le; reflexivity);
           match goal with
           | H : In _ _ |- _ => simpl in H; intuition (subst; discriminate)
           end|]).
  constructor.
Defined.

Lemma StatsItems_roundtrip_witness :
  exists cn',
    StatsItems addr1 (world_one reply_stat_items)
    = (Ret (Some (fold_left item_stat_store item_lines ∅), None),
       release cn' (world_dialed [] reply_stat_items)) /\
    rd cn' = mkReader [] io_EOF /\ cid cn' = 0 /\ caddr cn' = addr1 /\
    wbuf cn' = [] /\
    sent cn' = [] ++ [] ++ bytes "stats items" ++ crlf.
Proof.
  apply (StatsItems_roundtrip addr1 (world_one reply_stat_items)
           (world_dialed [] reply_stat_items) (dialed reply_stat_items)
           item_lines [] io_EOF eq_refl eq_refl eq_refl).
  repeat (constructor;
          [repeat split; try discriminate; try lia; apply Nat.leb_le; reflexivity|]).
  constructor.
Defined.

Lemma store_request_on_wire_witness :
  sent (snd (populateOne (conn1 0) "cas" item_foo))
  = bytes "cas foo 7 0 3 5" ++ crlf ++ bytes "bar" ++ crlf.
Proof.
  exact (proj1 (store_request_on_wire (conn1 0) "cas" item_foo eq_refl eq_refl)).
Defined.

(** ** Store responses, whatever the reader yields *)

Lemma populateOne_reads_error cn verb item line e r' :
  legalKey (Key item) = true ->
  wfail cn = None ->
  ReadSlice (rd cn) = (line, Some e, r') ->
  fst (populateOne cn verb item) = Some e.
Proof.
  intros Hkey Hw Hread. unfold populateOne. rewrite Hkey. simpl negb. cbv iota.
  match goal with |- context [rw_Write cn ?h] => generalize h end. intros header.
  destruct (rw_Write_ok cn header Hw) as (cn1 & E1 & Hw1 & Hr1).
  destruct (rw_Write_ok cn1 (Value item) Hw1) as (cn2 & E2 & Hw2 & Hr2).
  destruct (rw_Write_ok cn2 crlf Hw2) as (cn3 & E3 & Hw3 & Hr3).
  destruct (rw_Flush_ok cn3 Hw3) as (cn4 & E4 & Hw4 & Hr4).
  unfold andThen. rewrite E1, E2, E3, E4.
  unfold rw_ReadSlice. rewrite Hr4, Hr3, Hr2, Hr1, Hread. reflexivity.
Qed.

(** C6, as the code has it: for each of the store operations (verbs
    [set], [add], [cas]) over a working transport, the result is decided
    by what [ReadSlice] yields.  When it yields a line, the line alone
    decides: [STORED] is success, [NOT_STORED] is [ErrNotStored],
    [EXISTS] is [ErrCASConflict], [NOT_FOUND] is [ErrCacheMiss], and any
    other line is an error of the server-error class, which is not
    resumable.  When it yields an error (a line that does not fit the
    buffer gives [bufio.ErrBufferFull], a stream that ends before the
    line feed gives the error of the transport), that error is the
    result. *)
Theorem store_response_classified
    (op : Item -> World -> option error * World) (verb : string)
    (item : Item) (w w2 : World) (addr : Addr) (cn : conn)
    (line : list byte) (rerr : option error) (r' : Reader) :
  In (op, verb) [(Set_, "set"); (Add, "add"); (CompareAndSwap, "cas")] ->
  legalKey (Key item) = true ->
  selector (client w) (Key item) = inl addr ->
  getConn addr (log w (EvPickServer (Key item))) = (inl cn, w2) ->
  wfail cn = None ->
  ReadSlice (rd cn) = (line, rerr, r') ->
  let err := fst (op item w) in
  (rerr = None ->
   (line = resultStored -> err = None) /\
   (line = resultNotStored -> err = Some ErrNotStored) /\
   (line = resultExists -> err = Some ErrCASConflict) /\
   (line = resultNotFound -> err = Some ErrCacheMiss) /\
   (line <> resultStored -> line <> resultNotStored ->
    line <> resultExists -> line <> resultNotFound ->
    exists e, err = Some e /\ e = Errorf fmt_unexpected_from [bytes verb; line] /\
              server_error_class e = true /\ resumableError e = false)) /\
  (forall e, rerr = Some e ->
     err = Some e /\ (e = bufio_ErrBufferFull \/ e = rd_end (rd cn))).
Proof.
  intros Hop Hkey Hsel Hconn Hw Hread.
  assert (Hfst : fst (op item w) = fst (populateOne cn verb item)).
  { simpl in Hop.
    destruct Hop as [H|[H|[H|[]]]]; injection H as <- <-;
      unfold Set_, Add, CompareAndSwap, onItem, PickServer;
      rewrite Hsel, Hconn; unfold set, add, cas;
      destruct (populateOne cn _ item); reflexivity. }
  cbv zeta. rewrite Hfst. split.
  - intros ->.
    destruct (populateOne_result cn verb item line r' Hkey Hw Hread)
      as (H1 & H2 & H3 & H4 & H5).
    repeat split; try assumption.
    intros N1 N2 N3 N4. eexists. split; [apply H5; assumption|].
    repeat split.
  - intros e ->. split.
    + apply (populateOne_reads_error cn verb item line e r' Hkey Hw Hread).
    + apply (ReadSlice_error _ _ _ _ Hread).
Qed.

(** C6, as the claim has it, fails on a response line that does not
    fit the buffer of the reader: [Set] returns [bufio.ErrBufferFull],
    which is not of the server-error class. *)
Lemma Set_overlong_line_buffer_full :
  fst (Set_ item_foo (world_one overlong_line)) = Some bufio_ErrBufferFull /\
  server_error_class bufio_ErrBufferFull = false.
Proof. split; [vm_compute; reflexivity | reflexivity]. Qed.

(** ** A payload that does not end with CR LF *)





(** ** The final error of an operation and its connection *)













(** ** What [GetMulti] keeps of the answers *)










(** ** The operations at sample inputs *)



Lemma store_response_classified_witness :
  legalKey (Key item_foo) = true /\
  fst (CompareAndSwap item_foo (world_one resultExists)) = Some ErrCASConflict.
Proof.
  split; [reflexivity|].
  refine (proj1 (proj2 (proj2 (proj1
    (store_response_classified CompareAndSwap "cas" item_foo
       (world_one resultExists)
       (extendDeadline (mkConn 0 addr1 (mkReader resultExists io_EOF) [] [] None)
          (mkWorld (mkClient 0 (fun _ => inl addr1) None) (server resultExists) 1
             [EvPickServer "foo"; EvDial addr1]))
       addr1 (mkConn 0 addr1 (mkReader resultExists io_EOF) [] [] None)
       resultExists None (mkReader [] io_EOF)
       _ eq_refl eq_refl eq_refl eq_refl eq_refl) eq_refl))) eq_refl).
  right. right. left. reflexivity.
Defined.

